(** * arda: procedural island generation — a shallow embedding

    The development follows the JavaScript sources:
    - [utils/prng.js]   the Park–Miller random stream          (module [PRNG])
    - [utils/noise.js]  the diamond-square height synthesizer  (module [Noise])
    - [terrain.js]      classification, smoothing, sea and land
                        detection, contour tracing and the
                        retrying orchestrator                  (module [Terrain])

    JavaScript numbers are IEEE-754 binary64 values; they are modelled by
    [spec_float] with the operations of [SpecFloat] at precision 53.  A
    [Float32Array] stores the binary32 rounding of what is written to it.
    Integers that the code keeps exactly (indices, coordinates, the PRNG
    state, which never leaves the 53-bit range) are modelled by [Z]. *)

From Stdlib Require Import ZArith List Bool Lia SpecFloat.
Import ListNotations.
Open Scope Z_scope.

(* ================================================================== *)
(** * JavaScript numbers *)
(* ================================================================== *)

Module Num.

Definition number := spec_float.

Definition prec : Z := 53.
Definition emax : Z := 1024.

Definition nan : number := S754_nan.
Definition zero : number := S754_zero false.
Definition infinity : number := S754_infinity false.

Definition of_Z (z : Z) : number := binary_normalize prec emax z 0 false.

Definition one : number := of_Z 1.

Definition add : number -> number -> number := SFadd prec emax.
Definition sub : number -> number -> number := SFsub prec emax.
Definition mul : number -> number -> number := SFmul prec emax.
Definition div : number -> number -> number := SFdiv prec emax.
Definition neg : number -> number := SFopp.

(** [a < b], [a > b], [a <= b]: false as soon as one side is NaN. *)
Definition lt (a b : number) : bool := SFltb a b.
Definition gt (a b : number) : bool := SFltb b a.
Definition le (a b : number) : bool := SFleb a b.

Definition is_nan (a : number) : bool :=
  match a with S754_nan => true | _ => false end.

Definition is_neg_zero (a : number) : bool :=
  match a with S754_zero true => true | _ => false end.

(** [Math.min] and [Math.max]: NaN is contagious and [-0] is below [+0]. *)
Definition Math_min (a b : number) : number :=
  if is_nan a || is_nan b then nan
  else match SFcompare a b with
       | Some Lt => a
       | Some Gt => b
       | Some Eq => if is_neg_zero a then a else b
       | None => nan
       end.

Definition Math_max (a b : number) : number :=
  if is_nan a || is_nan b then nan
  else match SFcompare a b with
       | Some Lt => b
       | Some Gt => a
       | Some Eq => if is_neg_zero a then b else a
       | None => nan
       end.

(** What a [Float32Array] keeps of a number written to it: the value is
    rounded to binary32 (nearest, ties to even) and read back as a
    binary64 number. *)
Definition fround (a : number) : number :=
  match a with
  | S754_finite s m e =>
      match binary_round 24 128 s m e with
      | S754_finite s' m' e' => binary_round prec emax s' m' e'
      | r => r
      end
  | _ => a
  end.

(** [Math.floor] of a finite number, read as an integer.  The generator only
    floors finite products; the other cases are mapped to 0. *)
Definition Math_floor (a : number) : Z :=
  match a with
  | S754_finite s m e => Z.shiftl (cond_Zopp s (Zpos m)) e
  | _ => 0
  end.

(** Membership in the closed unit interval. *)
Definition in_unit (a : number) : bool := le zero a && le a one.

End Num.

(* ================================================================== *)
(** * utils/prng.js *)
(* ================================================================== *)

Module PRNG.

Record RNG : Type := mkRNG { seed : Z; state : Z }.

Definition MODULUS : Z := 2147483647.
Definition MAX_SAFE_INTEGER : Z := 9007199254740991.

(** [create(seed)].  JavaScript's [%] truncates, hence [Z.rem].  The guard
    on [state <= 0] updates [seed], as the source does. *)
Definition create (seed0 : Z) : RNG :=
  let state := Z.rem seed0 2147483647 in
  let seed1 := if state <=? 0 then seed0 + 2147483646 else seed0 in
  {| seed := seed1; state := state |}.

(** The state update of [next], and the number it returns. *)
Definition advance (rng : RNG) : RNG :=
  {| seed := seed rng; state := Z.rem (state rng * 16807) 2147483647 |}.

Definition output (rng : RNG) : Num.number :=
  Num.div (Num.of_Z (state rng - 1)) (Num.of_Z 2147483646).

Definition next (rng : RNG) : Num.number * RNG :=
  let rng' := advance rng in (output rng', rng').

(** The exact quotient that [next] rounds, as numerator and denominator. *)
Definition output_fraction (rng : RNG) : Z * Z := (state rng - 1, 2147483646).

(** [int(rng)] with the default bounds [0] and [Number.MAX_SAFE_INTEGER]. *)
Definition int (rng : RNG) : Z * RNG :=
  let '(v, rng') := next rng in
  let min := Num.zero in
  let max := Num.of_Z MAX_SAFE_INTEGER in
  (Num.Math_floor (Num.add min (Num.mul v (Num.sub max min))), rng').

(** [float(rng, min, max)]. *)
Definition float (rng : RNG) (min max : Num.number) : Num.number * RNG :=
  let '(v, rng') := next rng in
  (Num.add min (Num.mul v (Num.sub max min)), rng').

(** [chance(rng, probability)]. *)
Definition chance (rng : RNG) (probability : Num.number) : bool * RNG :=
  let '(v, rng') := next rng in (Num.le v probability, rng').

(** The invariant the data model asks of a stream. *)
Definition state_ok (rng : RNG) : Prop := 1 <= state rng <= 2147483646.

End PRNG.

(* ================================================================== *)
(** * Typed arrays and loop ranges *)
(* ================================================================== *)

Module Arr.

(** [0, 1, ..., n-1], the values taken by a counter [for (k = 0; k < n; k++)]. *)
Definition range (n : Z) : list Z := map Z.of_nat (seq 0 (Z.to_nat n)).

(** The values taken by [for (k = 0; k < n; k += step)], [step > 0]. *)
Definition strided (n step : Z) : list Z :=
  map (fun k => k * step) (range ((n + step - 1) / step)).

(** The pairs [(x, y)] visited by [for y in ys { for x in xs { ... } }]. *)
Definition nest (ys xs : list Z) : list (Z * Z) :=
  flat_map (fun y => map (fun x => (x, y)) xs) ys.

(** Reading index [i]: [None] stands for [undefined]. *)
Definition get {A} (i : Z) (l : list A) : option A :=
  if i <? 0 then None else nth_error l (Z.to_nat i).

Fixpoint upd_nat {A} (n : nat) (v : A) (l : list A) : list A :=
  match l, n with
  | [], _ => []
  | _ :: t, O => v :: t
  | a :: t, S k => a :: upd_nat k v t
  end.

(** Writing index [i] of a typed array: a write outside the array is
    ignored. *)
Definition upd {A} (i : Z) (v : A) (l : list A) : list A :=
  if i <? 0 then l else upd_nat (Z.to_nat i) v l.

(** [new TypedArray(n)], filled with the zero [z]; a negative length is a
    [RangeError], here [None].  The [RangeError] that an engine raises for a
    length above its own limit is outside the model: a result that says a
    call returns is stated for a length that an array at hand already has. *)
Definition alloc {A} (z : A) (n : Z) : option (list A) :=
  if n <? 0 then None else Some (repeat z (Z.to_nat n)).

(** [array.subarray(i, j)] for [0 <= i]. *)
Definition subarray {A} (i j : Z) (l : list A) : list A :=
  firstn (Z.to_nat (j - i)) (skipn (Z.to_nat i) l).

(** [target.set(source, offset)] when the source fits. *)
Definition set_at {A} (source : list A) (offset : Z) (target : list A) : list A :=
  firstn (Z.to_nat offset) target ++ source
    ++ skipn (Z.to_nat offset + length source) target.

End Arr.

(* ================================================================== *)
(** * utils/noise.js *)
(* ================================================================== *)

Module Noise.

Import Num.

Definition field := list number.

(** Reading a [Float32Array] cell for arithmetic: [undefined] behaves as NaN. *)
Definition rd (a : field) (i : Z) : number :=
  match Arr.get i a with Some v => v | None => nan end.

(** Writing a [Float32Array] cell. *)
Definition wr (a : field) (i : Z) (v : number) : field := Arr.upd i (fround v) a.

Definition two : number := of_Z 2.
Definition three : number := of_Z 3.
Definition four : number := of_Z 4.

(** The search [for (exp = 1; size <= minSize; exp++) size = 2 ** exp + 1]. *)
Fixpoint find_size (fuel : nat) (exp size minSize : Z) : Z :=
  match fuel with
  | O => size
  | S f => if size <=? minSize
           then find_size f (exp + 1) (2 ^ exp + 1) minSize
           else size
  end.

Definition working_size (width height : Z) : Z :=
  let minSize := Z.max width height in
  find_size (S (Z.to_nat minSize)) 1 1 minSize.

(** One cell of the diamond pass. *)
Definition diamond (size i : Z) (r : number) (st : field * PRNG.RNG) (xy : Z * Z)
  : field * PRNG.RNG :=
  let '(array, rng) := st in
  let '(x, y) := xy in
  let x0 := x in
  let y0 := y in
  let x1 := x0 + i in
  let y1 := y0 + i in
  let s0 := rd array (x0 + y0 * size) in
  let s1 := rd array (x1 + y0 * size) in
  let s2 := rd array (x0 + y1 * size) in
  let s3 := rd array (x1 + y1 * size) in
  let cx := x0 + i / 2 in
  let cy := y0 + i / 2 in
  let '(j, rng) := PRNG.float rng (neg r) r in
  let v := add (div (add (add (add s0 s1) s2) s3) four) j in
  (wr array (cx + cy * size) v, rng).

(** One cell of the square pass. *)
Definition square (size i : Z) (r : number) (st : field * PRNG.RNG) (xy : Z * Z)
  : field * PRNG.RNG :=
  let '(array, rng) := st in
  let '(x, y) := xy in
  let hi := i / 2 in
  let x0 := x in
  let y0 := y in
  let x1 := x0 + i in
  let y1 := y0 + i in
  let s0 := rd array (x0 + y0 * size) in
  let s1 := rd array (x1 + y0 * size) in
  let s2 := rd array (x0 + y1 * size) in
  let s3 := rd array (x1 + y1 * size) in
  let cx := x0 + hi in
  let cy := y0 + hi in
  let cs := rd array (cx + cy * size) in
  let d0 := if y0 =? 0
            then div (add (add s0 cs) s1) three
            else div (add (add (add s0 cs) s1) (rd array (cx + (y0 - hi) * size))) four in
  let d1 := if x0 =? 0
            then div (add (add s0 cs) s2) three
            else div (add (add (add s0 cs) s2) (rd array (x0 - hi + cy * size))) four in
  let d2 := if x1 =? size - 1
            then div (add (add s1 cs) s3) three
            else div (add (add (add s1 cs) s3) (rd array (x1 + hi + cy * size))) four in
  let d3 := if y1 =? size - 1
            then div (add (add cs s2) s3) three
            else div (add (add (add cs s2) s3) (rd array (cx + (y1 + hi) * size))) four in
  let '(j0, rng) := PRNG.float rng (neg r) r in
  let array := wr array (cx + y0 * size) (add d0 j0) in
  let '(j1, rng) := PRNG.float rng (neg r) r in
  let array := wr array (x0 + cy * size) (add d1 j1) in
  let '(j2, rng) := PRNG.float rng (neg r) r in
  let array := wr array (x1 + cy * size) (add d2 j2) in
  let '(j3, rng) := PRNG.float rng (neg r) r in
  let array := wr array (cx + y1 * size) (add d3 j3) in
  (array, rng).

(** The rounds [for (i = size - 1; i > 1; i /= 2)]; [size - 1] is a power
    of two, so halving is exact. *)
Fixpoint rounds (fuel : nat) (size i : Z) (roughness jitter : number)
  (st : field * PRNG.RNG) : field * PRNG.RNG :=
  match fuel with
  | O => st
  | S f =>
      if i >? 1 then
        let r := add (mul (div (of_Z i) (of_Z size)) roughness) jitter in
        let cells := Arr.nest (Arr.strided (size - 1) i) (Arr.strided (size - 1) i) in
        let st := fold_left (diamond size i r) cells st in
        let st := fold_left (square size i r) cells st in
        rounds f size (i / 2) roughness jitter st
      else st
  end.

(** [Math.max(0, Math.min(1, v))], written back to the array. *)
Definition clamp (v : number) : number := Math_max zero (Math_min one v).

Definition clamp_all (array : field) : field := map (fun v => fround (clamp v)) array.

(** Copying the top-left [width * height] corner, row by row. *)
Definition crop_row (size width : Z) (array : field) (slice : field) (y : Z) : field :=
  let i := y * size in
  let j := i + width in
  let row := Arr.subarray i j array in
  Arr.set_at row (y * width) slice.

(** [diamondSquare({ width, height, roughness, jitter, seed, corners })].
    [None] is the [RangeError] of allocating a negative length. *)
Definition diamondSquare (width height : Z) (roughness jitter : number)
  (seed : Z) (corners : option (list number)) : option field :=
  let rng := PRNG.create seed in
  let size := working_size width height in
  match Arr.alloc zero (size * size) with
  | None => None
  | Some array =>
      let x0 := 0 in
      let y0 := 0 in
      let x1 := size - 1 in
      let y1 := size - 1 in
      let '(array, rng) :=
        match corners with
        | Some cs =>
            let c k := nth k cs nan in
            let array := wr array (x0 + y0 * size) (c 0%nat) in
            let array := wr array (x1 + y0 * size) (c 1%nat) in
            let array := wr array (x0 + y1 * size) (c 2%nat) in
            let array := wr array (x1 + y1 * size) (c 3%nat) in
            (array, rng)
        | None =>
            let '(v, rng) := PRNG.float rng zero one in
            let array := wr array (x0 + y0 * size) v in
            let '(v, rng) := PRNG.float rng zero one in
            let array := wr array (x1 + y0 * size) v in
            let '(v, rng) := PRNG.float rng zero one in
            let array := wr array (x0 + y1 * size) v in
            let '(v, rng) := PRNG.float rng zero one in
            let array := wr array (x1 + y1 * size) v in
            (array, rng)
        end in
      let '(array, _) :=
        rounds (Z.to_nat size) size (size - 1) roughness jitter (array, rng) in
      let array := clamp_all array in
      if (size =? width) && (size =? height) then Some array
      else
        match Arr.alloc zero (width * height) with
        | None => None
        | Some slice =>
            Some (fold_left (crop_row size width array) (Arr.range height) slice)
        end
  end.

End Noise.

(* ================================================================== *)
(** * terrain.js *)
(* ================================================================== *)

Module Terrain.

Import Num.

(** [WATER = 0] and [LAND = 1], the two values a terrain cell takes. *)
Inductive Cell : Type := WATER | LAND.

Definition grid := list Cell.

Definition cell_eqb (a b : Cell) : bool :=
  match a, b with
  | WATER, WATER | LAND, LAND => true
  | _, _ => false
  end.

(** [a === b] on cells that may be [undefined]. *)
Definition same (a b : option Cell) : bool :=
  match a, b with
  | Some u, Some v => cell_eqb u v
  | None, None => true
  | _, _ => false
  end.

(** [terrain[i] === c]. *)
Definition is_cell (terrain : grid) (i : Z) (c : Cell) : bool :=
  same (Arr.get i terrain) (Some c).

(** [value ^ 1] and the byte stored for a possibly undefined value. *)
Definition flip (v : option Cell) : Cell :=
  match v with Some LAND => WATER | _ => LAND end.

Definition to_byte (v : option Cell) : Cell :=
  match v with Some c => c | None => WATER end.

(** [nx >= 0 && ny >= 0 && nx < width && ny < height]. *)
Definition valid (width height nx ny : Z) : bool :=
  (nx >=? 0) && (ny >=? 0) && (nx <? width) && (ny <? height).

(** The offsets visited by [for dy in -1..1 { for dx in -1..1 }]. *)
Definition DELTAS : list (Z * Z) := Arr.nest [-1; 0; 1] [-1; 0; 1].

(** [new Set()] with [add] and [size]; insertion order is kept. *)
Definition set_add (n : Z) (s : list Z) : list Z :=
  if existsb (Z.eqb n) s then s else s ++ [n].

Definition set_size (s : list Z) : Z := Z.of_nat (length s).

(* ------------------------------------------------------------------ *)
(** ** Classification *)

Definition classify_cell (width : Z) (heightMap : list number) (seaLevel : number)
  (terrain : grid) (xy : Z * Z) : grid :=
  let '(x, y) := xy in
  let i := x + y * width in
  let above := match Arr.get i heightMap with
               | Some v => gt v seaLevel
               | None => false
               end in
  Arr.upd i (if above then LAND else WATER) terrain.

(** [createFromHeightMap({ width, height, heightMap, seaLevel })]. *)
Definition createFromHeightMap (width height : Z) (heightMap : list number)
  (seaLevel : number) : option grid :=
  match Arr.alloc WATER (width * height) with
  | None => None
  | Some terrain =>
      Some (fold_left (classify_cell width heightMap seaLevel)
              (Arr.nest (Arr.range height) (Arr.range width)) terrain)
  end.

Definition count_land (terrain : grid) : Z :=
  fold_left (fun land c => match c with LAND => land + 1 | WATER => land end) terrain 0.

(** [calculateLandPercent(terrain)]. *)
Definition calculateLandPercent (terrain : grid) : number :=
  div (of_Z (count_land terrain)) (of_Z (Z.of_nat (length terrain))).

(* ------------------------------------------------------------------ *)
(** ** Smoothing *)

Definition count_same (width height : Z) (current : grid) (x y : Z)
  (value : option Cell) : Z :=
  fold_left
    (fun neighbours d =>
       let '(dx, dy) := d in
       if (dx =? 0) && (dy =? 0) then neighbours
       else
         let nx := x + dx in
         let ny := y + dy in
         let sample := if valid width height nx ny
                       then Arr.get (nx + ny * width) current
                       else value in
         if same sample value then neighbours + 1 else neighbours)
    DELTAS 0.

Definition smooth_cell (width height minNeighbours : Z) (current : grid)
  (st : grid * bool) (xy : Z * Z) : grid * bool :=
  let '(next, stable) := st in
  let '(x, y) := xy in
  let value := Arr.get (x + y * width) current in
  let neighbours := count_same width height current x y value in
  if neighbours <? minNeighbours
  then (Arr.upd (x + y * width) (flip value) next, false)
  else (Arr.upd (x + y * width) (to_byte value) next, stable).

Fixpoint smooth_loop (iterations : nat) (width height minNeighbours : Z)
  (current next : grid) : grid :=
  match iterations with
  | O => current
  | S k =>
      let '(next, stable) :=
        fold_left (smooth_cell width height minNeighbours current)
          (Arr.nest (Arr.range height) (Arr.range width)) (next, true) in
      (* [current, next] = [next, current] *)
      if stable then next
      else smooth_loop k width height minNeighbours next current
  end.

(** [smooth({ width, height, terrain, minNeighbours, iterations })]; the
    result is the content of [terrain] after [terrain.set(current)]. *)
Definition smooth (width height : Z) (terrain : grid) (minNeighbours iterations : Z)
  : grid :=
  smooth_loop (Z.to_nat iterations) width height minNeighbours terrain terrain.

(* ------------------------------------------------------------------ *)
(** ** Sea detection *)

Record SeaProfile : Type := mkSea { sea_id : Z; sea_tiles : list Z }.

(** The state of a flood fill: the mark array, the stack (top first) and
    the tiles collected so far. *)
Definition fill_state : Type := list bool * list Z * list Z.

Definition sea_visit (width height : Z) (terrain : grid) (x y : Z)
  (st : fill_state) (d : Z * Z) : fill_state :=
  let '(ocean, stack, tiles) := st in
  let '(dx, dy) := d in
  if (dx =? 0) && (dy =? 0) then st
  else
    let nx := x + dx in
    let ny := y + dy in
    let n := nx + ny * width in
    if valid width height nx ny then
      if is_cell terrain n WATER
         && match Arr.get n ocean with Some false => true | _ => false end
      then (Arr.upd n true ocean, n :: stack, set_add n tiles)
      else st
    else st.

(** [while (stack.length > 0) { ... }]; [None] when the fuel runs out. *)
Fixpoint sea_flood (fuel : nat) (width height : Z) (terrain : grid)
  (st : fill_state) : option fill_state :=
  let '(ocean, stack, tiles) := st in
  match stack with
  | [] => Some st
  | i :: stack =>
      match fuel with
      | O => None
      | S f =>
          let x := Z.rem i width in
          let y := Z.quot i width in
          sea_flood f width height terrain
            (fold_left (sea_visit width height terrain x y) DELTAS
               (ocean, stack, tiles))
      end
  end.

(** Every iteration pops one cell and every push marks a fresh cell, so a
    fill started from one cell runs at most [length marks + 1] times. *)
Definition fill_fuel (marks : list bool) : nat := S (S (length marks)).

(** The state of the border scan: next id, [ocean], the seas found, and the
    cells at which a fill was started (a record of [stack.push(i)]). *)
Record sea_scan : Type := mkSeaScan
  { currentSeaId : Z; ocean_of : list bool; seas_of : list SeaProfile;
    sea_starts : list Z }.

Definition sea_scan_cell (width height : Z) (terrain : grid)
  (st : option sea_scan) (xy : Z * Z) : option sea_scan :=
  match st with
  | None => None
  | Some s =>
      let '(x, y) := xy in
      let i := x + y * width in
      if (x >? 0) && (y >? 0) && (x <? width - 1) && (y <? height - 1) then st
      else if negb (is_cell terrain i WATER) then st
      else
        match sea_flood (fill_fuel (ocean_of s)) width height terrain
                (ocean_of s, [i], []) with
        | None => None
        | Some (ocean, _, tiles) =>
            Some {| currentSeaId := currentSeaId s + 1;
                    ocean_of := ocean;
                    seas_of := seas_of s ++ [mkSea (currentSeaId s) tiles];
                    sea_starts := sea_starts s ++ [i] |}
        end
  end.

(** The cells looked at by the two scanning loops of [detectSeas], whose
    bounds are [y < width] and [x < height]. *)
Definition sea_scan_cells (width height : Z) : list (Z * Z) :=
  Arr.nest (Arr.range width) (Arr.range height).

Definition detectSeas_scan (width height : Z) (terrain : grid) : option sea_scan :=
  match Arr.alloc false (width * height) with
  | None => None
  | Some ocean =>
      fold_left (sea_scan_cell width height terrain) (sea_scan_cells width height)
        (Some {| currentSeaId := 1; ocean_of := ocean; seas_of := [];
                 sea_starts := [] |})
  end.

(** [terrain[i] = ocean[i] ? WATER : LAND] for every [i < terrain.length]. *)
Definition reclassify (ocean : list bool) (terrain : grid) : grid :=
  map (fun i => match Arr.get i ocean with Some true => WATER | _ => LAND end)
    (Arr.range (Z.of_nat (length terrain))).

(** [detectSeas({ width, height, terrain })]: the seas returned and the
    terrain as the call leaves it. *)
Definition detectSeas (width height : Z) (terrain : grid)
  : option (list SeaProfile * grid) :=
  match detectSeas_scan width height terrain with
  | None => None
  | Some s => Some (seas_of s, reclassify (ocean_of s) terrain)
  end.

(** The cells from which [detectSeas] starts a flood fill, in order. *)
Definition sea_seeds (width height : Z) (terrain : grid) : option (list Z) :=
  match detectSeas_scan width height terrain with
  | None => None
  | Some s => Some (sea_starts s)
  end.

(* ------------------------------------------------------------------ *)
(** ** Contour tracing *)

(**
<<
   0 1 2
   7   3
   6 5 4
>> *)
Definition MOORE_NEIGHBOURHOOD : list (Z * Z) :=
  [ (-1, -1); (0, -1); (1, -1); (1, 0); (1, 1); (0, 1); (-1, 1); (-1, 0) ].

(** The variables of [trace]: current cell, backtrack cell, path. *)
Record tracer : Type := mkTracer
  { px : Z; py : Z; bx : Z; by_ : Z; path : list Z }.

(** The offset at which the clockwise walk around the current cell starts. *)
Definition start_offset (t : tracer) : Z :=
  if px t >? bx t then 7
  else if px t <? bx t then 3
  else if py t >? by_ t then 1
  else if py t <? by_ t then 5
  else 0.

(** The inner [for (i = 0; i < neighbours.length; i++)], over the remaining
    values of [i]. *)
Fixpoint trace_scan (ks : list Z) (width height : Z) (terrain : grid)
  (type : Cell) (offset : Z) (t : tracer) : tracer :=
  match ks with
  | [] => t
  | i :: rest =>
      let index := Z.rem (i + offset) 8 in
      let '(dx, dy) := nth (Z.to_nat index) MOORE_NEIGHBOURHOOD (0, 0) in
      let nx := px t + dx in
      let ny := py t + dy in
      let n := nx + ny * width in
      if valid width height nx ny && is_cell terrain n type then
        if match last (map Some (path t)) None with
           | Some l => l =? n
           | None => false
           end
        then (* continue *)
          trace_scan rest width height terrain type offset
            (mkTracer nx ny (bx t) (by_ t) (path t))
        else (* push and break *)
          mkTracer nx ny (bx t) (by_ t) (path t ++ [n])
      else
        trace_scan rest width height terrain type offset
          (mkTracer (px t) (py t) nx ny (path t))
  end.

(** One turn of [while (true)]. *)
Definition trace_turn (width height : Z) (terrain : grid) (type : Cell)
  (t : tracer) : tracer :=
  let offset := start_offset t in
  trace_scan (Arr.range 8) width height terrain type offset
    (mkTracer (px t) (py t) (px t) (py t) (path t)).

Fixpoint trace_loop (fuel : nat) (width height : Z) (terrain : grid)
  (type : Cell) (sx sy : Z) (t : tracer) : option (list Z) :=
  match fuel with
  | O => None
  | S f =>
      let t := trace_turn width height terrain type t in
      if (px t =? sx) && (py t =? sy) then Some (path t)
      else trace_loop f width height terrain type sx sy t
  end.

(** A walk that has not come back to its start after this many turns has
    repeated a configuration (cell and backtrack direction) and never will. *)
Definition trace_fuel (width height : Z) : nat := S (S (Z.to_nat (4 * (width * height)))).

(** [trace({ x, y, width, height, terrain, type })]; [None] when the loop
    does not end. *)
Definition trace (x y width height : Z) (terrain : grid) (type : Cell)
  : option (list Z) :=
  trace_loop (trace_fuel width height) width height terrain type x y
    (mkTracer x y (x - 1) y []).

(* ------------------------------------------------------------------ *)
(** ** Land detection *)

Record LandProfile : Type := mkLand
  { land_id : Z; land_tiles : list Z; land_path : list Z }.

Definition land_visit (width height : Z) (terrain : grid) (x y : Z)
  (st : fill_state) (d : Z * Z) : fill_state :=
  let '(seen, stack, tiles) := st in
  let '(dx, dy) := d in
  if (dx =? 0) && (dy =? 0) then st
  else
    let nx := x + dx in
    let ny := y + dy in
    if valid width height nx ny then
      let n := nx + ny * width in
      if is_cell terrain n WATER then st
      else if match Arr.get n seen with Some true => true | _ => false end then st
      else (Arr.upd n true seen, n :: stack, set_add n tiles)
    else st.

Fixpoint land_flood (fuel : nat) (width height : Z) (terrain : grid)
  (st : fill_state) : option fill_state :=
  let '(seen, stack, tiles) := st in
  match stack with
  | [] => Some st
  | id :: stack =>
      match fuel with
      | O => None
      | S f =>
          let x := Z.rem id width in
          let y := Z.quot id width in
          land_flood f width height terrain
            (fold_left (land_visit width height terrain x y) DELTAS
               (seen, stack, tiles))
      end
  end.

(** The state of the land scan; [land_starts] records the cells at which a
    fill was started. *)
Record land_scan : Type := mkLandScan
  { currentLandId : Z; seen_of : list bool; lands_of : list LandProfile;
    land_starts : list Z }.

Definition land_scan_cell (width height : Z) (terrain : grid)
  (st : option land_scan) (xy : Z * Z) : option land_scan :=
  match st with
  | None => None
  | Some s =>
      let '(x, y) := xy in
      let id := x + y * width in
      if is_cell terrain id WATER then st
      else if match Arr.get id (seen_of s) with Some true => true | _ => false end
      then st
      else
        match land_flood (fill_fuel (seen_of s)) width height terrain
                (seen_of s, [id], []) with
        | None => None
        | Some (seen, _, tiles) =>
            match trace x y width height terrain LAND with
            | None => None
            | Some path =>
                Some {| currentLandId := currentLandId s + 1;
                        seen_of := seen;
                        lands_of := lands_of s ++ [mkLand (currentLandId s) tiles path];
                        land_starts := land_starts s ++ [id] |}
            end
        end
  end.

Definition detectLands_scan (width height : Z) (terrain : grid) : option land_scan :=
  match Arr.alloc false (width * height) with
  | None => None
  | Some seen =>
      fold_left (land_scan_cell width height terrain)
        (Arr.nest (Arr.range height) (Arr.range width))
        (Some {| currentLandId := 0; seen_of := seen; lands_of := [];
                 land_starts := [] |})
  end.

(** [detectLands({ width, height, terrain })]; [None] when the call does
    not return. *)
Definition detectLands (width height : Z) (terrain : grid)
  : option (list LandProfile) :=
  option_map lands_of (detectLands_scan width height terrain).

(** The lands of [detectLands], each with the cell its fill started from. *)
Definition detectLands_seeded (width height : Z) (terrain : grid)
  : option (list (Z * LandProfile)) :=
  option_map (fun s => combine (land_starts s) (lands_of s))
    (detectLands_scan width height terrain).

(* ------------------------------------------------------------------ *)
(** ** The orchestrator *)

(** [WorldGenerationParams] (types.d.ts). *)
Record WorldGenerationParams : Type := mkParams
  { seed : Z;
    width : Z;
    height : Z;
    seaLevel : number;
    noiseRoughess : number;
    maxSmoothingIterations : Z;
    minLands : number;
    maxLands : number;
    minSeas : number;
    maxSeas : number;
    minPercentLand : number;
    maxPercentLand : number;
    minLandSize : number;
    maxLandSize : number;
    minSeaSize : number;
    maxSeaSize : number;
    maxRetries : Z }.

Definition with_seed (s : Z) (p : WorldGenerationParams) : WorldGenerationParams :=
  {| seed := s; width := width p; height := height p; seaLevel := seaLevel p;
     noiseRoughess := noiseRoughess p;
     maxSmoothingIterations := maxSmoothingIterations p;
     minLands := minLands p; maxLands := maxLands p;
     minSeas := minSeas p; maxSeas := maxSeas p;
     minPercentLand := minPercentLand p; maxPercentLand := maxPercentLand p;
     minLandSize := minLandSize p; maxLandSize := maxLandSize p;
     minSeaSize := minSeaSize p; maxSeaSize := maxSeaSize p;
     maxRetries := maxRetries p |}.

(** The object returned by [generateUnsafe]. *)
Record World : Type := mkWorld
  { w_width : Z; w_height : Z; heights : list number; moisture : list number;
    types : grid; seas : list SeaProfile; lands : list LandProfile }.

(** The six [TerrainGenerationError]s. *)
Inductive Rejection : Type :=
  | TooLittleLand | TooMuchLand | TooFewSeas | TooManySeas | TooFewLands | TooManyLands.

(** How one call of [generateUnsafe] ends. *)
Inductive Attempt : Type :=
  | Generated (w : World)
  | Rejected (why : Rejection)   (* throw new TerrainGenerationError(...) *)
  | RangeError                   (* a typed array of negative length *)
  | Hung.                        (* the call does not return *)

(** The stages of [generateUnsafe] that follow the two noise fields. *)
Definition pipeline (params : WorldGenerationParams)
  (heightMap moistureMap : list number) : Attempt :=
  let width := width params in
  let height := height params in
  match createFromHeightMap width height heightMap (seaLevel params) with
  | None => RangeError
  | Some terrain =>
      let landPercent := calculateLandPercent terrain in
      if lt landPercent (minPercentLand params) then Rejected TooLittleLand
      else if gt landPercent (maxPercentLand params) then Rejected TooMuchLand
      else
        let terrain := smooth width height terrain 4 (maxSmoothingIterations params) in
        match detectSeas width height terrain with
        | None => Hung
        | Some (seas, terrain) =>
            let seas :=
              filter (fun sea =>
                        le (minSeaSize params) (of_Z (set_size (sea_tiles sea)))
                        && le (of_Z (set_size (sea_tiles sea))) (maxSeaSize params))
                seas in
            if lt (of_Z (Z.of_nat (length seas))) (minSeas params)
            then Rejected TooFewSeas
            else if gt (of_Z (Z.of_nat (length seas))) (maxSeas params)
            then Rejected TooManySeas
            else
              match detectLands width height terrain with
              | None => Hung
              | Some lands =>
                  let lands :=
                    filter (fun land =>
                              le (minLandSize params) (of_Z (set_size (land_tiles land)))
                              && le (of_Z (set_size (land_tiles land))) (maxLandSize params))
                      lands in
                  if lt (of_Z (Z.of_nat (length lands))) (minLands params)
                  then Rejected TooFewLands
                  else if gt (of_Z (Z.of_nat (length lands))) (maxLands params)
                  then Rejected TooManyLands
                  else
                    Generated
                      {| w_width := width; w_height := height;
                         heights := heightMap; moisture := moistureMap;
                         types := terrain; seas := seas; lands := lands |}
              end
        end
  end.

(** [generateUnsafe(params)]. *)
Definition generateUnsafe (params : WorldGenerationParams) : Attempt :=
  let rng := PRNG.create (seed params) in
  let '(s1, rng) := PRNG.int rng in
  match Noise.diamondSquare (width params) (height params)
          (noiseRoughess params) zero s1 None with
  | None => RangeError
  | Some heightMap =>
      let '(s2, rng) := PRNG.int rng in
      match Noise.diamondSquare (width params) (height params)
              (of_Z 2) zero s2 None with
      | None => RangeError
      | Some moistureMap => pipeline params heightMap moistureMap
      end
  end.

(** How [generate] ends. *)
Inductive Outcome : Type :=
  | Success (w : World)          (* return generateUnsafe(...) *)
  | Exhausted (tries : Z)        (* throw new Error(`Could not generate terrain in ${tries} tries`) *)
  | Failed                       (* another error, thrown again *)
  | NoReturn.

(** The retry loop; the log has one entry [(i, seed)] per
    [console.group(`try=${i} seed=${seed}`)]. *)
Fixpoint generate_loop (left : nat) (i : Z) (rng : PRNG.RNG) (seed : Z)
  (params : WorldGenerationParams) (log : list (Z * Z))
  : Outcome * list (Z * Z) :=
  match left with
  | O => (Exhausted (maxRetries params), log)
  | S k =>
      let log := log ++ [(i, seed)] in
      match generateUnsafe (with_seed seed params) with
      | Generated w => (Success w, log)
      | Rejected _ =>
          let '(seed, rng) := PRNG.int rng in
          generate_loop k (i + 1) rng seed params log
      | RangeError => (Failed, log)
      | Hung => (NoReturn, log)
      end
  end.

(** [generate({ seed, ...params })], with the log of its attempts. *)
Definition generate_logged (params : WorldGenerationParams)
  : Outcome * list (Z * Z) :=
  generate_loop (Z.to_nat (maxRetries params)) 0 (PRNG.create (seed params))
    (seed params) params [].

Definition generate (params : WorldGenerationParams) : Outcome :=
  fst (generate_logged params).

End Terrain.

(* ================================================================== *)
(** * Properties of the random stream *)
(* ================================================================== *)

Module PRNGFacts.

Import PRNG.

Lemma create_state_ok_positive (s : Z) :
  0 < Z.rem s 2147483647 -> state_ok (create s).
Proof.
  intros H. unfold state_ok, create; cbn [state].
  assert (Hs : 0 <= s).
  { destruct (Z.lt_ge_cases s 0) as [Hn|]; [|assumption].
    pose proof (Z.rem_nonpos s 2147483647 ltac:(lia) ltac:(lia)). lia. }
  pose proof (Z.rem_bound_pos s 2147483647 Hs ltac:(lia)). lia.
Qed.

(** 16807 is a unit modulo 2^31 - 1, so a non-zero state stays non-zero. *)
Lemma advance_state_ok (rng : RNG) : state_ok rng -> state_ok (advance rng).
Proof.
  unfold state_ok, advance; cbn [state]. intros [Hlo Hhi].
  set (st := state rng) in *.
  rewrite Z.rem_mod_nonneg by lia.
  pose proof (Z.mod_pos_bound (st * 16807) 2147483647 ltac:(lia)) as Hb.
  assert (Hnz : (st * 16807) mod 2147483647 <> 0).
  { intros Hz. apply Z.mod_divide in Hz; [|lia].
    rewrite Z.mul_comm in Hz.
    apply Z.gauss in Hz; [|reflexivity].
    destruct Hz as [k Hk]. nia. }
  lia.
Qed.

(** On a good state the quotient returned by [next] is a fraction of [0,1). *)
Lemma output_fraction_unit (rng : RNG) :
  state_ok rng ->
  0 <= fst (output_fraction rng) < snd (output_fraction rng).
Proof. unfold state_ok, output_fraction; cbn. lia. Qed.

(** C1, at seed 0: [create] leaves the state at 0, outside
    [1, 2147483646], because its guard adds 2147483646 to [seed] and not to
    [state]; from there [next] keeps the state at 0 and returns
    [-1/2147483646], which is below 0. *)
Theorem create_zero_breaks_invariant :
  state (create 0) = 0
  /\ seed (create 0) = 2147483646
  /\ ~ state_ok (create 0)
  /\ state (snd (next (create 0))) = 0
  /\ Num.lt (fst (next (create 0))) Num.zero = true.
Proof.
  repeat split; try reflexivity.
  unfold state_ok; cbn. lia.
Qed.

End PRNGFacts.

(* ================================================================== *)
(** * Properties of the height synthesizer *)
(* ================================================================== *)

Module NoiseFacts.

Import Num Noise.

Definition has_value_outside_unit (o : option field) : bool :=
  match o with
  | Some f => existsb (fun v => negb (in_unit v)) f
  | None => false
  end.

(** C9, at [{ seed: 1, width: 2, height: 2, roughness: Infinity }]: the
    jitter amplitude is infinite, every draw [-r + next * (r - -r)] is NaN,
    and [Math.max(0, Math.min(1, NaN))] is NaN, so the field returned holds
    three NaN values, which are not in [0,1].  The same happens with the
    finite roughness 1e39 (seed 10, width 3, height 3), where the binary32
    cells overflow to infinities of both signs whose average is NaN. *)
Theorem diamondSquare_returns_nan :
  diamondSquare 2 2 infinity zero 1 None
    = Some [fround (fst (PRNG.next (PRNG.create 1))); nan; nan; nan]
  /\ in_unit nan = false
  /\ has_value_outside_unit (diamondSquare 2 2 infinity zero 1 None) = true
  /\ has_value_outside_unit (diamondSquare 3 3 (of_Z (10 ^ 39)) zero 10 None) = true.
Proof. repeat split; vm_compute; reflexivity. Qed.

End NoiseFacts.

(* ================================================================== *)
(** * Properties of sea detection *)
(* ================================================================== *)

Module SeaFacts.

Import Terrain.

(** A 2 x 2 grid of water: one component, every cell on the border. *)
Definition all_water_2x2 : grid := [WATER; WATER; WATER; WATER].

(** C4, at the 2 x 2 grid of water: the scan does not test [ocean[i]], so
    each of the four border cells starts a fill although the first fill has
    collected them all; four regions are returned for one component, the
    last three with no tile. *)
Theorem detectSeas_restarts_on_visited_cells :
  detectSeas 2 2 all_water_2x2
    = Some ([mkSea 1 [1; 2; 3; 0]; mkSea 2 []; mkSea 3 []; mkSea 4 []],
            all_water_2x2)
  /\ sea_seeds 2 2 all_water_2x2 = Some [0; 1; 2; 3].
Proof. split; vm_compute; reflexivity. Qed.

(** A 3 x 5 grid (3 wide, 5 high) of land with a two-cell lake at the
    interior cells 4 = (1,1) and 7 = (1,2). *)
Definition lake_3x5 : grid :=
  [LAND; LAND;  LAND;
   LAND; WATER; LAND;
   LAND; WATER; LAND;
   LAND; LAND;  LAND;
   LAND; LAND;  LAND].

(** [x] and [y] are the coordinates of a border cell. *)
Definition on_border (width height x y : Z) : bool :=
  (x =? 0) || (y =? 0) || (x =? width - 1) || (y =? height - 1).

Definition cell_on_border (width height i : Z) : bool :=
  on_border width height (Z.rem i width) (Z.quot i width).

(** C5, on grids that are not square: with [width = 3] and [height = 5]
    the loops run [y < 3] and [x < 5], and the cells 4 and 7, which are not
    on the border, start the fills; with [width = 2] and [height = 1] the
    border cell 1, which is water, is never looked at, no fill starts, and
    the cell is turned into land. *)
Theorem detectSeas_seeds_off_border :
  sea_seeds 3 5 lake_3x5 = Some [4; 7]
  /\ cell_on_border 3 5 4 = false
  /\ cell_on_border 3 5 7 = false
  /\ sea_seeds 2 1 [LAND; WATER] = Some []
  /\ cell_on_border 2 1 1 = true
  /\ detectSeas 2 1 [LAND; WATER] = Some ([], [LAND; LAND]).
Proof. repeat split; vm_compute; reflexivity. Qed.

(** C6, at the 3 x 5 lake: every cell other than 4 and 7 is land, so no
    water cell is on the border and the lake cannot be reached from it; yet
    both lake cells are collected into the first sea and stay water. *)
Theorem detectSeas_keeps_enclosed_lake :
  (forall i, 0 <= i < 15 -> i <> 4 -> i <> 7 ->
             Arr.get i lake_3x5 = Some LAND)
  /\ Arr.get 4 lake_3x5 = Some WATER
  /\ Arr.get 7 lake_3x5 = Some WATER
  /\ detectSeas 3 5 lake_3x5 = Some ([mkSea 1 [7; 4]; mkSea 2 []], lake_3x5).
Proof.
  repeat split; try (vm_compute; reflexivity).
  intros i Hi H4 H7.
  assert (Hc : i = 0 \/ i = 1 \/ i = 2 \/ i = 3 \/ i = 5 \/ i = 6 \/ i = 8
               \/ i = 9 \/ i = 10 \/ i = 11 \/ i = 12 \/ i = 13 \/ i = 14) by lia.
  repeat (destruct Hc as [-> | Hc]; [reflexivity|]). subst i. reflexivity.
Qed.

End SeaFacts.

(* ================================================================== *)
(** * The region partition *)
(* ================================================================== *)

Module PartitionFacts.

Import Terrain.

(** A 3 x 3 grid of water around one land cell, the cell 4. *)
Definition islet_3x3 : grid :=
  [WATER; WATER; WATER;
   WATER; LAND;  WATER;
   WATER; WATER; WATER].

Definition all_tiles (ss : list SeaProfile) (ls : list LandProfile) : list Z :=
  concat (map sea_tiles ss) ++ concat (map land_tiles ls).

(** C3, at the islet: sea detection returns one sea holding the eight
    water cells, land detection returns one land whose tile set is empty,
    and the land cell 4 is in no tile set; the regions do not cover the
    grid.  Nothing is filtered here: these are all the regions found. *)
Theorem regions_miss_single_cell_land :
  exists ss g ls,
    detectSeas 3 3 islet_3x3 = Some (ss, g)
    /\ detectLands 3 3 g = Some ls
    /\ g = islet_3x3
    /\ ls = [mkLand 0 [] []]
    /\ ~ In 4 (all_tiles ss ls).
Proof.
  eexists _, _, _. split; [vm_compute; reflexivity|].
  split; [vm_compute; reflexivity|].
  split; [reflexivity|]. split; [reflexivity|].
  cbn. intuition lia.
Qed.

End PartitionFacts.

(* ================================================================== *)
(** * Properties of the orchestrator *)
(* ================================================================== *)

Module OrchestratorFacts.

Import Num Terrain.

(** The land fraction of a grid passes the two tests of [generateUnsafe]:
    it is neither below [minPercentLand] nor above [maxPercentLand]. *)
Definition land_fraction_within (p : WorldGenerationParams) (g : grid) : Prop :=
  lt (calculateLandPercent g) (minPercentLand p) = false
  /\ gt (calculateLandPercent g) (maxPercentLand p) = false.

Lemma generate_loop_success (k : nat) :
  forall i rng s p log w log',
    generate_loop k i rng s p log = (Success w, log') ->
    exists s', generateUnsafe (with_seed s' p) = Generated w.
Proof.
  induction k as [|k IH]; intros i rng s p log w log' H; cbn [generate_loop] in H.
  - discriminate.
  - destruct (generateUnsafe (with_seed s p)) as [w0|why| |] eqn:E.
    + inversion H; subst. eauto.
    + destruct (PRNG.int rng) as [s2 rng2]. eapply IH; eassumption.
    + discriminate.
    + discriminate.
Qed.

Lemma pipeline_generated (p : WorldGenerationParams) (hm mm : list number) (w : World) :
  pipeline p hm mm = Generated w ->
  heights w = hm
  /\ exists t, createFromHeightMap (width p) (height p) hm (seaLevel p) = Some t
               /\ land_fraction_within p t.
Proof.
  unfold pipeline, land_fraction_within. intros H.
  destruct (createFromHeightMap _ _ _ _) as [t|]; [|discriminate].
  destruct (lt (calculateLandPercent t) (minPercentLand p)) eqn:E1; [discriminate|].
  destruct (gt (calculateLandPercent t) (maxPercentLand p)) eqn:E2; [discriminate|].
  destruct (detectSeas _ _ _) as [[ss g]|]; [|discriminate].
  destruct (lt _ (minSeas p)); [discriminate|].
  destruct (gt _ (maxSeas p)); [discriminate|].
  destruct (detectLands _ _ _) as [ls|]; [|discriminate].
  destruct (lt _ (minLands p)); [discriminate|].
  destruct (gt _ (maxLands p)); [discriminate|].
  inversion H; subst; cbn. split; [reflexivity|]. exists t. auto.
Qed.

Lemma generateUnsafe_generated (p : WorldGenerationParams) (w : World) :
  generateUnsafe p = Generated w ->
  exists t, createFromHeightMap (width p) (height p) (heights w) (seaLevel p) = Some t
            /\ land_fraction_within p t.
Proof.
  unfold generateUnsafe. intros H.
  destruct (PRNG.int (PRNG.create (seed p))) as [s1 rng1].
  destruct (Noise.diamondSquare _ _ _ _ s1 _) as [hm|]; [|discriminate].
  destruct (PRNG.int rng1) as [s2 rng2].
  destruct (Noise.diamondSquare _ _ _ _ s2 _) as [mm|]; [|discriminate].
  apply pipeline_generated in H. destruct H as [-> H]. exact H.
Qed.

(** A 1 x 1 world whose sea level no height exceeds, asking for at most
    half of the cells to be land. *)
Definition one_cell_params : WorldGenerationParams :=
  {| seed := 1; width := 1; height := 1; seaLevel := one;
     noiseRoughess := div (of_Z 9) (of_Z 10);
     maxSmoothingIterations := 100;
     minLands := zero; maxLands := infinity;
     minSeas := zero; maxSeas := infinity;
     minPercentLand := zero; maxPercentLand := div (of_Z 1) (of_Z 2);
     minLandSize := zero; maxLandSize := infinity;
     minSeaSize := zero; maxSeaSize := infinity;
     maxRetries := 1 |}.

(** C2 as stated fails: for the 1 x 1 world above [generate] succeeds on
    its first attempt; the classified grid is all water (fraction 0, which
    passes the test), sea detection then turns the cell into land, and the
    grid returned is all land, above [maxPercentLand = 0.5]. *)
Lemma land_fraction_of_result_unchecked :
  exists w,
    generate one_cell_params = Success w
    /\ types w = [LAND]
    /\ ~ land_fraction_within one_cell_params (types w).
Proof.
  eexists. split; [vm_compute; reflexivity|]. split; [reflexivity|].
  intros [_ H]. vm_compute in H. discriminate.
Qed.

(** C2, amended: whenever [generate] returns a world, the grid obtained by
    classifying the returned height field against the sea level, that is
    the grid as it was before smoothing and sea detection, has a land
    fraction that is neither below [minPercentLand] nor above
    [maxPercentLand]. *)
Theorem generate_validates_classified_grid (p : WorldGenerationParams) (w : World) :
  generate p = Success w ->
  exists t, createFromHeightMap (width p) (height p) (heights w) (seaLevel p) = Some t
            /\ land_fraction_within p t.
Proof.
  unfold generate, generate_logged. intros H.
  destruct (generate_loop _ _ _ _ _ _) as [o log] eqn:E. cbn in H. subst o.
  apply generate_loop_success in E. destruct E as [s' E].
  apply generateUnsafe_generated in E. exact E.
Qed.

Definition one_cell_world : World :=
  {| w_width := 1; w_height := 1;
     heights := [S754_finite false 5812317501521920 (-53)];
     moisture := [S754_finite false 8462758999752704 (-55)];
     types := [LAND];
     seas := [mkSea 1 []];
     lands := [mkLand 0 [] []] |}.

Lemma generate_validates_classified_grid_witness :
  generate one_cell_params = Success one_cell_world
  /\ exists t, createFromHeightMap 1 1 (heights one_cell_world) one = Some t
               /\ land_fraction_within one_cell_params t.
Proof.
  split; [vm_compute; reflexivity|].
  apply (generate_validates_classified_grid one_cell_params one_cell_world).
  vm_compute; reflexivity.
Defined.

(* ------------------------------------------------------------------ *)
(** ** Exhaustion *)

(** The attempt run with seed [s] ends in a [TerrainGenerationError]. *)
Definition rejected (p : WorldGenerationParams) (s : Z) : Prop :=
  exists why, generateUnsafe (with_seed s p) = Rejected why.

(** The seeds of the second and third attempts: the first two integers
    [PRNG.int(rng)] draws from the stream created from the seed passed in. *)
Definition second_seed (p : WorldGenerationParams) : Z :=
  fst (PRNG.int (PRNG.create (seed p))).

Definition third_seed (p : WorldGenerationParams) : Z :=
  fst (PRNG.int (snd (PRNG.int (PRNG.create (seed p))))).

(** The log of three attempts. *)
Definition three_attempts (p : WorldGenerationParams) : list (Z * Z) :=
  [(0, seed p); (1, second_seed p); (2, third_seed p)].

(** C8: when [maxRetries] is 3, [generate] throws the error reporting 3
    tries exactly when the pipeline, run on the seed passed in, then on the
    first and then on the second integer drawn from the stream, ends each
    time in a [TerrainGenerationError]; it has then made exactly these three
    attempts, numbered 0, 1 and 2, and it returns no world.  So for
    constraints that no attempt can satisfy the pipeline is run three
    times, and an attempt that succeeds is never passed over. *)
Theorem generate_exhausts_after_three_attempts (p : WorldGenerationParams) :
  maxRetries p = 3 ->
  ((rejected p (seed p) /\ rejected p (second_seed p) /\ rejected p (third_seed p))
   <-> generate p = Exhausted 3)
  /\ (generate p = Exhausted 3
      -> generate_logged p = (Exhausted 3, three_attempts p)
         /\ forall w, generate p <> Success w).
Proof.
  intros H3.
  assert (Hrun :
            (rejected p (seed p) /\ rejected p (second_seed p)
             /\ rejected p (third_seed p)
             /\ generate_logged p = (Exhausted 3, three_attempts p))
            \/ (~ (rejected p (seed p) /\ rejected p (second_seed p)
                   /\ rejected p (third_seed p))
                /\ generate p <> Exhausted 3)).
  { unfold generate, generate_logged, rejected, three_attempts, second_seed,
      third_seed.
    rewrite H3. change (Z.to_nat 3) with 3%nat. cbn [generate_loop app].
    destruct (generateUnsafe (with_seed (seed p) p)) as [w0|why0| |] eqn:E0;
      try (right; split; [intros [[why H] _]; discriminate | cbn; discriminate]).
    destruct (PRNG.int (PRNG.create (seed p))) as [s1 rng1]. cbn [fst snd].
    destruct (generateUnsafe (with_seed s1 p)) as [w1|why1| |] eqn:E1;
      try (right; split; [intros [_ [[why H] _]]; discriminate | cbn; discriminate]).
    destruct (PRNG.int rng1) as [s2 rng2]. cbn [fst snd].
    destruct (generateUnsafe (with_seed s2 p)) as [w2|why2| |] eqn:E2;
      try (right; split; [intros [_ [_ [why H]]]; discriminate | cbn; discriminate]).
    destruct (PRNG.int rng2) as [s3 rng3]. cbn [fst snd].
    left. rewrite H3. repeat split; eauto. }
  destruct Hrun as [(R0 & R1 & R2 & E) | [Hn Hne]].
  - assert (Hg : generate p = Exhausted 3) by (unfold generate; rewrite E; reflexivity).
    split; [tauto|]. intros _. split; [exact E|].
    intros w Hw. rewrite Hg in Hw. discriminate.
  - split; [tauto|]. intros Hg. contradiction.
Qed.

(** A 6 x 4 world that must hold a billion lands. *)
Definition billion_lands_params : WorldGenerationParams :=
  {| seed := 42; width := 6; height := 4; seaLevel := div (of_Z 1) (of_Z 2);
     noiseRoughess := div (of_Z 9) (of_Z 10);
     maxSmoothingIterations := 100;
     minLands := of_Z (10 ^ 9); maxLands := infinity;
     minSeas := zero; maxSeas := infinity;
     minPercentLand := zero; maxPercentLand := one;
     minLandSize := zero; maxLandSize := infinity;
     minSeaSize := zero; maxSeaSize := infinity;
     maxRetries := 3 |}.

Lemma generate_exhausts_after_three_attempts_witness :
  generate billion_lands_params = Exhausted 3
  /\ generate_logged billion_lands_params
     = (Exhausted 3, [(0, 42); (1, 2960729836229); (2, 4725060552304043)])
  /\ forall w, generate billion_lands_params <> Success w.
Proof.
  pose proof (generate_exhausts_after_three_attempts billion_lands_params eq_refl)
    as [Hiff Hlog].
  assert (Hg : generate billion_lands_params = Exhausted 3).
  { apply Hiff. repeat split; exists TooFewLands; vm_compute; reflexivity. }
  split; [exact Hg|]. exact (Hlog Hg).
Defined.

End OrchestratorFacts.

(* ================================================================== *)
(** * Typed arrays and loop ranges: basic facts *)
(* ================================================================== *)

Module ArrFacts.

Import Arr.

Lemma in_range (n k : Z) : In k (range n) <-> 0 <= k < n.
Proof.
  unfold range. rewrite in_map_iff. split.
  - intros (i & <- & Hi). apply in_seq in Hi. lia.
  - intros H. exists (Z.to_nat k). split; [lia|]. apply in_seq. lia.
Qed.

Lemma range_length (n : Z) : length (range n) = Z.to_nat n.
Proof. unfold range. rewrite length_map, length_seq. reflexivity. Qed.

Lemma range_succ (n : Z) : 0 <= n -> range (n + 1) = range n ++ [n].
Proof.
  intros H. unfold range.
  replace (Z.to_nat (n + 1)) with (Z.to_nat n + 1)%nat by lia.
  rewrite seq_app, map_app. cbn. f_equal. f_equal. lia.
Qed.

Lemma range_nonpos (n : Z) : n <= 0 -> range n = [].
Proof. intros H. unfold range. replace (Z.to_nat n) with 0%nat by lia. reflexivity. Qed.

Lemma in_nest (ys xs : list Z) (x y : Z) :
  In (x, y) (nest ys xs) <-> In y ys /\ In x xs.
Proof.
  unfold nest. rewrite in_flat_map. split.
  - intros (y' & Hy & Hin). apply in_map_iff in Hin.
    destruct Hin as (x' & E & Hx). inversion E; subst. auto.
  - intros [Hy Hx]. exists y. split; [assumption|].
    apply in_map_iff. exists x. auto.
Qed.

Lemma nest_app (ys1 ys2 xs : list Z) :
  nest (ys1 ++ ys2) xs = nest ys1 xs ++ nest ys2 xs.
Proof. unfold nest. apply flat_map_app. Qed.

Lemma upd_nat_length {A} (n : nat) (v : A) (l : list A) :
  length (upd_nat n v l) = length l.
Proof.
  revert n. induction l as [|a t IH]; intros [|n]; cbn; auto.
Qed.

Lemma upd_length {A} (i : Z) (v : A) (l : list A) : length (upd i v l) = length l.
Proof. unfold upd. destruct (i <? 0); [reflexivity | apply upd_nat_length]. Qed.

Lemma get_some_bound {A} (i : Z) (l : list A) (v : A) :
  get i l = Some v -> 0 <= i < Z.of_nat (length l).
Proof.
  unfold get. destruct (i <? 0) eqn:E; [discriminate|]. intros H.
  assert (nth_error l (Z.to_nat i) <> None) as Hn by congruence.
  apply nth_error_Some in Hn. lia.
Qed.

Lemma get_in_bound {A} (i : Z) (l : list A) :
  0 <= i < Z.of_nat (length l) -> exists v, get i l = Some v.
Proof.
  intros H. unfold get. destruct (i <? 0) eqn:E; [lia|].
  destruct (nth_error l (Z.to_nat i)) as [v|] eqn:En; [eauto|].
  apply nth_error_None in En. lia.
Qed.

Lemma get_none_bound {A} (i : Z) (l : list A) :
  get i l = None -> i < 0 \/ Z.of_nat (length l) <= i.
Proof.
  unfold get. destruct (i <? 0) eqn:E; [lia|]. intros H.
  apply nth_error_None in H. lia.
Qed.

Lemma nth_error_upd_nat_same {A} (n : nat) (v : A) (l : list A) :
  (n < length l)%nat -> nth_error (upd_nat n v l) n = Some v.
Proof.
  revert n. induction l as [|a t IH]; intros [|n] H; cbn in *; try lia; auto.
  apply IH. lia.
Qed.

Lemma nth_error_upd_nat_other {A} (n m : nat) (v : A) (l : list A) :
  n <> m -> nth_error (upd_nat n v l) m = nth_error l m.
Proof.
  revert n m. induction l as [|a t IH]; intros [|n] [|m] H; cbn; auto; try lia.
Qed.

Lemma get_upd_same {A} (i : Z) (v : A) (l : list A) :
  0 <= i < Z.of_nat (length l) -> get i (upd i v l) = Some v.
Proof.
  intros H. unfold get, upd. destruct (i <? 0) eqn:E; [lia|].
  apply nth_error_upd_nat_same. lia.
Qed.

Lemma get_upd_other {A} (i j : Z) (v : A) (l : list A) :
  i <> j -> get j (upd i v l) = get j l.
Proof.
  intros H. unfold get, upd. destruct (j <? 0) eqn:Ej; [reflexivity|].
  destruct (i <? 0) eqn:Ei; [reflexivity|].
  apply nth_error_upd_nat_other. lia.
Qed.

Lemma upd_nat_id {A} (n : nat) (v : A) (l : list A) :
  nth_error l n = Some v -> upd_nat n v l = l.
Proof.
  revert n. induction l as [|a t IH]; intros [|n] H; cbn in *; try discriminate.
  - congruence.
  - f_equal. auto.
Qed.

Lemma upd_nat_out {A} (n : nat) (v : A) (l : list A) :
  nth_error l n = None -> upd_nat n v l = l.
Proof.
  revert n. induction l as [|a t IH]; intros [|n] H; cbn in *; try discriminate; auto.
  f_equal. auto.
Qed.

(** Writing what is already there, or writing outside, changes nothing. *)
Lemma upd_id {A} (i : Z) (v : A) (l : list A) : get i l = Some v -> upd i v l = l.
Proof.
  unfold get, upd. destruct (i <? 0); [discriminate|]. apply upd_nat_id.
Qed.

Lemma upd_out {A} (i : Z) (v : A) (l : list A) : get i l = None -> upd i v l = l.
Proof.
  unfold get, upd. destruct (i <? 0); [reflexivity|]. apply upd_nat_out.
Qed.

Lemma alloc_nonneg {A} (z : A) (n : Z) :
  0 <= n -> alloc z n = Some (repeat z (Z.to_nat n)).
Proof. intros H. unfold alloc. destruct (n <? 0) eqn:E; [lia | reflexivity]. Qed.

Lemma alloc_none {A} (z : A) (n : Z) : n < 0 -> alloc z n = None.
Proof. intros H. unfold alloc. destruct (n <? 0) eqn:E; [reflexivity | lia]. Qed.

Lemma get_repeat {A} (z : A) (n : nat) (i : Z) :
  0 <= i < Z.of_nat n -> get i (repeat z n) = Some z.
Proof.
  intros H. unfold get. destruct (i <? 0) eqn:E; [lia|].
  rewrite nth_error_repeat by lia. reflexivity.
Qed.

End ArrFacts.

(* ================================================================== *)
(** * More on the random stream *)
(* ================================================================== *)

Module StreamFacts.

Import PRNG.

(** The stream after [n] calls of [next]. *)
Definition after (n : nat) (rng : RNG) : RNG := Nat.iter n advance rng.

Lemma after_next (n : nat) (rng : RNG) : after (S n) rng = snd (next (after n rng)).
Proof. reflexivity. Qed.

Lemma after_state_ok (n : nat) (rng : RNG) : state_ok rng -> state_ok (after n rng).
Proof.
  intros H. induction n as [|n IH]; [exact H|].
  cbn. apply PRNGFacts.advance_state_ok. exact IH.
Qed.

(** X1: A stream whose state is in [1, 2147483646] keeps it there through any
    number of calls of [next], and each call returns (the rounding of) a
    fraction of [0,1): its numerator is at least 0 and below its
    denominator. *)
Theorem next_keeps_state_in_range (n : nat) (rng : RNG) :
  state_ok rng ->
  state_ok (after n rng)
  /\ state_ok (snd (next (after n rng)))
  /\ (let q := output_fraction (snd (next (after n rng))) in
      0 <= fst q < snd q).
Proof.
  intros H. pose proof (after_state_ok n rng H) as Hn.
  pose proof (PRNGFacts.advance_state_ok _ Hn) as Hs.
  repeat split; try apply Hn; try apply Hs;
    unfold output_fraction; cbn [fst snd]; destruct Hs; unfold next; cbn [snd] in *;
    lia.
Qed.

Lemma next_keeps_state_in_range_witness :
  state_ok (after 5 (create 42))
  /\ state_ok (snd (next (after 5 (create 42))))
  /\ (let q := output_fraction (snd (next (after 5 (create 42)))) in
      0 <= fst q < snd q).
Proof.
  apply (next_keeps_state_in_range 5 (create 42)).
  unfold state_ok; cbn; lia.
Defined.

(** X2: For a seed whose remainder modulo 2147483647 is positive (every seed
    from 1 to 2147483646, for one), [create] keeps the seed, starts the
    state at that remainder, and the state is in [1, 2147483646]. *)
Theorem create_on_positive_remainder (s : Z) :
  0 < Z.rem s 2147483647 ->
  seed (create s) = s
  /\ state (create s) = s mod 2147483647
  /\ state_ok (create s).
Proof.
  intros H. pose proof (PRNGFacts.create_state_ok_positive s H) as Hok.
  assert (Hs : 0 <= s).
  { destruct (Z.lt_ge_cases s 0) as [Hn|]; [|assumption].
    pose proof (Z.rem_nonpos s 2147483647 ltac:(lia) ltac:(lia)). lia. }
  split; [|split; [|exact Hok]]; unfold create; cbn [seed state].
  - destruct (Z.rem s 2147483647 <=? 0) eqn:E; [lia|reflexivity].
  - apply Z.rem_mod_nonneg; lia.
Qed.

Lemma create_on_positive_remainder_witness :
  seed (create 2147483648) = 2147483648
  /\ state (create 2147483648) = 2147483648 mod 2147483647
  /\ state_ok (create 2147483648).
Proof.
  apply (create_on_positive_remainder 2147483648). reflexivity.
Defined.

Lemma advance_nonpos (rng : RNG) :
  -2147483647 < state rng <= 0 -> -2147483647 < state (advance rng) <= 0.
Proof.
  unfold advance; cbn [state]. intros H.
  pose proof (Z.rem_nonpos (state rng * 16807) 2147483647 ltac:(lia) ltac:(lia)).
  pose proof (Z.rem_bound_abs (state rng * 16807) 2147483647 ltac:(lia)). lia.
Qed.

(** X3: A seed whose remainder modulo 2147483647 is not positive (0, a multiple
    of the modulus, any negative seed) gives a stream that never recovers:
    after any number of calls of [next] its state is still at most 0, hence
    outside [1, 2147483646], and the fraction behind each returned number is
    negative. *)
Theorem create_on_nonpositive_remainder (s : Z) (n : nat) :
  Z.rem s 2147483647 <= 0 ->
  state (after n (create s)) <= 0
  /\ ~ state_ok (after n (create s))
  /\ fst (output_fraction (after n (create s))) < 0.
Proof.
  intros H.
  assert (Hn : -2147483647 < state (after n (create s)) <= 0).
  { induction n as [|n IH].
    - cbn. pose proof (Z.rem_bound_abs s 2147483647 ltac:(lia)). lia.
    - cbn [after Nat.iter]. apply advance_nonpos. exact IH. }
  unfold state_ok, output_fraction; cbn [fst]. lia.
Qed.

Lemma create_on_nonpositive_remainder_witness :
  state (after 3 (create (-5))) <= 0
  /\ ~ state_ok (after 3 (create (-5)))
  /\ fst (output_fraction (after 3 (create (-5)))) < 0.
Proof.
  apply (create_on_nonpositive_remainder (-5) 3). cbn. lia.
Defined.

End StreamFacts.

(* ================================================================== *)
(** * More on the height synthesizer *)
(* ================================================================== *)

Module FieldFacts.

Import Num Noise.

Lemma pow2_gt (e : Z) : 0 <= e -> e < 2 ^ e.
Proof. intros H. apply Z.pow_gt_lin_r; lia. Qed.

Lemma find_size_gt (fuel : nat) :
  forall e s m,
    0 <= e -> (fuel = 0%nat -> m < s) -> m <= e + Z.of_nat fuel ->
    m < find_size fuel e s m.
Proof.
  induction fuel as [|f IH]; intros e s m He H0 Hm; cbn [find_size].
  - auto.
  - destruct (s <=? m) eqn:E; [|lia].
    apply IH; [lia| |lia].
    intros ->. pose proof (pow2_gt e He). lia.
Qed.

Lemma find_size_shape (fuel : nat) :
  forall e s m,
    0 <= e ->
    (find_size fuel e s m = s)
    \/ exists k, e <= k /\ find_size fuel e s m = 2 ^ k + 1
                 /\ (k = e -> s <= m) /\ (e < k -> 2 ^ (k - 1) + 1 <= m).
Proof.
  induction fuel as [|f IH]; intros e s m He; cbn [find_size]; [auto|].
  destruct (s <=? m) eqn:E; [|auto]. right.
  destruct (IH (e + 1) (2 ^ e + 1) m ltac:(lia)) as [-> | (k & Hk & -> & H1 & H2)].
  - exists e. repeat split; lia.
  - exists k. repeat split; try lia.
    intros _. destruct (Z.eq_dec k (e + 1)) as [->|Hne].
    + replace (e + 1 - 1) with e by lia. apply H1. reflexivity.
    + apply H2. lia.
Qed.

Lemma working_size_gt (w h : Z) : Z.max w h < working_size w h.
Proof. unfold working_size. apply find_size_gt; [lia|discriminate|lia]. Qed.

(** X4: The side of the working field exceeds both requested dimensions and is
    the first of 1, 3, 5, 9, 17, ... (1, then 2^k + 1) to do so. *)
Theorem working_size_least (w h : Z) :
  Z.max w h < working_size w h
  /\ ((working_size w h = 1 /\ Z.max w h < 1)
      \/ (working_size w h = 3 /\ 1 <= Z.max w h)
      \/ exists k, 2 <= k /\ working_size w h = 2 ^ k + 1
                   /\ 2 ^ (k - 1) + 1 <= Z.max w h).
Proof.
  unfold working_size. set (m := Z.max w h).
  assert (Hgt : m < find_size (S (Z.to_nat m)) 1 1 m).
  { apply find_size_gt; [lia|discriminate|lia]. }
  split; [exact Hgt|].
  destruct (find_size_shape (S (Z.to_nat m)) 1 1 m ltac:(lia))
    as [E | (k & Hk & E & H1 & H2)].
  - left. split; [exact E|]. rewrite E in Hgt. exact Hgt.
  - right. destruct (Z.eq_dec k 1) as [->|Hne].
    + left. split; [rewrite E; reflexivity|]. apply H1. reflexivity.
    + right. exists k. split; [lia|]. split; [exact E|]. apply H2. lia.
Qed.

Lemma wr_length (a : field) (i : Z) (v : number) : length (wr a i v) = length a.
Proof. apply ArrFacts.upd_length. Qed.

Lemma diamond_length (size i : Z) (r : number) (st : field * PRNG.RNG) (xy : Z * Z) :
  length (fst (diamond size i r st xy)) = length (fst st).
Proof.
  destruct st as [a rng], xy as [x y]. unfold diamond.
  destruct (PRNG.float rng (neg r) r). cbn [fst]. apply wr_length.
Qed.

Lemma square_length (size i : Z) (r : number) (st : field * PRNG.RNG) (xy : Z * Z) :
  length (fst (square size i r st xy)) = length (fst st).
Proof.
  destruct st as [a rng], xy as [x y]. unfold square.
  repeat match goal with
         | |- context [let '(_, _) := ?e in _] => destruct e
         end.
  cbn [fst]. rewrite !wr_length. reflexivity.
Qed.

Lemma fold_length {S C} (f : S -> C -> S) (len : S -> nat) (cells : list C) :
  (forall st c, len (f st c) = len st) ->
  forall st, len (fold_left f cells st) = len st.
Proof.
  intros Hf. induction cells as [|c cs IH]; intros st; cbn; [reflexivity|].
  rewrite IH. apply Hf.
Qed.

Lemma rounds_length (fuel : nat) :
  forall size i roughness jitter st,
    length (fst (rounds fuel size i roughness jitter st)) = length (fst st).
Proof.
  induction fuel as [|f IH]; intros size i ro ji st; cbn [rounds]; [reflexivity|].
  destruct (i >? 1); [|reflexivity].
  rewrite IH.
  rewrite (fold_length (square size i _) (fun st => length (fst st)))
    by (intros; apply square_length).
  rewrite (fold_length (diamond size i _) (fun st => length (fst st)))
    by (intros; apply diamond_length).
  reflexivity.
Qed.

Lemma crop_row_length (size w h y : Z) (a s : field) :
  0 <= w < size -> 0 <= y < h -> h < size ->
  length a = Z.to_nat (size * size) -> length s = Z.to_nat (w * h) ->
  length (crop_row size w a s y) = length s.
Proof.
  intros Hw Hy Hh Ha Hs. unfold crop_row, Arr.set_at, Arr.subarray.
  rewrite !length_app, !length_firstn, !length_skipn. nia.
Qed.

Lemma crop_length (size w h : Z) (a : field) :
  w < size -> h < size -> 0 <= w * h ->
  length a = Z.to_nat (size * size) ->
  forall ys s,
    (forall y, In y ys -> 0 <= y < h) ->
    length s = Z.to_nat (w * h) ->
    length (fold_left (crop_row size w a) ys s) = Z.to_nat (w * h).
Proof.
  intros Hw Hh Hwh Ha. induction ys as [|y ys IH]; intros s Hys Hs; cbn; [exact Hs|].
  apply IH; [intros; apply Hys; right; assumption|].
  assert (0 <= y < h) by (apply Hys; left; reflexivity).
  rewrite crop_row_length with (h := h); try assumption. nia.
Qed.

Lemma diamondSquare_shape (w h : Z) (r j : number) (s : Z)
  (corners : option (list number)) :
  (w * h < 0 -> diamondSquare w h r j s corners = None)
  /\ (forall f, diamondSquare w h r j s corners = Some f ->
                0 <= w * h /\ length f = Z.to_nat (w * h))
  /\ ((working_size w h =? w) && (working_size w h =? h) = false).
Proof.
  pose proof (working_size_gt w h) as Hgt.
  assert (Hdead : (working_size w h =? w) && (working_size w h =? h) = false).
  { destruct (working_size w h =? w) eqn:E; [|reflexivity]. lia. }
  assert (Hsz : 0 <= working_size w h * working_size w h) by nia.
  unfold diamondSquare. rewrite Hdead.
  rewrite (ArrFacts.alloc_nonneg zero _ Hsz).
  set (a0 := repeat zero (Z.to_nat (working_size w h * working_size w h))).
  assert (Ha0 : length a0 = Z.to_nat (working_size w h * working_size w h))
    by apply repeat_length.
  set (init := match corners with Some _ => _ | None => _ end).
  assert (Hinit : length (fst init) = length a0).
  { subst init. destruct corners as [cs|].
    - cbn [fst]. rewrite !wr_length. reflexivity.
    - repeat match goal with
             | |- context [let '(_, _) := ?e in _] => destruct e
             end.
      cbn [fst]. rewrite !wr_length. reflexivity. }
  destruct init as [a1 rng1]. cbn [fst] in Hinit.
  pose proof (rounds_length (Z.to_nat (working_size w h)) (working_size w h)
                (working_size w h - 1) r j (a1, rng1)) as Hr.
  destruct (rounds _ _ _ _ _ _) as [a2 rng2]. cbn [fst] in Hr.
  destruct (Z.lt_ge_cases (w * h) 0) as [Hneg|Hpos].
  - rewrite (ArrFacts.alloc_none zero _ Hneg).
    split; [reflexivity|]. split; [discriminate|reflexivity].
  - rewrite (ArrFacts.alloc_nonneg zero _ Hpos).
    split; [lia|]. split; [|reflexivity].
    intros f Hf. inversion Hf; subst f. split; [lia|].
    apply crop_length with (h := h); try lia.
    + unfold clamp_all. rewrite length_map. congruence.
    + intros y Hy. apply ArrFacts.in_range in Hy. exact Hy.
    + apply repeat_length.
Qed.

(** X5: [diamondSquare] throws (a [RangeError]) when [width * height] is
    negative, and a field that it returns has exactly [width * height]
    cells.  As the working side always exceeds both dimensions, the branch
    that would return the working field itself is never taken. *)
Theorem diamondSquare_dimensions (w h : Z) (r j : number) (s : Z)
  (corners : option (list number)) :
  (w * h < 0 -> diamondSquare w h r j s corners = None)
  /\ (forall f, diamondSquare w h r j s corners = Some f ->
                0 <= w * h /\ length f = Z.to_nat (w * h))
  /\ ((working_size w h =? w) && (working_size w h =? h) = false).
Proof.
  exact (diamondSquare_shape w h r j s corners).
Qed.

End FieldFacts.

Module ClampFacts.

Import Num Noise.

Definition ONE : number := S754_finite false 4503599627370496 (-52).

Lemma one_eq : one = ONE.
Proof. vm_compute. reflexivity. Qed.

Lemma compare_one_flip (m : positive) (e : Z) :
  SFcompare (S754_finite false m e) ONE
  = option_map CompOpp (SFcompare ONE (S754_finite false m e)).
Proof.
  unfold ONE. cbn [SFcompare option_map].
  rewrite (Z.compare_antisym e (-52)).
  destruct (e ?= -52); cbn [CompOpp]; try reflexivity.
  rewrite Pos.compare_cont_antisym. reflexivity.
Qed.

Lemma compare_one_defined (m : positive) (e : Z) :
  SFcompare ONE (S754_finite false m e) <> None.
Proof. unfold ONE. cbn [SFcompare]. discriminate. Qed.

Lemma min_one_positive (m : positive) (e : Z) :
  Math_min ONE (S754_finite false m e)
  = match SFcompare ONE (S754_finite false m e) with
    | Some Lt => ONE
    | _ => S754_finite false m e
    end.
Proof.
  unfold Math_min. change (is_nan ONE || is_nan (S754_finite false m e)) with false.
  cbv iota. pose proof (compare_one_defined m e) as Hd.
  destruct (SFcompare ONE (S754_finite false m e)) as [[| |]|];
    try reflexivity. congruence.
Qed.

Lemma max_zero_positive (m : positive) (e : Z) :
  Math_max zero (S754_finite false m e) = S754_finite false m e.
Proof. reflexivity. Qed.

(** X6: [Math.max(0, Math.min(1, v))] is NaN exactly when [v] is NaN; for any
    other [v], the infinities included, it lies in [0,1]. *)
Theorem clamp_unit_or_nan (v : number) :
  is_nan (clamp v) = is_nan v
  /\ (is_nan v = false -> in_unit (clamp v) = true).
Proof.
  unfold clamp. rewrite one_eq.
  destruct v as [s|s| |s m e].
  - destruct s; split; reflexivity.
  - destruct s; split; reflexivity.
  - split; [reflexivity|discriminate].
  - destruct s; [split; reflexivity|].
    rewrite min_one_positive.
    pose proof (compare_one_flip m e) as Hflip.
    pose proof (compare_one_defined m e) as Hd.
    unfold in_unit, le, SFleb. rewrite one_eq.
    destruct (SFcompare ONE (S754_finite false m e)) as [[| |]|];
      cbn [option_map CompOpp] in Hflip.
    + rewrite max_zero_positive, Hflip. split; reflexivity.
    + split; reflexivity.
    + rewrite max_zero_positive, Hflip. split; reflexivity.
    + congruence.
Qed.

Lemma clamp_unit_or_nan_witness :
  is_nan (clamp infinity) = is_nan infinity
  /\ (is_nan infinity = false -> in_unit (clamp infinity) = true).
Proof. apply (clamp_unit_or_nan infinity). Defined.

End ClampFacts.

(* ================================================================== *)
(** * Grid geometry *)
(* ================================================================== *)

Module GridFacts.

Import Terrain.

Lemma valid_iff (w h x y : Z) :
  valid w h x y = true <-> 0 <= x < w /\ 0 <= y < h.
Proof. unfold valid. rewrite !andb_true_iff. lia. Qed.

Lemma valid_false_iff (w h x y : Z) :
  valid w h x y = false <-> ~ (0 <= x < w /\ 0 <= y < h).
Proof.
  rewrite <- valid_iff. destruct (valid w h x y); split; congruence.
Qed.

Lemma index_bound (w h x y : Z) :
  0 <= x < w -> 0 <= y < h -> 0 <= x + y * w < w * h.
Proof. intros Hx Hy. nia. Qed.

Lemma index_inj (w x1 y1 x2 y2 : Z) :
  0 <= x1 < w -> 0 <= x2 < w -> x1 + y1 * w = x2 + y2 * w -> x1 = x2 /\ y1 = y2.
Proof.
  intros H1 H2 E. assert (y1 = y2) by nia. subst. lia.
Qed.

(** [i % width] and [i / width | 0] recover the coordinates of a cell. *)
Lemma decode (w x y : Z) :
  0 <= x < w -> 0 <= y ->
  Z.rem (x + y * w) w = x /\ Z.quot (x + y * w) w = y.
Proof.
  intros Hx Hy.
  assert (0 <= x + y * w) by nia.
  rewrite Z.rem_mod_nonneg, Z.quot_div_nonneg by lia.
  rewrite Z.mod_add, Z.div_add by lia.
  rewrite Z.mod_small, Z.div_small by lia. lia.
Qed.

Lemma cell_of_index (w h k : Z) :
  0 <= k < w * h -> 0 < w ->
  0 <= k mod w < w /\ 0 <= k / w < h /\ k = k mod w + k / w * w.
Proof.
  intros Hk Hw.
  pose proof (Z.mod_pos_bound k w Hw). pose proof (Z.div_mod k w ltac:(lia)).
  assert (0 <= k / w) by (apply Z.div_pos; lia).
  assert (k / w < h) by (apply Z.div_lt_upper_bound; nia).
  lia.
Qed.

Lemma seq_from (a n : nat) : seq a n = map (fun i => (a + i)%nat) (seq 0 n).
Proof.
  revert a. induction n as [|n IH]; intros a; cbn; [reflexivity|].
  f_equal; [lia|]. rewrite (IH (S a)), (IH 1%nat), map_map.
  apply map_ext. intros; lia.
Qed.

(** The cells of a [width * height] grid in the order of
    [for y < height { for x < width }] are the indices [0 .. width*height-1]. *)
Lemma row_major_indices (w : Z) (h : nat) :
  0 <= w ->
  map (fun c => fst c + snd c * w) (Arr.nest (Arr.range (Z.of_nat h)) (Arr.range w))
  = Arr.range (w * Z.of_nat h).
Proof.
  intros Hw. induction h as [|h IH].
  - cbn. rewrite Z.mul_0_r. reflexivity.
  - replace (Z.of_nat (S h)) with (Z.of_nat h + 1) by lia.
    rewrite ArrFacts.range_succ by lia.
    rewrite ArrFacts.nest_app, map_app, IH.
    replace (w * (Z.of_nat h + 1)) with (w * Z.of_nat h + w) by lia.
    unfold Arr.range at 3.
    replace (Z.to_nat (w * Z.of_nat h + w))
      with (Z.to_nat (w * Z.of_nat h) + Z.to_nat w)%nat by lia.
    rewrite seq_app, map_app. f_equal.
    cbn [Arr.nest flat_map]. rewrite app_nil_r, map_map. cbn [fst snd].
    unfold Arr.range. rewrite map_map.
    rewrite (seq_from (Z.to_nat (w * Z.of_nat h))), map_map.
    apply map_ext. intros i. lia.
Qed.

End GridFacts.

(* ================================================================== *)
(** * Classification *)
(* ================================================================== *)

Module ClassifyFacts.

Import Num Terrain.

(** [heightMap[i] > seaLevel], false when the height is missing or NaN. *)
Definition above (heightMap : list number) (seaLevel : number) (i : Z) : bool :=
  match Arr.get i heightMap with
  | Some v => gt v seaLevel
  | None => false
  end.

Definition class_of (heightMap : list number) (seaLevel : number) (i : Z) : Cell :=
  if above heightMap seaLevel i then LAND else WATER.

Lemma upd_nat_middle {A} (l1 : list A) (a v : A) (l2 : list A) :
  Arr.upd_nat (length l1) v (l1 ++ a :: l2) = l1 ++ v :: l2.
Proof. induction l1 as [|b l1 IH]; cbn; [reflexivity|]. f_equal. exact IH. Qed.

Lemma fill_prefix {A} (F : Z -> A) (t : list A) (n : nat) :
  (n <= length t)%nat ->
  fold_left (fun t i => Arr.upd i (F i) t) (Arr.range (Z.of_nat n)) t
  = map F (Arr.range (Z.of_nat n)) ++ skipn n t.
Proof.
  induction n as [|n IH]; intros Hn.
  - reflexivity.
  - replace (Z.of_nat (S n)) with (Z.of_nat n + 1) by lia.
    rewrite ArrFacts.range_succ by lia.
    rewrite fold_left_app, map_app, IH by lia. cbn [fold_left map].
    assert (Hs : exists a rest, skipn n t = a :: rest /\ skipn (S n) t = rest).
    { clear IH. revert t Hn. induction n as [|n IHn]; intros [|b t] Hn; cbn in *;
        try lia; eauto. apply IHn. lia. }
    destruct Hs as (a & rest & -> & ->).
    unfold Arr.upd. destruct (Z.of_nat n <? 0) eqn:E; [lia|].
    rewrite Nat2Z.id.
    replace n with (length (map F (Arr.range (Z.of_nat n)))) at 1
      by (rewrite length_map, ArrFacts.range_length; lia).
    rewrite upd_nat_middle, <- app_assoc. reflexivity.
Qed.

Lemma classify_fold (w : Z) (hm : list number) (level : number) (cells : list (Z * Z)) :
  forall t,
    fold_left (classify_cell w hm level) cells t
    = fold_left (fun t i => Arr.upd i (class_of hm level i) t)
        (map (fun c => fst c + snd c * w) cells) t.
Proof.
  induction cells as [|[x y] cs IH]; intros t; cbn [fold_left map]; [reflexivity|].
  rewrite IH. reflexivity.
Qed.

(** X7: For non-negative dimensions [createFromHeightMap] returns the grid of
    [width * height] cells in which cell [i] is LAND when [heightMap[i]]
    exceeds the sea level and WATER otherwise, a missing or NaN height
    counting as WATER. *)
Theorem createFromHeightMap_cells (w h : Z) (hm : list number) (level : number) :
  0 <= w -> 0 <= h ->
  createFromHeightMap w h hm level
  = Some (map (class_of hm level) (Arr.range (w * h))).
Proof.
  intros Hw Hh. unfold createFromHeightMap.
  rewrite ArrFacts.alloc_nonneg by nia.
  rewrite classify_fold.
  replace h with (Z.of_nat (Z.to_nat h)) at 1 by lia.
  rewrite GridFacts.row_major_indices by lia.
  rewrite Z2Nat.id by lia.
  replace (w * h) with (Z.of_nat (Z.to_nat (w * h))) at 1 3 by nia.
  rewrite fill_prefix by (rewrite repeat_length; lia).
  rewrite skipn_all2 by (rewrite repeat_length; lia).
  rewrite app_nil_r. reflexivity.
Qed.

Lemma createFromHeightMap_cells_witness :
  createFromHeightMap 2 1 [zero; one] (div (of_Z 1) (of_Z 2))
  = Some (map (class_of [zero; one] (div (of_Z 1) (of_Z 2))) (Arr.range (2 * 1))).
Proof. apply (createFromHeightMap_cells 2 1); lia. Defined.

(** A negative [width * height] makes [createFromHeightMap] throw. *)
Lemma createFromHeightMap_negative (w h : Z) (hm : list number) (level : number) :
  w * h < 0 -> createFromHeightMap w h hm level = None.
Proof.
  intros H. unfold createFromHeightMap. rewrite ArrFacts.alloc_none by assumption.
  reflexivity.
Qed.

End ClassifyFacts.

(* ================================================================== *)
(** * Smoothing *)
(* ================================================================== *)

Module SmoothFacts.

Import Terrain.

Definition cells (w h : Z) : list (Z * Z) := Arr.nest (Arr.range h) (Arr.range w).

(** What one round writes for the cell of index [i], read off [current]. *)
Definition round_cell (w h m : Z) (current : grid) (i : Z) : Cell :=
  let value := Arr.get i current in
  if count_same w h current (i mod w) (i / w) value <? m
  then flip value else to_byte value.

(** No cell of [current] is flipped by a round. *)
Definition settled (w h m : Z) (current : grid) : bool :=
  forallb (fun c => negb (count_same w h current (fst c) (snd c)
                            (Arr.get (fst c + snd c * w) current) <? m))
    (cells w h).

(** One synchronous round of the automaton, and [k] rounds that stop after
    the first round without a flip. *)
Definition round (w h m : Z) (g : grid) : grid :=
  map (round_cell w h m g) (Arr.range (w * h)).

Fixpoint rounds_until_settled (k : nat) (w h m : Z) (g : grid) : grid :=
  match k with
  | O => g
  | S k' => if settled w h m g then round w h m g
            else rounds_until_settled k' w h m (round w h m g)
  end.

Lemma smooth_cell_length (w h m : Z) (cur : grid) (st : grid * bool) (c : Z * Z) :
  length (fst (smooth_cell w h m cur st c)) = length (fst st).
Proof.
  destruct st as [next stable], c as [x y]. unfold smooth_cell.
  destruct (_ <? m); cbn [fst]; apply ArrFacts.upd_length.
Qed.

Lemma smooth_loop_length (k : nat) :
  forall w h m cur next,
    length next = length cur ->
    length (smooth_loop k w h m cur next) = length cur.
Proof.
  induction k as [|k IH]; intros w h m cur next Hl; cbn [smooth_loop]; [reflexivity|].
  pose proof (FieldFacts.fold_length (smooth_cell w h m cur)
                (fun st => length (fst st)) (Arr.nest (Arr.range h) (Arr.range w))
                (smooth_cell_length w h m cur) (next, true)) as Hf.
  destruct (fold_left _ _ _) as [next' stable]. cbn [fst] in Hf.
  destruct stable; [congruence|]. rewrite IH; congruence.
Qed.

(** [smooth] leaves the terrain with the length it had, whatever the
    dimensions, threshold and iteration count passed. *)
Theorem smooth_keeps_length (w h : Z) (g : grid) (m it : Z) :
  length (smooth w h g m it) = length g.
Proof. unfold smooth. apply smooth_loop_length. reflexivity. Qed.

Lemma smooth_fold (w h m : Z) (cur : grid) (cs : list (Z * Z)) :
  (forall c, In c cs -> 0 <= fst c < w /\ 0 <= snd c) ->
  forall next stable,
    fold_left (smooth_cell w h m cur) cs (next, stable)
    = (fold_left (fun t i => Arr.upd i (round_cell w h m cur i) t)
         (map (fun c => fst c + snd c * w) cs) next,
       stable && forallb (fun c => negb (count_same w h cur (fst c) (snd c)
                                           (Arr.get (fst c + snd c * w) cur) <? m)) cs).
Proof.
  induction cs as [|[x y] cs IH]; intros Hcs next stable; cbn [fold_left map forallb].
  - rewrite andb_true_r. reflexivity.
  - destruct (Hcs (x, y) (or_introl eq_refl)) as [Hx Hy]. cbn [fst snd] in *.
    assert (Hd : (x + y * w) mod w = x /\ (x + y * w) / w = y).
    { rewrite Z.mod_add, Z.div_add by lia.
      rewrite Z.mod_small, Z.div_small by lia. lia. }
    destruct Hd as [Hm Hq].
    unfold smooth_cell at 2. unfold round_cell at 2. rewrite Hm, Hq.
    destruct (count_same w h cur x y (Arr.get (x + y * w) cur) <? m);
      rewrite IH by (intros; apply Hcs; right; assumption);
      cbn [negb andb]; [rewrite andb_false_r|]; reflexivity.
Qed.

Lemma one_round (w h m : Z) (cur next : grid) :
  0 <= w -> 0 <= h -> length cur = Z.to_nat (w * h) -> length next = length cur ->
  fold_left (smooth_cell w h m cur) (cells w h) (next, true)
  = (round w h m cur, settled w h m cur).
Proof.
  intros Hw Hh Hc Hn. unfold cells. rewrite smooth_fold.
  - replace h with (Z.of_nat (Z.to_nat h)) at 1 by lia.
    rewrite GridFacts.row_major_indices by lia. rewrite Z2Nat.id by lia.
    replace (w * h) with (Z.of_nat (Z.to_nat (w * h))) at 1 by nia.
    rewrite ClassifyFacts.fill_prefix by lia.
    rewrite skipn_all2 by lia. rewrite app_nil_r.
    rewrite Z2Nat.id by nia. reflexivity.
  - intros [x y] Hin. apply ArrFacts.in_nest in Hin. destruct Hin as [Hy Hx].
    apply ArrFacts.in_range in Hy, Hx. cbn. lia.
Qed.

Lemma round_length (w h m : Z) (g : grid) : length (round w h m g) = Z.to_nat (w * h).
Proof. unfold round. rewrite length_map. apply ArrFacts.range_length. Qed.

Lemma smooth_loop_rounds (k : nat) :
  forall w h m cur next,
    0 <= w -> 0 <= h -> length cur = Z.to_nat (w * h) -> length next = length cur ->
    smooth_loop k w h m cur next = rounds_until_settled k w h m cur.
Proof.
  induction k as [|k IH]; intros w h m cur next Hw Hh Hc Hn; cbn [smooth_loop rounds_until_settled];
    [reflexivity|].
  change (Arr.nest (Arr.range h) (Arr.range w)) with (cells w h).
  rewrite one_round by assumption.
  destruct (settled w h m cur); [reflexivity|].
  apply IH; try assumption; rewrite round_length; congruence.
Qed.

(** X8: On a grid of [width * height] cells the double-buffered loop of [smooth]
    computes synchronous rounds of the automaton: in each round every cell
    is decided from the grid as it was before the round (flipped when fewer
    than [minNeighbours] of its eight neighbours, out-of-bounds ones counted
    as alike, have its value), and the rounds stop after the first one that
    flips nothing or after [iterations] rounds. *)
Theorem smooth_is_synchronous (w h : Z) (g : grid) (m it : Z) :
  0 <= w -> 0 <= h -> length g = Z.to_nat (w * h) ->
  smooth w h g m it = rounds_until_settled (Z.to_nat it) w h m g.
Proof.
  intros Hw Hh Hg. unfold smooth. apply smooth_loop_rounds; auto.
Qed.

Lemma smooth_is_synchronous_witness :
  smooth 3 1 [LAND; WATER; LAND] 2 5 = rounds_until_settled (Z.to_nat 5) 3 1 2 [LAND; WATER; LAND].
Proof.
  apply (smooth_is_synchronous 3 1 [LAND; WATER; LAND] 2 5); [lia|lia|reflexivity].
Defined.

End SmoothFacts.

Module SettledFacts.

Import Terrain SmoothFacts.

Lemma map_range_get {A} (F : Z -> A) (l : list A) :
  (forall i, 0 <= i < Z.of_nat (length l) -> Arr.get i l = Some (F i)) ->
  map F (Arr.range (Z.of_nat (length l))) = l.
Proof.
  intros H. apply nth_error_ext. intros n.
  destruct (Nat.lt_ge_cases n (length l)) as [Hn|Hn].
  - unfold Arr.range. rewrite Nat2Z.id, map_map.
    rewrite nth_error_map, nth_error_seq.
    destruct (Nat.ltb_spec n (length l)) as [_|]; [|lia]. cbn.
    specialize (H (Z.of_nat n) ltac:(lia)). unfold Arr.get in H.
    destruct (Z.of_nat n <? 0) eqn:E; [lia|]. rewrite Nat2Z.id in H. congruence.
  - rewrite (proj2 (nth_error_None l n)) by lia.
    apply nth_error_None. rewrite length_map, ArrFacts.range_length. lia.
Qed.

Lemma count_same_nonneg (w h : Z) (g : grid) (x y : Z) (v : option Cell) :
  0 <= count_same w h g x y v.
Proof.
  unfold count_same.
  assert (H : forall ds a, 0 <= a ->
            0 <= fold_left
              (fun neighbours d =>
                 let '(dx, dy) := d in
                 if (dx =? 0) && (dy =? 0) then neighbours
                 else
                   let nx := x + dx in
                   let ny := y + dy in
                   let sample := if valid w h nx ny
                                 then Arr.get (nx + ny * w) g else v in
                   if same sample v then neighbours + 1 else neighbours) ds a).
  { induction ds as [|[dx dy] ds IH]; intros a Ha; cbn [fold_left]; [exact Ha|].
    apply IH. destruct ((dx =? 0) && (dy =? 0)); [exact Ha|].
    cbv zeta. destruct (same _ v); lia. }
  apply H. lia.
Qed.

Lemma settled_round (w h m : Z) (g : grid) :
  0 <= w -> 0 <= h -> length g = Z.to_nat (w * h) ->
  settled w h m g = true -> round w h m g = g.
Proof.
  intros Hw Hh Hg Hs. unfold round.
  replace (w * h) with (Z.of_nat (length g)) by nia.
  apply map_range_get. intros i Hi.
  assert (Hwh : 0 <= i < w * h) by nia.
  assert (Hwpos : 0 < w) by nia.
  destruct (GridFacts.cell_of_index w h i Hwh Hwpos) as (Hx & Hy & Ei).
  unfold settled in Hs. rewrite forallb_forall in Hs.
  specialize (Hs (i mod w, i / w)). cbn [fst snd] in Hs. rewrite <- Ei in Hs.
  assert (Hin : In (i mod w, i / w) (cells w h)).
  { apply ArrFacts.in_nest. split; apply ArrFacts.in_range; lia. }
  specialize (Hs Hin). apply negb_true_iff in Hs.
  unfold round_cell. rewrite Hs.
  destruct (ArrFacts.get_in_bound i g Hi) as [c ->]. reflexivity.
Qed.

(** X9: A grid of [width * height] cells in which every cell already has at
    least [minNeighbours] alike neighbours is returned unchanged by [smooth],
    for any iteration count. *)
Theorem smooth_fixes_settled_grid (w h : Z) (g : grid) (m it : Z) :
  0 <= w -> 0 <= h -> length g = Z.to_nat (w * h) ->
  settled w h m g = true ->
  smooth w h g m it = g.
Proof.
  intros Hw Hh Hg Hs. unfold smooth. rewrite smooth_loop_rounds by auto.
  destruct (Z.to_nat it) as [|k]; cbn [rounds_until_settled]; [reflexivity|].
  rewrite Hs. apply settled_round; assumption.
Qed.

Lemma smooth_fixes_settled_grid_witness :
  smooth 2 2 [LAND; LAND; WATER; WATER] 4 100 = [LAND; LAND; WATER; WATER].
Proof.
  apply (smooth_fixes_settled_grid 2 2 [LAND; LAND; WATER; WATER] 4 100);
    [lia|lia|reflexivity|reflexivity].
Defined.

(** X10: With a threshold of 0 or less no cell is ever flipped: [smooth] returns
    the grid it was given. *)
Theorem smooth_with_no_threshold (w h : Z) (g : grid) (m it : Z) :
  0 <= w -> 0 <= h -> length g = Z.to_nat (w * h) -> m <= 0 ->
  smooth w h g m it = g.
Proof.
  intros Hw Hh Hg Hm. unfold smooth. rewrite smooth_loop_rounds by auto.
  assert (Hs : settled w h m g = true).
  { unfold settled. apply forallb_forall. intros [x y] _. cbn [fst snd].
    apply negb_true_iff. apply Z.ltb_ge.
    pose proof (count_same_nonneg w h g x y (Arr.get (x + y * w) g)). lia. }
  destruct (Z.to_nat it) as [|k]; cbn [rounds_until_settled]; [reflexivity|].
  rewrite Hs. apply settled_round; assumption.
Qed.

Lemma smooth_with_no_threshold_witness :
  smooth 2 1 [LAND; WATER] 0 3 = [LAND; WATER].
Proof.
  apply (smooth_with_no_threshold 2 1 [LAND; WATER] 0 3); [lia|lia|reflexivity|lia].
Defined.

End SettledFacts.

(* ================================================================== *)
(** * Flood fills: marks, fuel and invariants *)
(* ================================================================== *)

Module FloodFacts.

Import Terrain.

(** Cell [n] carries a mark in the array [o] ([ocean] or [seen]). *)
Definition marked (o : list bool) (n : Z) : Prop := Arr.get n o = Some true.

Definition unmarked_count (o : list bool) : nat := length (filter negb o).

Lemma unmarked_count_le (o : list bool) : (unmarked_count o <= length o)%nat.
Proof. unfold unmarked_count. apply filter_length_le. Qed.

Lemma unmarked_upd_nat (o : list bool) :
  forall k, nth_error o k = Some false ->
            S (unmarked_count (Arr.upd_nat k true o)) = unmarked_count o.
Proof.
  unfold unmarked_count.
  induction o as [|b o IH]; intros [|k] H; cbn in *; try discriminate.
  - inversion H; subst. reflexivity.
  - destruct b; cbn; rewrite <- (IH k H); reflexivity.
Qed.

Lemma unmarked_upd (o : list bool) (n : Z) :
  Arr.get n o = Some false ->
  S (unmarked_count (Arr.upd n true o)) = unmarked_count o.
Proof.
  unfold Arr.get, Arr.upd. destruct (n <? 0); [discriminate|].
  apply unmarked_upd_nat.
Qed.

Lemma marked_upd (o : list bool) (n k : Z) :
  marked o k -> marked (Arr.upd n true o) k.
Proof.
  unfold marked. intros H. destruct (Z.eq_dec n k) as [->|Hne].
  - apply ArrFacts.get_upd_same. eapply ArrFacts.get_some_bound; eassumption.
  - rewrite ArrFacts.get_upd_other by assumption. exact H.
Qed.

Lemma marked_upd_inv (o : list bool) (n k : Z) :
  marked (Arr.upd n true o) k -> k = n \/ marked o k.
Proof.
  unfold marked. intros H. destruct (Z.eq_dec n k) as [->|Hne]; [auto|].
  rewrite ArrFacts.get_upd_other in H by assumption. auto.
Qed.

Lemma fold_invariant {S C} (f : S -> C -> S) (Q : S -> Prop) (cs : list C) :
  (forall st c, In c cs -> Q st -> Q (f st c)) ->
  forall st, Q st -> Q (fold_left f cs st).
Proof.
  induction cs as [|c cs IH]; intros Hf st Hst; cbn; [exact Hst|].
  apply IH.
  - intros st' c' Hin. apply Hf. right; exact Hin.
  - apply Hf; [left; reflexivity | exact Hst].
Qed.

Lemma set_add_fresh (n : Z) (s : list Z) : ~ In n s -> set_add n s = s ++ [n].
Proof.
  intros H. unfold set_add. destruct (existsb (Z.eqb n) s) eqn:E; [|reflexivity].
  apply existsb_exists in E. destruct E as (k & Hk & Ek).
  apply Z.eqb_eq in Ek. subst. contradiction.
Qed.

Lemma in_deltas (dx dy : Z) :
  In (dx, dy) DELTAS <-> -1 <= dx <= 1 /\ -1 <= dy <= 1.
Proof.
  unfold DELTAS. rewrite ArrFacts.in_nest. cbn. lia.
Qed.

(** [n] is a neighbour, inside the grid, of a cell of the given kind. *)
Definition beside (w h : Z) (kind : Z -> bool) (n : Z) : Prop :=
  exists i dx dy,
    kind i = true
    /\ In (dx, dy) DELTAS /\ (dx =? 0) && (dy =? 0) = false
    /\ valid w h (Z.rem i w + dx) (Z.quot i w + dy) = true
    /\ n = (Z.rem i w + dx) + (Z.quot i w + dy) * w.

End FloodFacts.

(* ================================================================== *)
(** * Sea detection: the fill *)
(* ================================================================== *)

Module SeaFillFacts.

Import Terrain FloodFacts.

Section Fill.

Variables (w h : Z) (g : grid).

Definition water (i : Z) : bool := is_cell g i WATER.

Lemma sea_visit_cases (x y : Z) (o : list bool) (s t : list Z) (d : Z * Z) :
  sea_visit w h g x y (o, s, t) d = (o, s, t)
  \/ exists dx dy,
       d = (dx, dy) /\ (dx =? 0) && (dy =? 0) = false
       /\ valid w h (x + dx) (y + dy) = true
       /\ water ((x + dx) + (y + dy) * w) = true
       /\ Arr.get ((x + dx) + (y + dy) * w) o = Some false
       /\ sea_visit w h g x y (o, s, t) d
          = (Arr.upd ((x + dx) + (y + dy) * w) true o,
             ((x + dx) + (y + dy) * w) :: s,
             set_add ((x + dx) + (y + dy) * w) t).
Proof.
  destruct d as [dx dy]. unfold sea_visit, water.
  destruct ((dx =? 0) && (dy =? 0)) eqn:E0; [auto|].
  destruct (valid w h (x + dx) (y + dy)) eqn:Ev; [|auto].
  destruct (is_cell g (x + dx + (y + dy) * w) WATER) eqn:Ew; [|auto].
  destruct (Arr.get (x + dx + (y + dy) * w) o) as [[|]|] eqn:Eo; cbn [andb]; auto.
  right. exists dx, dy. repeat split; auto.
Qed.

Definition potential (st : fill_state) : nat :=
  let '(o, s, _) := st in (unmarked_count o + length s)%nat.

Lemma sea_visit_potential (x y : Z) (st : fill_state) (d : Z * Z) :
  potential (sea_visit w h g x y st d) = potential st.
Proof.
  destruct st as [[o s] t].
  destruct (sea_visit_cases x y o s t d) as [-> | (dx & dy & _ & _ & _ & _ & Ho & ->)];
    [reflexivity|].
  cbn [potential length]. rewrite <- (unmarked_upd o _ Ho). lia.
Qed.

Lemma sea_flood_returns (fuel : nat) :
  forall st, (potential st <= fuel)%nat ->
             exists st', sea_flood fuel w h g st = Some st'.
Proof.
  induction fuel as [|f IH]; intros [[o s] t] Hp; cbn [sea_flood].
  - destruct s as [|i s]; [eauto|]. cbn [potential length] in Hp. lia.
  - destruct s as [|i s]; [eauto|]. apply IH.
    rewrite (FieldFacts.fold_length _ potential)
      by (intros; apply sea_visit_potential).
    cbn [potential length] in Hp |- *. lia.
Qed.

(** The invariant of a fill started on the mark array [o0]. *)
Definition fill_inv (o0 : list bool) (st : fill_state) : Prop :=
  let '(o, s, t) := st in
  length o = length o0
  /\ (forall n, marked o0 n -> marked o n)
  /\ (forall n, marked o n -> marked o0 n \/ In n t)
  /\ (forall n, In n t ->
        marked o n /\ ~ marked o0 n /\ water n = true /\ beside w h water n)
  /\ NoDup t
  /\ (forall i, In i s -> water i = true).

Lemma visit_inv (o0 : list bool) (i : Z) (st : fill_state) (d : Z * Z) :
  water i = true -> In d DELTAS ->
  fill_inv o0 st -> fill_inv o0 (sea_visit w h g (Z.rem i w) (Z.quot i w) st d).
Proof.
  intros Hi Hd. destruct st as [[o s] t]. intros (Hl & Hmono & Hsrc & Ht & Hnd & Hs).
  destruct (sea_visit_cases (Z.rem i w) (Z.quot i w) o s t d)
    as [-> | (dx & dy & -> & E0 & Ev & Ew & Eo & ->)].
  - exact (conj Hl (conj Hmono (conj Hsrc (conj Ht (conj Hnd Hs))))).
  - set (n := Z.rem i w + dx + (Z.quot i w + dy) * w) in *.
    assert (Hfresh : ~ In n t).
    { intros Hin. destruct (Ht n Hin) as [Hm _]. unfold marked in Hm. congruence. }
    rewrite (set_add_fresh n t Hfresh).
    split; [rewrite ArrFacts.upd_length; exact Hl|].
    split; [intros k Hk; apply marked_upd; auto|].
    split.
    { intros k Hk. apply marked_upd_inv in Hk. destruct Hk as [->|Hk].
      - right. apply in_or_app. right. left. reflexivity.
      - destruct (Hsrc k Hk); [auto|]. right. apply in_or_app. auto. }
    split.
    { intros k Hk. apply in_app_or in Hk. destruct Hk as [Hk|[<-|[]]].
      - destruct (Ht k Hk) as (H1 & H2 & H3 & H4).
        repeat split; auto. apply marked_upd; exact H1.
      - split.
        { unfold marked. apply ArrFacts.get_upd_same.
          eapply ArrFacts.get_some_bound; eassumption. }
        split.
        { intros Hm0. apply Hmono in Hm0. unfold marked in Hm0. congruence. }
        split; [exact Ew|].
        exists i, dx, dy. repeat split; auto. }
    split.
    { apply NoDup_app; [exact Hnd | repeat constructor; intros [] | ].
      intros k Hk [<-|[]]. contradiction. }
    intros k [<-|Hk]; [exact Ew | auto].
Qed.

Lemma sea_flood_inv (o0 : list bool) (fuel : nat) :
  forall st st',
    fill_inv o0 st -> sea_flood fuel w h g st = Some st' ->
    fill_inv o0 st' /\ snd (fst st') = [].
Proof.
  induction fuel as [|f IH]; intros [[o s] t] st' Hinv H; cbn [sea_flood] in H.
  - destruct s as [|i s]; [|discriminate]. inversion H; subst. auto.
  - destruct s as [|i s]; [inversion H; subst; auto|].
    apply IH in H; [exact H|].
    destruct Hinv as (Hl & Hmono & Hsrc & Ht & Hnd & Hs).
    apply fold_invariant.
    + intros st d Hd. apply visit_inv; [|exact Hd]. apply Hs. left; reflexivity.
    + refine (conj Hl (conj Hmono (conj Hsrc (conj Ht (conj Hnd _))))).
      intros k Hk. apply Hs. right; exact Hk.
Qed.

End Fill.

End SeaFillFacts.

(* ================================================================== *)
(** * Sea detection: the scan *)
(* ================================================================== *)

Module SeaScanFacts.

Import Terrain FloodFacts SeaFillFacts.

Definition all_sea_tiles (ss : list SeaProfile) : list Z := concat (map sea_tiles ss).

Lemma all_sea_tiles_app (ss : list SeaProfile) (s : SeaProfile) :
  all_sea_tiles (ss ++ [s]) = all_sea_tiles ss ++ sea_tiles s.
Proof.
  unfold all_sea_tiles. rewrite map_app, concat_app. cbn. rewrite app_nil_r.
  reflexivity.
Qed.

(** The scan looks at the cell and finds it on the edge and WATER. *)
Definition starts_fill (w h : Z) (g : grid) (c : Z * Z) : bool :=
  let '(x, y) := c in
  negb ((x >? 0) && (y >? 0) && (x <? w - 1) && (y <? h - 1))
  && is_cell g (x + y * w) WATER.

Section Scan.

Variables (w h : Z) (g : grid).

Definition scan_inv (s : sea_scan) : Prop :=
  length (ocean_of s) = Z.to_nat (w * h)
  /\ (forall n, marked (ocean_of s) n <-> In n (all_sea_tiles (seas_of s)))
  /\ NoDup (all_sea_tiles (seas_of s))
  /\ (forall n, marked (ocean_of s) n -> water g n = true /\ beside w h (water g) n)
  /\ map sea_id (seas_of s)
     = map (fun k => 1 + k) (Arr.range (Z.of_nat (length (seas_of s))))
  /\ currentSeaId s = 1 + Z.of_nat (length (seas_of s)).

Lemma scan_cell_inv (s : sea_scan) (c : Z * Z) :
  scan_inv s ->
  exists s',
    sea_scan_cell w h g (Some s) c = Some s'
    /\ scan_inv s'
    /\ sea_starts s'
       = sea_starts s
           ++ (if starts_fill w h g c then [fst c + snd c * w] else []).
Proof.
  intros Hinv. destruct c as [x y]. unfold sea_scan_cell, starts_fill. cbn [fst snd].
  destruct ((x >? 0) && (y >? 0) && (x <? w - 1) && (y <? h - 1)).
  { exists s. rewrite app_nil_r. auto. }
  destruct (is_cell g (x + y * w) WATER) eqn:Ew; cbn [negb andb].
  2:{ exists s. rewrite app_nil_r. auto. }
  destruct Hinv as (Hl & Hm & Hnd & Hw & Hid & Hcur).
  set (i := x + y * w) in *.
  destruct (sea_flood_returns w h g (fill_fuel (ocean_of s)) (ocean_of s, [i], []))
    as [[[o' s'] t'] Hf].
  { cbn. pose proof (unmarked_count_le (ocean_of s)). unfold fill_fuel. lia. }
  rewrite Hf.
  assert (J0 : fill_inv w h g (ocean_of s) (ocean_of s, [i], [])).
  { split; [reflexivity|]. split; [auto|]. split; [auto|].
    split; [intros n []|]. split; [constructor|].
    intros k [<-|[]]. exact Ew. }
  destruct (sea_flood_inv w h g (ocean_of s) _ _ _ J0 Hf)
    as [(Jl & Jmono & Jsrc & Jt & Jnd & _) _].
  eexists. split; [reflexivity|]. split; [|reflexivity].
  unfold scan_inv. cbn [ocean_of seas_of currentSeaId].
  rewrite all_sea_tiles_app. cbn [sea_tiles].
  split; [congruence|].
  split.
  { intros n. rewrite in_app_iff, <- Hm. split.
    - intros Hn. apply Jsrc in Hn. tauto.
    - intros [Hn|Hn]; [auto | apply Jt; exact Hn]. }
  split.
  { apply NoDup_app; [exact Hnd | exact Jnd |].
    intros n Hn Hn'. apply Hm in Hn. apply Jt in Hn'. tauto. }
  split.
  { intros n Hn. apply Jsrc in Hn. destruct Hn as [Hn|Hn]; [auto|].
    apply Jt in Hn. tauto. }
  rewrite length_app, map_app. cbn [length map sea_id].
  replace (Z.of_nat (length (seas_of s) + 1)) with (Z.of_nat (length (seas_of s)) + 1)
    by lia.
  rewrite ArrFacts.range_succ by lia. rewrite map_app, Hid. cbn [map].
  split; [rewrite Hcur; reflexivity | lia].
Qed.

Lemma scan_cells_inv (cs : list (Z * Z)) :
  forall s,
    scan_inv s ->
    exists s',
      fold_left (sea_scan_cell w h g) cs (Some s) = Some s'
      /\ scan_inv s'
      /\ sea_starts s'
         = sea_starts s ++ map (fun c => fst c + snd c * w) (filter (starts_fill w h g) cs).
Proof.
  induction cs as [|c cs IH]; intros s Hinv; cbn [fold_left filter map].
  - exists s. rewrite app_nil_r. auto.
  - destruct (scan_cell_inv s c Hinv) as (s1 & -> & H1 & E1).
    destruct (IH s1 H1) as (s2 & -> & H2 & E2).
    exists s2. split; [reflexivity|]. split; [exact H2|].
    rewrite E2, E1, <- app_assoc. f_equal.
    destruct (starts_fill w h g c); reflexivity.
Qed.

Lemma scan_inv_init :
  scan_inv {| currentSeaId := 1; ocean_of := repeat false (Z.to_nat (w * h));
              seas_of := []; sea_starts := [] |}.
Proof.
  unfold scan_inv, marked. cbn.
  assert (Hnone : forall n, Arr.get n (repeat false (Z.to_nat (w * h))) <> Some true).
  { intros n Hn. pose proof (ArrFacts.get_some_bound _ _ _ Hn) as Hb.
    rewrite repeat_length in Hb. rewrite ArrFacts.get_repeat in Hn by lia.
    discriminate. }
  split; [apply repeat_length|].
  split; [intros n; split; [intros Hn; exact (Hnone n Hn) | intros []]|].
  split; [constructor|].
  split; [intros n Hn; destruct (Hnone n Hn)|]. auto.
Qed.

(** The scan of [detectSeas] always completes on a grid whose
    [width * height] is a length. *)
Lemma detectSeas_scan_returns :
  0 <= w * h ->
  exists s,
    detectSeas_scan w h g = Some s
    /\ scan_inv s
    /\ sea_starts s
       = map (fun c => fst c + snd c * w)
           (filter (starts_fill w h g) (sea_scan_cells w h)).
Proof.
  intros Hwh. unfold detectSeas_scan. rewrite ArrFacts.alloc_nonneg by assumption.
  destruct (scan_cells_inv (sea_scan_cells w h) _ scan_inv_init) as (s & -> & Hs & E).
  exists s. auto.
Qed.

Lemma detectSeas_scan_throws : w * h < 0 -> detectSeas_scan w h g = None.
Proof.
  intros H. unfold detectSeas_scan. rewrite ArrFacts.alloc_none by assumption.
  reflexivity.
Qed.

End Scan.

Lemma get_reclassify (o : list bool) (g : grid) (n : Z) :
  0 <= n < Z.of_nat (length g) ->
  Arr.get n (reclassify o g)
  = Some (match Arr.get n o with Some true => WATER | _ => LAND end).
Proof.
  intros Hn. unfold reclassify, Arr.get at 1.
  destruct (n <? 0) eqn:E; [lia|].
  rewrite nth_error_map. unfold Arr.range. rewrite nth_error_map, nth_error_seq.
  rewrite Nat2Z.id.
  destruct (Nat.ltb_spec (Z.to_nat n) (length g)) as [_|]; [|lia].
  cbn. rewrite Z2Nat.id by lia. reflexivity.
Qed.

Lemma reclassify_length (o : list bool) (g : grid) :
  length (reclassify o g) = length g.
Proof.
  unfold reclassify. rewrite length_map, ArrFacts.range_length. lia.
Qed.

End SeaScanFacts.

(* ================================================================== *)
(** * Sea detection: results *)
(* ================================================================== *)

Module SeaResults.

Import Terrain FloodFacts SeaFillFacts SeaScanFacts.

Lemma detectSeas_inversion (w h : Z) (g : grid) (ss : list SeaProfile) (g' : grid) :
  detectSeas w h g = Some (ss, g') ->
  exists s, detectSeas_scan w h g = Some s /\ scan_inv w h g s
            /\ ss = seas_of s /\ g' = reclassify (ocean_of s) g.
Proof.
  unfold detectSeas. intros H.
  destruct (Z.lt_ge_cases (w * h) 0) as [Hn|Hp].
  - rewrite detectSeas_scan_throws in H by assumption. discriminate.
  - destruct (detectSeas_scan_returns w h g Hp) as (s & E & Hs & _).
    rewrite E in H. inversion H; subst. eauto.
Qed.



(** X12: After [detectSeas], the WATER cells of the terrain are exactly the tiles
    of the seas returned; no tile is listed twice, in one sea or in two; and
    every cell that is WATER afterwards was WATER before, so land is never
    turned into water. *)
Theorem detectSeas_water_is_sea_tiles (w h : Z) (g : grid)
  (ss : list SeaProfile) (g' : grid) :
  detectSeas w h g = Some (ss, g') ->
  NoDup (all_sea_tiles ss)
  /\ (forall n, In n (all_sea_tiles ss) <-> Arr.get n g' = Some WATER)
  /\ (forall n, Arr.get n g' = Some WATER -> Arr.get n g = Some WATER).
Proof.
  intros H. apply detectSeas_inversion in H.
  destruct H as (s & _ & (Hl & Hm & Hnd & Hw & _ & _) & -> & ->).
  assert (Hwater : forall n, water g n = true -> Arr.get n g = Some WATER).
  { intros n Hn. unfold water, is_cell, same in Hn.
    destruct (Arr.get n g) as [[|]|]; [reflexivity|discriminate|discriminate]. }
  assert (Hback : forall n, Arr.get n (reclassify (ocean_of s) g) = Some WATER ->
                            marked (ocean_of s) n).
  { intros n Hn. pose proof (ArrFacts.get_some_bound _ _ _ Hn) as Hb.
    rewrite reclassify_length in Hb. rewrite get_reclassify in Hn by assumption.
    unfold marked. destruct (Arr.get n (ocean_of s)) as [[|]|]; congruence. }
  split; [exact Hnd|]. split.
  - intros n. rewrite <- Hm. split; [|apply Hback].
    intros Hn. destruct (Hw n Hn) as [Hwn _]. apply Hwater in Hwn.
    rewrite get_reclassify by (eapply ArrFacts.get_some_bound; eassumption).
    unfold marked in Hn. rewrite Hn. reflexivity.
  - intros n Hn. apply Hback in Hn. apply Hwater. apply Hw. exact Hn.
Qed.

Lemma detectSeas_water_is_sea_tiles_witness :
  NoDup (all_sea_tiles [mkSea 1 [7; 4]; mkSea 2 []])
  /\ (forall n, In n (all_sea_tiles [mkSea 1 [7; 4]; mkSea 2 []])
                <-> Arr.get n SeaFacts.lake_3x5 = Some WATER)
  /\ (forall n, Arr.get n SeaFacts.lake_3x5 = Some WATER ->
                Arr.get n SeaFacts.lake_3x5 = Some WATER).
Proof.
  apply (detectSeas_water_is_sea_tiles 3 5 SeaFacts.lake_3x5).
  vm_compute. reflexivity.
Defined.

(** X13: On a grid of [width * height] cells, a WATER cell none of whose
    neighbours inside the grid is WATER is LAND after [detectSeas] and is in
    the tiles of no sea, wherever it lies: even when a fill starts from it,
    the fill marks neighbours only. *)
Theorem detectSeas_drops_lone_water_cell (w h : Z) (g : grid) (cx cy : Z) :
  length g = Z.to_nat (w * h) ->
  valid w h cx cy = true ->
  is_cell g (cx + cy * w) WATER = true ->
  (forall dx dy,
     In (dx, dy) DELTAS -> (dx =? 0) && (dy =? 0) = false ->
     valid w h (cx + dx) (cy + dy) = true ->
     is_cell g ((cx + dx) + (cy + dy) * w) WATER = false) ->
  exists ss g',
    detectSeas w h g = Some (ss, g')
    /\ Arr.get (cx + cy * w) g' = Some LAND
    /\ forall s, In s ss -> ~ In (cx + cy * w) (sea_tiles s).
Proof.
  intros Hg Hv Hc Hlone.
  apply GridFacts.valid_iff in Hv. destruct Hv as [Hx Hy].
  assert (Hwh : 0 <= w * h) by nia.
  destruct (detectSeas_scan_returns w h g Hwh) as (s & E & (Hl & Hm & _ & Hw & _) & _).
  unfold detectSeas. rewrite E. eexists _, _. split; [reflexivity|].
  assert (Hnot : ~ marked (ocean_of s) (cx + cy * w)).
  { intros Hmk. destruct (Hw _ Hmk) as [_ (i & dx & dy & Hi & Hd & E0 & Hvn & En)].
    apply GridFacts.valid_iff in Hvn.
    destruct (GridFacts.index_inj w cx cy _ _ Hx (proj1 Hvn) En) as [Ex Ey].
    assert (Hib : 0 <= i < w * h).
    { unfold water, is_cell, same in Hi.
      destruct (Arr.get i g) as [c|] eqn:Eg; [|discriminate].
      apply ArrFacts.get_some_bound in Eg. lia. }
    assert (Hrem : Z.rem i w = i mod w /\ Z.quot i w = i / w).
    { rewrite Z.rem_mod_nonneg, Z.quot_div_nonneg by lia. auto. }
    destruct Hrem as [Hr Hq].
    destruct (GridFacts.cell_of_index w h i Hib ltac:(lia)) as (Hix & Hiy & Ei).
    apply in_deltas in Hd.
    assert (Hz : (- dx =? 0) && (- dy =? 0) = false).
    { apply andb_false_iff in E0. apply andb_false_iff.
      destruct E0 as [E0|E0]; [left|right]; apply Z.eqb_neq in E0; apply Z.eqb_neq; lia. }
    specialize (Hlone (- dx) (- dy) ltac:(apply in_deltas; lia) Hz).
    replace (cx + - dx) with (i mod w) in Hlone by lia.
    replace (cy + - dy) with (i / w) in Hlone by lia.
    rewrite <- Ei in Hlone.
    specialize (Hlone ltac:(apply GridFacts.valid_iff; lia)).
    unfold water in Hi. congruence. }
  split.
  - rewrite get_reclassify by nia. unfold marked in Hnot.
    destruct (Arr.get (cx + cy * w) (ocean_of s)) as [[|]|]; congruence.
  - intros sea Hsea Hin. apply Hnot. apply Hm.
    unfold all_sea_tiles. apply in_concat. exists (sea_tiles sea).
    split; [apply in_map; exact Hsea | exact Hin].
Qed.

Lemma detectSeas_drops_lone_water_cell_witness :
  exists ss g',
    detectSeas 3 3 [LAND; LAND; LAND; LAND; WATER; LAND; LAND; LAND; LAND]
      = Some (ss, g')
    /\ Arr.get (1 + 1 * 3) g' = Some LAND
    /\ forall s, In s ss -> ~ In (1 + 1 * 3) (sea_tiles s).
Proof.
  apply (detectSeas_drops_lone_water_cell 3 3
           [LAND; LAND; LAND; LAND; WATER; LAND; LAND; LAND; LAND] 1 1).
  - reflexivity.
  - reflexivity.
  - reflexivity.
  - intros dx dy Hd H0 _. apply in_deltas in Hd.
    assert (Hc : (dx = -1 \/ dx = 0 \/ dx = 1) /\ (dy = -1 \/ dy = 0 \/ dy = 1)) by lia.
    destruct Hc as [H1 H2].
    destruct H1 as [H1|[H1|H1]], H2 as [H2|[H2|H2]]; subst dx dy;
      try reflexivity; discriminate H0.
Defined.

End SeaResults.

Module SeaSeedFacts.

Import Terrain SeaScanFacts.

Lemma filter_map_in {A B} (f : A -> B) (P : A -> bool) (Q : B -> bool) (l : list A) :
  (forall a, In a l -> Q (f a) = P a) ->
  map f (filter P l) = filter Q (map f l).
Proof.
  induction l as [|a l IH]; intros H; cbn [filter map]; [reflexivity|].
  rewrite (H a (or_introl eq_refl)).
  destruct (P a); cbn [map]; rewrite IH by (intros; apply H; right; assumption);
    reflexivity.
Qed.

Lemma edge_test (n x y : Z) :
  0 <= x < n -> 0 <= y < n ->
  SeaFacts.cell_on_border n n (x + y * n)
  = negb ((x >? 0) && (y >? 0) && (x <? n - 1) && (y <? n - 1)).
Proof.
  intros Hx Hy. unfold SeaFacts.cell_on_border, SeaFacts.on_border.
  destruct (GridFacts.decode n x y Hx ltac:(lia)) as [-> ->].
  destruct (Z.eqb_spec x 0), (Z.eqb_spec y 0), (Z.eqb_spec x (n - 1)),
    (Z.eqb_spec y (n - 1)), (Z.gtb_spec x 0), (Z.gtb_spec y 0),
    (Z.ltb_spec x (n - 1)), (Z.ltb_spec y (n - 1)); cbn; try reflexivity; lia.
Qed.

(** X14: On a square grid the fills of [detectSeas] start from exactly the WATER
    cells of the border (row 0, the last row, column 0, the last column),
    each of them, in row-major order. *)
Theorem detectSeas_seeds_on_square_grid (n : Z) (g : grid) :
  0 <= n ->
  sea_seeds n n g
  = Some (filter (fun i => SeaFacts.cell_on_border n n i && is_cell g i WATER)
            (Arr.range (n * n))).
Proof.
  intros Hn. unfold sea_seeds.
  destruct (detectSeas_scan_returns n n g ltac:(nia)) as (s & -> & _ & ->).
  f_equal. unfold sea_scan_cells.
  rewrite (filter_map_in _ _
             (fun i => SeaFacts.cell_on_border n n i && is_cell g i WATER)).
  - replace n with (Z.of_nat (Z.to_nat n)) at 1 by lia.
    rewrite GridFacts.row_major_indices by lia. rewrite Z2Nat.id by lia. reflexivity.
  - intros [x y] Hin. apply ArrFacts.in_nest in Hin. destruct Hin as [Hy Hx].
    apply ArrFacts.in_range in Hx, Hy. cbn [fst snd starts_fill].
    rewrite edge_test by assumption. reflexivity.
Qed.

Lemma detectSeas_seeds_on_square_grid_witness :
  sea_seeds 2 2 SeaFacts.all_water_2x2
  = Some (filter (fun i => SeaFacts.cell_on_border 2 2 i
                           && is_cell SeaFacts.all_water_2x2 i WATER)
            (Arr.range (2 * 2))).
Proof. apply (detectSeas_seeds_on_square_grid 2 SeaFacts.all_water_2x2). lia. Defined.

End SeaSeedFacts.

(* ================================================================== *)
(** * Land detection: the fill *)
(* ================================================================== *)

Module LandFillFacts.

Import Terrain FloodFacts.

Section Fill.

Variables (w h : Z) (g : grid).
Hypothesis Hg : length g = Z.to_nat (w * h).

Definition land (i : Z) : bool := is_cell g i LAND.

Lemma land_bound (i : Z) : land i = true -> 0 <= i < w * h.
Proof.
  unfold land, is_cell, same. destruct (Arr.get i g) as [c|] eqn:E; [|discriminate].
  intros _. apply ArrFacts.get_some_bound in E. lia.
Qed.

Lemma land_not_water (i : Z) : land i = true -> is_cell g i WATER = false.
Proof.
  unfold land, is_cell, same. destruct (Arr.get i g) as [[|]|]; cbn; congruence.
Qed.

Lemma not_water_land (i : Z) :
  0 <= i < w * h -> is_cell g i WATER = false -> land i = true.
Proof.
  intros Hi. unfold land, is_cell, same.
  destruct (ArrFacts.get_in_bound i g ltac:(lia)) as [c ->].
  destruct c; cbn; congruence.
Qed.

Lemma land_visit_cases (x y : Z) (o : list bool) (s t : list Z) (d : Z * Z) :
  length o = Z.to_nat (w * h) ->
  land_visit w h g x y (o, s, t) d = (o, s, t)
  \/ exists dx dy,
       d = (dx, dy) /\ (dx =? 0) && (dy =? 0) = false
       /\ valid w h (x + dx) (y + dy) = true
       /\ land ((x + dx) + (y + dy) * w) = true
       /\ Arr.get ((x + dx) + (y + dy) * w) o = Some false
       /\ land_visit w h g x y (o, s, t) d
          = (Arr.upd ((x + dx) + (y + dy) * w) true o,
             ((x + dx) + (y + dy) * w) :: s,
             set_add ((x + dx) + (y + dy) * w) t).
Proof.
  intros Ho. destruct d as [dx dy]. unfold land_visit.
  destruct ((dx =? 0) && (dy =? 0)) eqn:E0; [auto|].
  destruct (valid w h (x + dx) (y + dy)) eqn:Ev; [|auto].
  destruct (is_cell g (x + dx + (y + dy) * w) WATER) eqn:Ew; [auto|].
  apply GridFacts.valid_iff in Ev.
  pose proof (GridFacts.index_bound w h _ _ (proj1 Ev) (proj2 Ev)) as Hb.
  destruct (ArrFacts.get_in_bound (x + dx + (y + dy) * w) o ltac:(lia)) as [b Eb].
  rewrite Eb. destruct b; [auto|].
  right. exists dx, dy. repeat split; auto.
  - apply GridFacts.valid_iff. exact Ev.
  - apply not_water_land; assumption.
Qed.

Definition land_potential (st : fill_state) : nat :=
  let '(o, s, _) := st in (unmarked_count o + length s)%nat.

Definition marks_length (st : fill_state) : Prop :=
  length (fst (fst st)) = Z.to_nat (w * h).

Lemma land_visit_length (x y : Z) (st : fill_state) (d : Z * Z) :
  marks_length st -> marks_length (land_visit w h g x y st d).
Proof.
  destruct st as [[o s] t]. unfold marks_length. cbn [fst]. intros Ho.
  destruct (land_visit_cases x y o s t d Ho) as [-> | (dx & dy & _ & _ & _ & _ & _ & ->)];
    cbn [fst]; [exact Ho|]. rewrite ArrFacts.upd_length. exact Ho.
Qed.

Lemma land_visit_potential (x y : Z) (st : fill_state) (d : Z * Z) :
  marks_length st -> land_potential (land_visit w h g x y st d) = land_potential st.
Proof.
  destruct st as [[o s] t]. unfold marks_length. cbn [fst]. intros Ho.
  destruct (land_visit_cases x y o s t d Ho) as [-> | (dx & dy & _ & _ & _ & _ & Eo & ->)];
    [reflexivity|].
  cbn [land_potential length]. rewrite <- (unmarked_upd o _ Eo). lia.
Qed.

Lemma land_visits_potential (x y : Z) (ds : list (Z * Z)) :
  forall st, marks_length st ->
             marks_length (fold_left (land_visit w h g x y) ds st)
             /\ land_potential (fold_left (land_visit w h g x y) ds st) = land_potential st.
Proof.
  induction ds as [|d ds IH]; intros st Hst; cbn [fold_left]; [auto|].
  destruct (IH _ (land_visit_length x y st d Hst)) as [H1 H2].
  split; [exact H1|]. rewrite H2. apply land_visit_potential. exact Hst.
Qed.

Lemma land_flood_returns (fuel : nat) :
  forall st, marks_length st -> (land_potential st <= fuel)%nat ->
             exists st', land_flood fuel w h g st = Some st'.
Proof.
  induction fuel as [|f IH]; intros [[o s] t] Hl Hp; cbn [land_flood].
  - destruct s as [|i s]; [eauto|]. cbn [land_potential length] in Hp. lia.
  - destruct s as [|i s]; [eauto|].
    destruct (land_visits_potential (Z.rem i w) (Z.quot i w) DELTAS (o, s, t) Hl)
      as [H1 H2].
    apply IH; [exact H1|]. rewrite H2. cbn [land_potential length] in Hp |- *. lia.
Qed.

End Fill.

End LandFillFacts.

Module LandClosureFacts.

Import Terrain FloodFacts LandFillFacts.

Section Fill.

Variables (w h : Z) (g : grid).
Hypothesis Hg : length g = Z.to_nat (w * h).

(** The neighbour of cell [i] at offset [(dx, dy)], as the fill computes it. *)
Definition neighbour (i dx dy : Z) : Z :=
  (Z.rem i w + dx) + (Z.quot i w + dy) * w.

(** The neighbour of [i] at offset [d], if it is a land cell of the grid,
    is marked. *)
Definition reached (o : list bool) (i : Z) (d : Z * Z) : Prop :=
  (fst d =? 0) && (snd d =? 0) = false ->
  valid w h (Z.rem i w + fst d) (Z.quot i w + snd d) = true ->
  land g (neighbour i (fst d) (snd d)) = true ->
  marked o (neighbour i (fst d) (snd d)).

(** All land neighbours of [i] are marked. *)
Definition closed (o : list bool) (i : Z) : Prop :=
  forall d, In d DELTAS -> reached o i d.

Definition grows (o o' : list bool) : Prop := forall n, marked o n -> marked o' n.

Lemma closed_grows (o o' : list bool) (i : Z) :
  grows o o' -> closed o i -> closed o' i.
Proof. intros Hgr Hc d Hd H0 Hv Hl. apply Hgr. apply Hc; assumption. Qed.

(** The invariant of the fill started at [seed] on the marks [o0]; [skip]
    is the cell being expanded, if any. *)
Definition land_fill_inv (o0 : list bool) (seed : Z) (skip : option Z)
  (st : fill_state) : Prop :=
  let '(o, s, t) := st in
  length o = Z.to_nat (w * h)
  /\ grows o0 o
  /\ (forall n, marked o n -> marked o0 n \/ In n t)
  /\ (forall n, In n t ->
        marked o n /\ ~ marked o0 n /\ land g n = true /\ beside w h (land g) n)
  /\ NoDup t
  /\ (forall i, In i s -> land g i = true)
  /\ (forall n, marked o n \/ n = seed -> Some n = skip \/ In n s \/ closed o n).

Lemma land_visit_inv (o0 : list bool) (seed i : Z) (st : fill_state) (d : Z * Z) :
  land g i = true -> In d DELTAS ->
  land_fill_inv o0 seed (Some i) st ->
  land_fill_inv o0 seed (Some i) (land_visit w h g (Z.rem i w) (Z.quot i w) st d)
  /\ grows (fst (fst st))
       (fst (fst (land_visit w h g (Z.rem i w) (Z.quot i w) st d)))
  /\ reached (fst (fst (land_visit w h g (Z.rem i w) (Z.quot i w) st d))) i d.
Proof.
  intros Hi Hd. destruct st as [[o s] t].
  intros (Hl & Hmono & Hsrc & Ht & Hnd & Hs & Hcl).
  destruct (land_visit_cases w h g Hg (Z.rem i w) (Z.quot i w) o s t d Hl)
    as [E | (dx & dy & -> & E0 & Ev & El & Eo & ->)].
  - rewrite E. cbn [fst].
    split; [exact (conj Hl (conj Hmono (conj Hsrc (conj Ht (conj Hnd (conj Hs Hcl))))))|].
    split; [intros n Hn; exact Hn|].
    intros H0 Hv Hland. destruct d as [dx dy]. cbn [fst snd] in *.
    unfold land_visit in E. rewrite H0, Hv in E. cbv zeta in E.
    fold (neighbour i dx dy) in E.
    rewrite (land_not_water g _ Hland) in E.
    unfold marked. destruct (Arr.get (neighbour i dx dy) o) as [[|]|] eqn:Eo;
      [reflexivity| |].
    + inversion E as [[E1 E2 E3]]. exfalso.
      assert (length (neighbour i dx dy :: s) = length s) by congruence.
      cbn in H. lia.
    + inversion E as [[E1 E2 E3]]. exfalso.
      assert (length (neighbour i dx dy :: s) = length s) by congruence.
      cbn in H. lia.
  - fold (neighbour i dx dy) in *. set (n := neighbour i dx dy) in *. cbn [fst snd].
    assert (Hfresh : ~ In n t).
    { intros Hin. destruct (Ht n Hin) as [Hm _]. unfold marked in Hm. congruence. }
    assert (Hgr : grows o (Arr.upd n true o)).
    { intros k Hk. apply marked_upd. exact Hk. }
    assert (Hnew : marked (Arr.upd n true o) n).
    { unfold marked. apply ArrFacts.get_upd_same.
      eapply ArrFacts.get_some_bound; eassumption. }
    rewrite (set_add_fresh n t Hfresh).
    split; [|split; [exact Hgr | intros _ _ _; exact Hnew]].
    split; [rewrite ArrFacts.upd_length; exact Hl|].
    split; [intros k Hk; apply Hgr; auto|].
    split.
    { intros k Hk. apply marked_upd_inv in Hk. destruct Hk as [->|Hk].
      - right. apply in_or_app. right. left. reflexivity.
      - destruct (Hsrc k Hk); [auto|]. right. apply in_or_app. auto. }
    split.
    { intros k Hk. apply in_app_or in Hk. destruct Hk as [Hk|[<-|[]]].
      - destruct (Ht k Hk) as (H1 & H2 & H3 & H4).
        repeat split; auto.
      - split; [exact Hnew|]. split.
        { intros Hm0. apply Hmono in Hm0. unfold marked in Hm0. congruence. }
        split; [exact El|].
        exists i, dx, dy. repeat split; auto. }
    split.
    { apply NoDup_app; [exact Hnd | repeat constructor; intros [] | ].
      intros k Hk [<-|[]]. contradiction. }
    split.
    { intros k [<-|Hk]; [exact El | auto]. }
    intros k Hk.
    assert (Hk' : k = n \/ marked o k \/ k = seed).
    { destruct Hk as [Hk|Hk]; [|auto]. apply marked_upd_inv in Hk. tauto. }
    destruct Hk' as [->|Hk']; [right; left; left; reflexivity|].
    destruct (Hcl k Hk') as [H1|[H1|H1]]; [auto | right; left; right; exact H1 |].
    right. right. eapply closed_grows; eassumption.
Qed.

End Fill.

End LandClosureFacts.

Module LandFloodFacts.

Import Terrain FloodFacts LandFillFacts LandClosureFacts.

Section Flood.

Variables (w h : Z) (g : grid).
Hypothesis Hg : length g = Z.to_nat (w * h).

Lemma visits_inv (o0 : list bool) (seed i : Z) (ds : list (Z * Z)) :
  land g i = true -> (forall d, In d ds -> In d DELTAS) ->
  forall st,
    land_fill_inv w h g o0 seed (Some i) st ->
    land_fill_inv w h g o0 seed (Some i)
      (fold_left (land_visit w h g (Z.rem i w) (Z.quot i w)) ds st)
    /\ grows (fst (fst st))
         (fst (fst (fold_left (land_visit w h g (Z.rem i w) (Z.quot i w)) ds st)))
    /\ forall d, In d ds ->
         reached w h g
           (fst (fst (fold_left (land_visit w h g (Z.rem i w) (Z.quot i w)) ds st)))
           i d.
Proof.
  intros Hi. induction ds as [|d ds IH]; intros Hds st Hst; cbn [fold_left].
  - split; [exact Hst|]. split; [intros n Hn; exact Hn | intros d []].
  - destruct (land_visit_inv w h g Hg o0 seed i st d Hi (Hds d (or_introl eq_refl)) Hst)
      as (H1 & H2 & H3).
    destruct (IH (fun d' Hd' => Hds d' (or_intror Hd')) _ H1) as (J1 & J2 & J3).
    split; [exact J1|]. split; [intros n Hn; apply J2, H2, Hn|].
    intros d' [<-|Hd'].
    + intros A B C. apply J2. apply H3; assumption.
    + apply J3. exact Hd'.
Qed.

Lemma land_flood_inv (o0 : list bool) (seed : Z) (fuel : nat) :
  forall st st',
    land_fill_inv w h g o0 seed None st ->
    land_flood fuel w h g st = Some st' ->
    land_fill_inv w h g o0 seed None st' /\ snd (fst st') = [].
Proof.
  induction fuel as [|f IH]; intros [[o s] t] st' Hinv H; cbn [land_flood] in H.
  - destruct s as [|i s]; [|discriminate]. inversion H; subst. auto.
  - destruct s as [|i s]; [inversion H; subst; auto|].
    apply IH in H; [exact H|]. clear IH H.
    destruct Hinv as (Hl & Hmono & Hsrc & Ht & Hnd & Hs & Hcl).
    assert (Hi : land g i = true) by (apply Hs; left; reflexivity).
    assert (Hpop : land_fill_inv w h g o0 seed (Some i) (o, s, t)).
    { refine (conj Hl (conj Hmono (conj Hsrc (conj Ht (conj Hnd (conj _ _)))))).
      - intros k Hk. apply Hs. right; exact Hk.
      - intros n Hn. destruct (Hcl n Hn) as [H1|[[<-|H1]|H1]]; auto. discriminate. }
    destruct (visits_inv o0 seed i DELTAS Hi (fun d Hd => Hd) _ Hpop) as (J1 & J2 & J3).
    revert J1 J2 J3.
    generalize (fold_left (land_visit w h g (Z.rem i w) (Z.quot i w)) DELTAS (o, s, t)).
    intros [[o' s'] t'] J1 J2 J3. cbn [fst] in *.
    destruct J1 as (Kl & Kmono & Ksrc & Kt & Knd & Ks & Kcl).
    refine (conj Kl (conj Kmono (conj Ksrc (conj Kt (conj Knd (conj Ks _)))))).
    intros n Hn. destruct (Kcl n Hn) as [H1|[H1|H1]]; auto.
    inversion H1; subst. right. right. exact J3.
Qed.

End Flood.

End LandFloodFacts.

(* ================================================================== *)
(** * Contour tracing: the ring of neighbours *)
(* ================================================================== *)

Module RingFacts.

Import Terrain.

Ltac mlia := Z.to_euclidean_division_equations; lia.

(** The k-th offset of [MOORE_NEIGHBOURHOOD], read modulo 8. *)
Definition ring (k : Z) : Z * Z :=
  nth (Z.to_nat (k mod 8)) MOORE_NEIGHBOURHOOD (0, 0).

Definition rx (k : Z) : Z := fst (ring k).
Definition ry (k : Z) : Z := snd (ring k).

Definition BACK : list Z := [5; 7; 7; 1; 1; 3; 3; 5].
Definition back (k : Z) : Z := nth (Z.to_nat (k mod 8)) BACK 5.

Lemma mod8_cases (k : Z) :
  k mod 8 = 0 \/ k mod 8 = 1 \/ k mod 8 = 2 \/ k mod 8 = 3 \/
  k mod 8 = 4 \/ k mod 8 = 5 \/ k mod 8 = 6 \/ k mod 8 = 7.
Proof. mlia. Qed.

Lemma ring_congr (a b : Z) : a mod 8 = b mod 8 -> ring a = ring b.
Proof. unfold ring. intros ->. reflexivity. Qed.

Lemma back_congr (a b : Z) : a mod 8 = b mod 8 -> back a = back b.
Proof. unfold back. intros ->. reflexivity. Qed.

Lemma ring_at (k r : Z) : k mod 8 = r -> ring k = ring r.
Proof. intros <-. apply ring_congr. rewrite Z.mod_mod by lia. reflexivity. Qed.

Lemma ring_add (k r c : Z) : k mod 8 = r -> ring (k + c) = ring (r + c).
Proof. intros <-. apply ring_congr. rewrite Z.add_mod_idemp_l by lia. reflexivity. Qed.

Lemma ring_sub (k r c : Z) : k mod 8 = r -> ring (k - c) = ring (r - c).
Proof. intros <-. apply ring_congr. rewrite Zminus_mod_idemp_l. reflexivity. Qed.

Lemma back_at (k r : Z) : k mod 8 = r -> back k = back r.
Proof. intros <-. apply back_congr. rewrite Z.mod_mod by lia. reflexivity. Qed.

Lemma mod_add_at (k r c : Z) : k mod 8 = r -> (k + c) mod 8 = (r + c) mod 8.
Proof. intros <-. rewrite Z.add_mod_idemp_l by lia. reflexivity. Qed.

Lemma mod2_at (k r : Z) : k mod 8 = r -> k mod 2 = r mod 2.
Proof. intros <-. mlia. Qed.

(** With [H : k mod 8 = r], [r] a numeral, evaluate the directions built
    on [k]. *)
Ltac dir_value H :=
  match type of H with
  | ?k mod 8 = ?r =>
      repeat match goal with
        | |- context [back k] => rewrite (back_at k r H)
        | |- context [back r] =>
            let v := eval vm_compute in (back r) in change (back r) with v
        end;
      repeat match goal with
        | |- context [ring (k + ?c)] => rewrite (ring_add k r c H)
        | |- context [ring (k - ?c)] => rewrite (ring_sub k r c H)
        | |- context [ring k] => rewrite (ring_at k r H)
        end;
      repeat match goal with
        | |- context [(k + ?c) mod 8] => rewrite (mod_add_at k r c H)
        | |- context [k mod 2] => rewrite (mod2_at k r H)
        end;
      rewrite ?H
  end.

Ltac dir_eval :=
  repeat match goal with
    | |- context [ring ?e] =>
        let v := eval vm_compute in (ring e) in change (ring e) with v
    | |- context [?a mod 8] =>
        let v := eval vm_compute in (a mod 8) in change (a mod 8) with v
    | |- context [?a mod 2] =>
        let v := eval vm_compute in (a mod 2) in change (a mod 2) with v
    end;
  cbn [fst snd].

Ltac by_residue k :=
  let H := fresh "Hres" in
  unfold rx, ry;
  destruct (mod8_cases k) as [H|[H|[H|[H|[H|[H|[H|H]]]]]]]; dir_value H.

Lemma ring_small (k : Z) : -1 <= rx k <= 1 /\ -1 <= ry k <= 1.
Proof. by_residue k; dir_eval; lia. Qed.

Lemma ring_nonzero (k : Z) : rx k <> 0 \/ ry k <> 0.
Proof. by_residue k; dir_eval; lia. Qed.

Lemma back_odd (k : Z) : back k = 1 \/ back k = 3 \/ back k = 5 \/ back k = 7.
Proof. by_residue k; lia. Qed.

Lemma back_vector (k : Z) :
  rx k + rx (back k) = rx (k - 1) /\ ry k + ry (back k) = ry (k - 1).
Proof. by_residue k; dir_eval; lia. Qed.

Lemma opposite (k : Z) : rx k + rx (k + 4) = 0 /\ ry k + ry (k + 4) = 0.
Proof. by_residue k; dir_eval; lia. Qed.

Lemma diagonal_step (k : Z) :
  k mod 2 = 1 ->
  rx k - rx (k + 1) = rx (k - 2) /\ ry k - ry (k + 1) = ry (k - 2).
Proof. by_residue k; dir_eval; lia. Qed.

Lemma ring_inj (a b : Z) : rx a = rx b -> ry a = ry b -> a mod 8 = b mod 8.
Proof. by_residue a; by_residue b; dir_eval; lia. Qed.

Lemma back_pairs (a b : Z) :
  back a = back b ->
  a mod 8 = b mod 8
  \/ (a mod 2 = 1 /\ (a + 1) mod 8 = b mod 8)
  \/ (b mod 2 = 1 /\ (b + 1) mod 8 = a mod 8).
Proof. by_residue a; by_residue b; dir_eval; lia. Qed.

Lemma back_source (k o : Z) :
  back k = o ->
  (k + 4) mod 8 = (o - 2) mod 8 \/ (k + 4) mod 8 = (o - 1) mod 8.
Proof. intros <-. by_residue k; dir_eval; lia. Qed.

End RingFacts.

(* ================================================================== *)
(** * Contour tracing: the walk *)
(* ================================================================== *)

Module WalkFacts.

Import Terrain RingFacts.

Lemma range_prefix (a b : Z) :
  0 <= a <= b -> exists rest, Arr.range b = Arr.range a ++ rest.
Proof.
  intros H. unfold Arr.range.
  replace (Z.to_nat b) with (Z.to_nat a + (Z.to_nat b - Z.to_nat a))%nat by lia.
  rewrite seq_app, map_app. eauto.
Qed.

Lemma bounded_search (P : Z -> bool) (n : nat) :
  (exists k, 0 <= k < Z.of_nat n /\ P k = true
             /\ forall j, 0 <= j < k -> P j = false)
  \/ (forall j, 0 <= j < Z.of_nat n -> P j = false).
Proof.
  induction n as [|n IH].
  - right. intros j Hj. lia.
  - destruct IH as [(k & Hk & Pk & Hlt) | Hall].
    + left. exists k. repeat split; try lia; assumption.
    + destruct (P (Z.of_nat n)) eqn:E.
      * left. exists (Z.of_nat n). repeat split; try lia; auto.
      * right. intros j Hj. destruct (Z.eq_dec j (Z.of_nat n)) as [->|Hne]; [exact E|].
        apply Hall. lia.
Qed.

Section Walk.

Variable land : Z -> Z -> bool.

(** The walk around [(x, y)] of [trace]'s inner loop, without the path. *)
Fixpoint mscan (ks : list Z) (o x y bx by_ : Z) : Z * Z * Z * Z * bool :=
  match ks with
  | [] => (x, y, bx, by_, false)
  | i :: rest =>
      let nx := x + rx (i + o) in
      let ny := y + ry (i + o) in
      if land nx ny then (nx, ny, bx, by_, true)
      else mscan rest o x y nx ny
  end.

(** The neighbour of [(x, y)] tried at step [k] of a walk started at offset
    [o] is of the traced type. *)
Definition look (o x y k : Z) : bool := land (x + rx (k + o)) (y + ry (k + o)).

Lemma mscan_miss (ks : list Z) :
  forall o x y bx by_,
    (forall i, In i ks -> look o x y i = false) ->
    exists bx' by', mscan ks o x y bx by_ = (x, y, bx', by', false).
Proof.
  induction ks as [|i ks IH]; intros o x y bx by_ H; cbn [mscan]; [eauto|].
  pose proof (H i (or_introl eq_refl)) as Hi. unfold look in Hi. rewrite Hi.
  apply IH. intros j Hj. apply H. right; exact Hj.
Qed.

Lemma mscan_hit (l1 : list Z) (j i : Z) (l2 : list Z) :
  forall o x y bx by_,
    (forall a, In a (l1 ++ [j]) -> look o x y a = false) ->
    look o x y i = true ->
    mscan ((l1 ++ [j]) ++ i :: l2) o x y bx by_
    = (x + rx (i + o), y + ry (i + o), x + rx (j + o), y + ry (j + o), true).
Proof.
  induction l1 as [|a l1 IH]; intros o x y bx by_ Hmiss Hhit.
  - cbn [app mscan].
    pose proof (Hmiss j (or_introl eq_refl)) as Hj. unfold look in Hj, Hhit.
    rewrite Hj, Hhit. reflexivity.
  - cbn [app mscan].
    pose proof (Hmiss a (or_introl eq_refl)) as Ha. unfold look in Ha. rewrite Ha.
    apply IH; [|exact Hhit]. intros b Hb. apply Hmiss. right; exact Hb.
Qed.

Definition state : Type := Z * Z * Z.

Definition cell_of (s : state) : Z * Z := fst s.

(** One turn of the outer loop, on the cell and the start offset. *)
Definition mstep (s : state) : state :=
  let '(x, y, o) := s in
  let '(x', y', bx', by', _) := mscan (Arr.range 8) o x y x y in
  (x', y', start_offset (mkTracer x' y' bx' by' [])).

(** A state from which the walk moves: the cell is of the traced type, the
    offset is one of the four sides and leads to a cell that is not, and
    some neighbour is of the traced type. *)
Definition good (s : state) : Prop :=
  let '(x, y, o) := s in
  land x y = true
  /\ (o = 1 \/ o = 3 \/ o = 5 \/ o = 7)
  /\ land (x + rx o) (y + ry o) = false
  /\ exists d, land (x + rx d) (y + ry d) = true.

Lemma start_offset_back (x y k : Z) (p : list Z) :
  start_offset (mkTracer (x + rx k) (y + ry k) (x + rx (k - 1)) (y + ry (k - 1)) p)
  = back k.
Proof.
  unfold start_offset. cbn [px py bx by_].
  by_residue k; dir_eval;
    repeat match goal with
      | |- context [?a >? ?b] => rewrite (Z.gtb_ltb a b)
      end;
    repeat match goal with
      | |- context [?a <? ?b] =>
          first [ rewrite (proj2 (Z.ltb_lt a b)) by lia
                | rewrite (proj2 (Z.ltb_ge a b)) by lia ]
      end; reflexivity.
Qed.

Lemma step_char (x y o : Z) :
  good (x, y, o) ->
  exists k,
    1 <= k <= 7
    /\ (forall j, 0 <= j < k -> look o x y j = false)
    /\ look o x y k = true
    /\ mscan (Arr.range 8) o x y x y
       = (x + rx (k + o), y + ry (k + o),
          x + rx (k - 1 + o), y + ry (k - 1 + o), true)
    /\ mstep (x, y, o) = (x + rx (k + o), y + ry (k + o), back (k + o)).
Proof.
  intros (Hl & Ho & Hb & d & Hd).
  destruct (bounded_search (look o x y) 8) as [(k & Hk & Pk & Hlt) | Hall].
  - assert (Hk1 : 1 <= k).
    { destruct (Z.eq_dec k 0) as [->|]; [|lia].
      unfold look in Pk. cbn [Z.add] in Pk. congruence. }
    exists k. split; [lia|]. split; [exact Hlt|]. split; [exact Pk|].
    destruct (range_prefix (k + 1) 8 ltac:(lia)) as [rest Hr].
    assert (Hscan : mscan (Arr.range 8) o x y x y
                    = (x + rx (k + o), y + ry (k + o),
                       x + rx (k - 1 + o), y + ry (k - 1 + o), true)).
    { rewrite Hr, ArrFacts.range_succ by lia.
      replace k with (k - 1 + 1) at 1 by lia.
      rewrite ArrFacts.range_succ by lia. rewrite <- app_assoc. cbn [app].
      apply mscan_hit; [|exact Pk].
      intros a Ha. apply Hlt. apply in_app_or in Ha.
      destruct Ha as [Ha|[<-|[]]]; [apply ArrFacts.in_range in Ha|]; lia. }
    split; [exact Hscan|].
    unfold mstep. rewrite Hscan.
    replace (k - 1 + o) with (k + o - 1) by lia.
    rewrite start_offset_back. reflexivity.
  - exfalso. specialize (Hall ((d - o) mod 8) ltac:(mlia)).
    unfold look in Hall.
    assert (E : ring ((d - o) mod 8 + o) = ring d) by (apply ring_congr; mlia).
    unfold rx, ry in *. rewrite E in Hall. congruence.
Qed.

Lemma good_step (s : state) : good s -> good (mstep s).
Proof.
  destruct s as [[x y] o]. intros Hgood.
  destruct (step_char x y o Hgood) as (k & Hk & Hmiss & Hhit & _ & ->).
  destruct Hgood as (Hl & Ho & Hb & _).
  unfold good. split; [exact Hhit|]. split; [apply back_odd|]. split.
  - destruct (back_vector (k + o)) as [Ex Ey].
    replace (x + rx (k + o) + rx (back (k + o))) with (x + rx (k + o - 1)) by lia.
    replace (y + ry (k + o) + ry (back (k + o))) with (y + ry (k + o - 1)) by lia.
    replace (k + o - 1) with (k - 1 + o) by lia.
    apply (Hmiss (k - 1)). lia.
  - exists (k + o + 4). destruct (opposite (k + o)) as [Ex Ey].
    replace (x + rx (k + o) + rx (k + o + 4)) with x by lia.
    replace (y + ry (k + o) + ry (k + o + 4)) with y by lia.
    exact Hl.
Qed.

Lemma blocked_diagonal (x1 y1 o1 k1 x2 y2 K2 : Z) :
  (o1 = 1 \/ o1 = 3 \/ o1 = 5 \/ o1 = 7) -> 1 <= k1 ->
  (forall j, 0 <= j < k1 -> look o1 x1 y1 j = false) ->
  land x2 y2 = true ->
  x1 + rx (k1 + o1) = x2 + rx K2 -> y1 + ry (k1 + o1) = y2 + ry K2 ->
  (k1 + o1) mod 2 = 1 -> (k1 + o1 + 1) mod 8 = K2 mod 8 ->
  False.
Proof.
  intros Ho Hk Hmiss Hl2 Ex Ey Hodd Hnext.
  destruct (diagonal_step (k1 + o1) Hodd) as [Dx Dy].
  assert (E : ring K2 = ring (k1 + o1 + 1)) by (apply ring_congr; mlia).
  unfold rx, ry in *. rewrite E in Ex, Ey.
  assert (Hk2 : 2 <= k1) by mlia.
  specialize (Hmiss (k1 - 2) ltac:(lia)). unfold look, rx, ry in Hmiss.
  replace (k1 - 2 + o1) with (k1 + o1 - 2) in Hmiss by lia.
  replace (x1 + fst (ring (k1 + o1 - 2))) with x2 in Hmiss by lia.
  replace (y1 + snd (ring (k1 + o1 - 2))) with y2 in Hmiss by lia.
  congruence.
Qed.

(** Two good states with the same successor sit on the same cell. *)
Lemma cell_inj (s1 s2 : state) :
  good s1 -> good s2 -> mstep s1 = mstep s2 -> cell_of s1 = cell_of s2.
Proof.
  destruct s1 as [[x1 y1] o1], s2 as [[x2 y2] o2]. intros G1 G2 E.
  destruct (step_char _ _ _ G1) as (k1 & Hk1 & M1 & H1 & _ & E1).
  destruct (step_char _ _ _ G2) as (k2 & Hk2 & M2 & H2 & _ & E2).
  rewrite E1, E2 in E. inversion E as [[Ex Ey Eb]].
  destruct G1 as (L1 & O1 & _), G2 as (L2 & O2 & _).
  cbn [cell_of fst].
  destruct (back_pairs _ _ Eb) as [Hsame | [[Hodd Hn] | [Hodd Hn]]].
  - assert (Er : ring (k1 + o1) = ring (k2 + o2)) by (apply ring_congr; exact Hsame).
    unfold rx, ry in Ex, Ey. rewrite Er in Ex, Ey. f_equal; lia.
  - exfalso. eapply (blocked_diagonal x1 y1 o1 k1 x2 y2 (k2 + o2)); eauto; lia.
  - exfalso. eapply (blocked_diagonal x2 y2 o2 k2 x1 y1 (k1 + o1)); eauto; lia.
Qed.

(** A state entered by a move cannot have, further round its walk, the
    offset of another such state with the same successor. *)
Lemma no_source (x y o1 k1 o2 k2 : Z) (c : state) :
  (o1 = 1 \/ o1 = 3 \/ o1 = 5 \/ o1 = 7) ->
  (o2 = 1 \/ o2 = 3 \/ o2 = 5 \/ o2 = 7) ->
  (forall j, 0 <= j < k1 -> look o1 x y j = false) ->
  1 <= k2 < k1 -> (k1 + o1) mod 8 = (k2 + o2) mod 8 ->
  good c -> mstep c = (x, y, o2) -> False.
Proof.
  intros O1 O2 Hmiss Hk Hc Gc Ec.
  destruct c as [[x0 y0] o0].
  destruct (step_char _ _ _ Gc) as (k0 & Hk0 & _ & _ & _ & E0).
  rewrite E0 in Ec. inversion Ec as [[Ex Ey Eb]].
  destruct Gc as (L0 & _).
  destruct (opposite (k0 + o0)) as [Px Py].
  assert (Hx0 : x0 = x + rx (k0 + o0 + 4)) by lia.
  assert (Hy0 : y0 = y + ry (k0 + o0 + 4)) by lia.
  destruct (back_source _ _ Eb) as [Hs|Hs].
  - specialize (Hmiss (k1 - k2 - 2) ltac:(mlia)). unfold look in Hmiss.
    assert (E : ring (k1 - k2 - 2 + o1) = ring (k0 + o0 + 4))
      by (apply ring_congr; mlia).
    unfold rx, ry in *. rewrite E in Hmiss. congruence.
  - specialize (Hmiss (k1 - k2 - 1) ltac:(mlia)). unfold look in Hmiss.
    assert (E : ring (k1 - k2 - 1 + o1) = ring (k0 + o0 + 4))
      by (apply ring_congr; mlia).
    unfold rx, ry in *. rewrite E in Hmiss. congruence.
Qed.

(** On the states that have a good predecessor the step is injective. *)
Lemma image_inj (a1 a2 c1 c2 : state) :
  good a1 -> good a2 ->
  good c1 -> mstep c1 = a1 -> good c2 -> mstep c2 = a2 ->
  mstep a1 = mstep a2 -> a1 = a2.
Proof.
  intros G1 G2 Gc1 Ec1 Gc2 Ec2 E.
  pose proof (cell_inj a1 a2 G1 G2 E) as Hcell.
  destruct a1 as [[x y] o1], a2 as [[x' y'] o2]. cbn [cell_of fst] in Hcell.
  inversion Hcell; subst x' y'. clear Hcell.
  destruct (step_char _ _ _ G1) as (k1 & Hk1 & M1 & H1 & _ & E1).
  destruct (step_char _ _ _ G2) as (k2 & Hk2 & M2 & H2 & _ & E2).
  rewrite E1, E2 in E. inversion E as [[Ex Ey Eb]].
  assert (Hmod : (k1 + o1) mod 8 = (k2 + o2) mod 8) by (apply ring_inj; lia).
  destruct G1 as (_ & O1 & _), G2 as (_ & O2 & _).
  destruct (Z.lt_trichotomy k1 k2) as [Hlt | [Heq | Hgt]].
  - exfalso. eapply (no_source x y o2 k2 o1 k1 c1); eauto; try lia.
  - f_equal. mlia.
  - exfalso. eapply (no_source x y o1 k1 o2 k2 c2); eauto; lia.
Qed.

End Walk.

End WalkFacts.

(* ================================================================== *)
(** * Orbits of an injective step on a finite set *)
(* ================================================================== *)

Module OrbitFacts.

Section Orbit.

Context {A : Type}.
Hypothesis eq_dec : forall a b : A, {a = b} + {a <> b}.

Variable f : A -> A.
Variable G : A -> Prop.
Variable L : list A.

Hypothesis G_in : forall a, G a -> In a L.
Hypothesis G_step : forall a, G a -> G (f a).
Hypothesis G_inj :
  forall a1 a2 c1 c2,
    G a1 -> G a2 -> G c1 -> f c1 = a1 -> G c2 -> f c2 = a2 ->
    f a1 = f a2 -> a1 = a2.

(** [n] steps from [a]. *)
Fixpoint iterate (n : nat) (a : A) : A :=
  match n with
  | O => a
  | S k => f (iterate k a)
  end.

Lemma iter_shift (n : nat) (a : A) : iterate n (f a) = f (iterate n a).
Proof. induction n as [|n IH]; cbn; [reflexivity|]. rewrite IH. reflexivity. Qed.

Lemma iter_good (n : nat) (a : A) : G a -> G (iterate n a).
Proof. intros H. induction n as [|n IH]; cbn; auto. Qed.

Lemma dup_split (l : list A) :
  NoDup l \/ exists l1 a l2 l3, l = l1 ++ a :: l2 ++ a :: l3.
Proof.
  induction l as [|a l IH]; [left; constructor|].
  destruct (in_dec eq_dec a l) as [Hin|Hnin].
  - right. apply in_split in Hin. destruct Hin as (l2 & l3 & ->).
    exists [], a, l2, l3. reflexivity.
  - destruct IH as [Hnd | (l1 & b & l2 & l3 & ->)].
    + left. constructor; assumption.
    + right. exists (a :: l1), b, l2, l3. reflexivity.
Qed.

Lemma nth_error_iterates (g : nat -> A) (n i : nat) :
  (i < n)%nat -> nth_error (map g (seq 0 n)) i = Some (g i).
Proof.
  intros H. rewrite nth_error_map, nth_error_seq.
  destruct (Nat.ltb_spec i n); [reflexivity | lia].
Qed.

Lemma iter_collision (s : A) :
  G s ->
  exists i j, (i < j <= length L)%nat /\ iterate i s = iterate j s.
Proof.
  intros Hs. set (g := fun n => iterate n s).
  set (l := map g (seq 0 (S (length L)))).
  assert (Hlen : length l = S (length L)) by (unfold l; rewrite length_map, length_seq; reflexivity).
  destruct (dup_split l) as [Hnd | (l1 & a & l2 & l3 & E)].
  - exfalso.
    assert (Hincl : incl l L).
    { intros x Hx. unfold l in Hx. apply in_map_iff in Hx.
      destruct Hx as (n & <- & _). apply G_in. apply iter_good. exact Hs. }
    pose proof (NoDup_incl_length Hnd Hincl). lia.
  - assert (Hl : length l = (length l1 + S (length l2 + S (length l3)))%nat).
    { rewrite E. rewrite !length_app. cbn [length]. rewrite !length_app.
      cbn [length]. lia. }
    exists (length l1), (length l1 + S (length l2))%nat. split; [lia|].
    assert (H1 : nth_error l (length l1) = Some a).
    { rewrite E. rewrite nth_error_app2 by lia. rewrite Nat.sub_diag. reflexivity. }
    assert (H2 : nth_error l (length l1 + S (length l2)) = Some a).
    { rewrite E. rewrite nth_error_app2 by lia.
      replace (length l1 + S (length l2) - length l1)%nat with (S (length l2)) by lia.
      cbn [nth_error]. rewrite nth_error_app2 by lia. rewrite Nat.sub_diag.
      reflexivity. }
    unfold l in H1, H2.
    rewrite nth_error_iterates in H1, H2 by lia.
    unfold g in *. congruence.
Qed.

Lemma peel (s0 : A) (i d : nat) :
  G s0 ->
  iterate i (f s0) = iterate (i + d) (f s0) ->
  f s0 = iterate d (f s0).
Proof.
  intros Hs. induction i as [|i IH]; intros E; [exact E|].
  apply IH. cbn [iterate Nat.add] in E.
  eapply (G_inj _ _ (iterate i s0) (iterate (i + d) s0)).
  - apply iter_good, G_step, Hs.
  - apply iter_good, G_step, Hs.
  - apply iter_good, Hs.
  - symmetry. apply iter_shift.
  - apply iter_good, Hs.
  - symmetry. apply iter_shift.
  - exact E.
Qed.

(** After its first step the orbit of a good state is periodic. *)
Lemma orbit_periodic (s0 : A) :
  G s0 ->
  exists k, (1 <= k <= length L)%nat /\ iterate k (f s0) = f s0.
Proof.
  intros Hs.
  destruct (iter_collision (f s0) (G_step _ Hs)) as (i & j & Hij & E).
  exists (j - i)%nat. split; [lia|].
  symmetry. apply (peel s0 i); [exact Hs|].
  replace (i + (j - i))%nat with j by lia. exact E.
Qed.

End Orbit.

End OrbitFacts.

(* ================================================================== *)
(** * Contour tracing: the walk comes back *)
(* ================================================================== *)

Module ReturnFacts.

Import Terrain RingFacts WalkFacts OrbitFacts.

Section Return.

Variables (w h : Z) (land : Z -> Z -> bool).
Hypothesis land_valid : forall x y, land x y = true -> 0 <= x < w /\ 0 <= y < h.

Definition all_states : list state :=
  flat_map (fun c => map (fun o => (fst c, snd c, o)) [1; 3; 5; 7])
    (Arr.nest (Arr.range h) (Arr.range w)).

Lemma nest_length (ys xs : list Z) :
  length (Arr.nest ys xs) = (length ys * length xs)%nat.
Proof.
  unfold Arr.nest. induction ys as [|y ys IH]; cbn; [reflexivity|].
  rewrite length_app, length_map, IH. reflexivity.
Qed.

Lemma sides_length (cs : list (Z * Z)) :
  length (flat_map (fun c => map (fun o => (fst c, snd c, o)) [1; 3; 5; 7]) cs)
  = (4 * length cs)%nat.
Proof.
  induction cs as [|c cs IH]; [reflexivity|].
  change (flat_map (fun c => map (fun o => (fst c, snd c, o)) [1; 3; 5; 7]) (c :: cs))
    with (map (fun o => (fst c, snd c, o)) [1; 3; 5; 7]
          ++ flat_map (fun c => map (fun o => (fst c, snd c, o)) [1; 3; 5; 7]) cs).
  rewrite length_app, IH, length_map. cbn [length]. lia.
Qed.

Lemma all_states_length : length all_states = (4 * (Z.to_nat h * Z.to_nat w))%nat.
Proof.
  unfold all_states. rewrite sides_length, nest_length, !ArrFacts.range_length.
  reflexivity.
Qed.

Lemma good_in (s : state) : good land s -> In s all_states.
Proof.
  destruct s as [[x y] o]. intros (Hl & Ho & _).
  apply land_valid in Hl. unfold all_states. apply in_flat_map.
  exists (x, y). split.
  - apply ArrFacts.in_nest. split; apply ArrFacts.in_range; lia.
  - cbn. destruct Ho as [-> | [-> | [-> | ->]]]; auto.
Qed.

Lemma state_eq_dec (a b : state) : {a = b} + {a <> b}.
Proof. repeat decide equality. Qed.

(** The walk started in a good state is back on its first cell after at
    most as many turns as there are states. *)
Lemma walk_returns (s0 : state) :
  good land s0 ->
  exists m, (1 <= m <= length all_states)%nat
            /\ cell_of (iterate (mstep land) m s0) = cell_of s0.
Proof.
  intros Hs.
  destruct (orbit_periodic state_eq_dec (mstep land) (good land) all_states
              good_in (good_step land) (image_inj land) s0 Hs) as (k & Hk & E).
  exists k. split; [exact Hk|].
  destruct k as [|k]; [lia|].
  apply (cell_inj land).
  - apply iter_good; [apply good_step | exact Hs].
  - exact Hs.
  - rewrite <- iter_shift. exact E.
Qed.

End Return.

End ReturnFacts.

(* ================================================================== *)
(** * Contour tracing: the loop of [trace] *)
(* ================================================================== *)

Module TraceFacts.

Import Terrain RingFacts WalkFacts OrbitFacts ReturnFacts.

Section Link.

Variables (w h : Z) (g : grid) (type : Cell).

(** [(x, y)] is inside the grid and its cell has the traced type. *)
Definition of_type (x y : Z) : bool := valid w h x y && is_cell g (x + y * w) type.

Lemma of_type_valid (x y : Z) : of_type x y = true -> 0 <= x < w /\ 0 <= y < h.
Proof.
  unfold of_type. intros H. apply andb_true_iff in H.
  apply GridFacts.valid_iff. tauto.
Qed.

(** A walk from [(x, y)]: the cells entered, in order, each one of the
    traced type and one of the eight neighbours of the cell before it, and
    the cell the walk stands on. *)
Inductive contour (x y : Z) : list Z -> Z -> Z -> Prop :=
  | contour_start : contour x y [] x y
  | contour_move p x' y' dx dy :
      contour x y p x' y' ->
      -1 <= dx <= 1 -> -1 <= dy <= 1 -> dx <> 0 \/ dy <> 0 ->
      of_type (x' + dx) (y' + dy) = true ->
      contour x y (p ++ [(x' + dx) + (y' + dy) * w]) (x' + dx) (y' + dy).

Lemma contour_tip (x y : Z) (p : list Z) (x' y' : Z) :
  contour x y p x' y' ->
  forall l, last (map Some p) None = Some l -> l = x' + y' * w.
Proof.
  intros H. destruct H as [|p x' y' dx dy _ _ _ _ _]; intros l Hl.
  - discriminate.
  - rewrite map_app in Hl. cbn [map] in Hl. rewrite last_last in Hl. congruence.
Qed.

Definition key (t : tracer) : state := (px t, py t, start_offset t).

Lemma moore_ring (k : Z) :
  0 <= k ->
  nth (Z.to_nat (Z.rem k 8)) MOORE_NEIGHBOURHOOD (0, 0) = (rx k, ry k).
Proof.
  intros H. rewrite Z.rem_mod_nonneg by lia. unfold rx, ry, ring.
  apply surjective_pairing.
Qed.

Lemma trace_scan_mscan (ks : list Z) :
  forall o t,
    0 <= o -> (forall i, In i ks -> 0 <= i) ->
    (forall i, In i ks -> look of_type o (px t) (py t) i = true ->
               match last (map Some (path t)) None with
               | Some l => l =? (px t + rx (i + o)) + (py t + ry (i + o)) * w
               | None => false
               end = false) ->
    trace_scan ks w h g type o t
    = let '(x', y', bx', by', found) :=
        mscan of_type ks o (px t) (py t) (bx t) (by_ t) in
      mkTracer x' y' bx' by' (if found then path t ++ [x' + y' * w] else path t).
Proof.
  induction ks as [|i ks IH]; intros o t Ho Hks Hlast.
  - destruct t; reflexivity.
  - cbn [trace_scan mscan].
    rewrite moore_ring by (specialize (Hks i (or_introl eq_refl)); lia).
    cbv beta iota zeta.
    change (valid w h (px t + rx (i + o)) (py t + ry (i + o))
            && is_cell g (px t + rx (i + o) + (py t + ry (i + o)) * w) type)
      with (of_type (px t + rx (i + o)) (py t + ry (i + o))).
    destruct (of_type (px t + rx (i + o)) (py t + ry (i + o))) eqn:E.
    + rewrite (Hlast i (or_introl eq_refl) E). reflexivity.
    + rewrite IH; [reflexivity | exact Ho | | ].
      * intros j Hj. apply Hks. right; exact Hj.
      * intros j Hj. cbn [px py path]. apply Hlast. right; exact Hj.
Qed.

Lemma no_last (x y : Z) (p : list Z) (x' y' k : Z) :
  contour x y p x' y' -> 0 <= x' < w ->
  of_type (x' + rx k) (y' + ry k) = true ->
  match last (map Some p) None with
  | Some l => l =? (x' + rx k) + (y' + ry k) * w
  | None => false
  end = false.
Proof.
  intros Hc Hx Ht. destruct (last (map Some p) None) as [l|] eqn:El; [|reflexivity].
  apply (contour_tip _ _ _ _ _ Hc) in El. subst l.
  apply Z.eqb_neq. intros E.
  apply of_type_valid in Ht.
  destruct (GridFacts.index_inj w _ _ _ _ Hx (proj1 Ht) E) as [Ex Ey].
  destruct (ring_nonzero k); lia.
Qed.

(** One turn of the loop from a good configuration. *)
Lemma turn_char (sx sy : Z) (t : tracer) :
  good of_type (key t) -> contour sx sy (path t) (px t) (py t) ->
  exists t',
    trace_turn w h g type t = t'
    /\ key t' = mstep of_type (key t)
    /\ contour sx sy (path t') (px t') (py t')
    /\ path t' <> [].
Proof.
  intros Hgood Hc.
  destruct (step_char of_type _ _ _ Hgood) as (k & Hk & Hmiss & Hhit & Hscan & Hstep).
  assert (Hx : 0 <= px t < w).
  { destruct Hgood as (Hl & _). apply of_type_valid in Hl. tauto. }
  assert (Ho : 0 <= start_offset t).
  { destruct Hgood as (_ & Ho & _). lia. }
  eexists. split; [reflexivity|].
  unfold trace_turn. rewrite trace_scan_mscan.
  - cbn [px py bx by_ path]. rewrite Hscan.
    split; [|split].
    + unfold key. cbn [px py]. rewrite Hstep.
      replace (k - 1 + start_offset t) with (k + start_offset t - 1) by lia.
      rewrite start_offset_back. reflexivity.
    + cbn [px py path]. destruct (ring_small (k + start_offset t)) as [Rx Ry].
      apply contour_move; try assumption. apply ring_nonzero.
    + cbn [path]. intros E. apply app_eq_nil in E. destruct E; discriminate.
  - exact Ho.
  - intros i Hi. apply ArrFacts.in_range in Hi. lia.
  - intros i Hi Hl. cbn [px py path] in *. eapply no_last; eassumption.
Qed.

Lemma trace_loop_closes (sx sy : Z) (fuel : nat) :
  forall t m,
    good of_type (key t) -> contour sx sy (path t) (px t) (py t) ->
    (1 <= m <= fuel)%nat ->
    cell_of (iterate (mstep of_type) m (key t)) = (sx, sy) ->
    exists p,
      trace_loop fuel w h g type sx sy t = Some p
      /\ p <> [] /\ contour sx sy p sx sy.
Proof.
  induction fuel as [|f IH]; intros t m Hgood Hc Hm Hcell; [lia|].
  cbn [trace_loop].
  destruct (turn_char sx sy t Hgood Hc) as (t' & -> & Hkey & Hc' & Hne).
  destruct ((px t' =? sx) && (py t' =? sy)) eqn:E.
  - apply andb_true_iff in E. destruct E as [Ex Ey].
    apply Z.eqb_eq in Ex, Ey. subst sx sy. eauto.
  - destruct m as [|[|m]]; [lia| |].
    + exfalso. cbn [iterate] in Hcell. rewrite <- Hkey in Hcell.
      unfold key, cell_of in Hcell. cbn [fst] in Hcell.
      inversion Hcell; subst. rewrite !Z.eqb_refl in E. discriminate.
    + apply (IH t' (S m)); try assumption; [|lia|].
      * rewrite Hkey. apply good_step. exact Hgood.
      * rewrite Hkey, iter_shift. exact Hcell.
Qed.

Lemma delta_ring (dx dy : Z) :
  -1 <= dx <= 1 -> -1 <= dy <= 1 -> dx <> 0 \/ dy <> 0 ->
  exists k, rx k = dx /\ ry k = dy.
Proof.
  intros Hx Hy Hn.
  assert (Hc : (dx = -1 \/ dx = 0 \/ dx = 1) /\ (dy = -1 \/ dy = 0 \/ dy = 1)) by lia.
  destruct Hc as [[Ex | [Ex | Ex]] [Ey | [Ey | Ey]]]; subst dx dy.
  - exists 0. split; reflexivity.
  - exists 7. split; reflexivity.
  - exists 6. split; reflexivity.
  - exists 1. split; reflexivity.
  - lia.
  - exists 5. split; reflexivity.
  - exists 2. split; reflexivity.
  - exists 3. split; reflexivity.
  - exists 4. split; reflexivity.
Qed.

(** No neighbour of [(x, y)] is of the traced type. *)
Definition alone (x y : Z) : Prop :=
  forall dx dy, -1 <= dx <= 1 -> -1 <= dy <= 1 -> dx <> 0 \/ dy <> 0 ->
                of_type (x + dx) (y + dy) = false.

Lemma trace_alone (x y : Z) : alone x y -> trace x y w h g type = Some [].
Proof.
  intros Ha. unfold trace, trace_fuel. cbn [trace_loop].
  unfold trace_turn. rewrite trace_scan_mscan.
  - cbn [px py bx by_ path].
    destruct (mscan_miss of_type (Arr.range 8)
                (start_offset (mkTracer x y (x - 1) y [])) x y x y)
      as (bx' & by' & ->).
    + intros i _. unfold look.
      destruct (ring_small (i + start_offset (mkTracer x y (x - 1) y []))) as [Rx Ry].
      apply Ha; try assumption. apply ring_nonzero.
    + cbn [px py path]. rewrite !Z.eqb_refl. reflexivity.
  - unfold start_offset. cbn [px py bx by_]. destruct (x >? x - 1) eqn:E; lia.
  - intros i Hi. apply ArrFacts.in_range in Hi. lia.
  - intros i _ _. reflexivity.
Qed.

Lemma trace_closes (x y : Z) :
  of_type x y = true -> of_type (x - 1) y = false ->
  (exists dx dy, -1 <= dx <= 1 /\ -1 <= dy <= 1 /\ (dx <> 0 \/ dy <> 0)
                 /\ of_type (x + dx) (y + dy) = true) ->
  exists p, trace x y w h g type = Some p /\ p <> [] /\ contour x y p x y.
Proof.
  intros Ht Hw (dx & dy & Hdx & Hdy & Hnz & Hn).
  destruct (delta_ring dx dy Hdx Hdy Hnz) as (d & Ex & Ey).
  set (t0 := mkTracer x y (x - 1) y []).
  assert (Hoff : start_offset t0 = 7).
  { unfold start_offset, t0. cbn [px py bx by_].
    rewrite (proj2 (Z.gtb_lt x (x - 1))) by lia. reflexivity. }
  assert (Hgood : good of_type (key t0)).
  { unfold key. rewrite Hoff. cbn [px py t0]. split; [exact Ht|].
    split; [auto|]. split.
    - change (rx 7) with (-1). change (ry 7) with 0.
      replace (x + -1) with (x - 1) by lia. replace (y + 0) with y by lia. exact Hw.
    - exists d. rewrite Ex, Ey. exact Hn. }
  destruct (walk_returns w h of_type of_type_valid (key t0) Hgood) as (m & Hm & Hcell).
  apply (trace_loop_closes x y (trace_fuel w h) t0 m); try assumption.
  - constructor.
  - rewrite all_states_length in Hm. unfold trace_fuel.
    apply of_type_valid in Ht.
    rewrite !Z2Nat.inj_mul by lia. change (Z.to_nat 4) with 4%nat. lia.
Qed.

End Link.

End TraceFacts.

Module LandScanFacts.

Import Terrain FloodFacts LandFillFacts LandClosureFacts LandFloodFacts TraceFacts.

Definition all_land_tiles (ls : list LandProfile) : list Z := concat (map land_tiles ls).

Lemma all_land_tiles_app (ls : list LandProfile) (l : LandProfile) :
  all_land_tiles (ls ++ [l]) = all_land_tiles ls ++ land_tiles l.
Proof.
  unfold all_land_tiles. rewrite map_app, concat_app. cbn. rewrite app_nil_r.
  reflexivity.
Qed.

Lemma firstn_seq_min (k a n : nat) : firstn k (seq a n) = seq a (Nat.min k n).
Proof.
  revert a n. induction k as [|k IH]; intros a [|n]; cbn; try reflexivity.
  f_equal. apply IH.
Qed.

Lemma range_split_at (n k : Z) (A B : list Z) :
  Arr.range n = A ++ k :: B -> A = Arr.range k.
Proof.
  unfold Arr.range. intros E.
  assert (Hlen : (length A < Z.to_nat n)%nat).
  { apply (f_equal (@length Z)) in E.
    rewrite length_map, length_seq, length_app in E. cbn in E. lia. }
  assert (Hk : k = Z.of_nat (length A)).
  { apply (f_equal (fun l => nth_error l (length A))) in E.
    rewrite nth_error_map, nth_error_seq in E.
    destruct (Nat.ltb_spec (length A) (Z.to_nat n)); [|lia].
    rewrite nth_error_app2, Nat.sub_diag in E by lia. cbn in E. congruence. }
  subst k. rewrite Nat2Z.id.
  apply (f_equal (firstn (length A))) in E.
  rewrite firstn_app, Nat.sub_diag, firstn_all in E. cbn in E. rewrite app_nil_r in E.
  rewrite firstn_map, firstn_seq_min, Nat.min_l in E by lia. symmetry. exact E.
Qed.

Lemma west_in_prefix (w h x y : Z) (l1 l2 : list (Z * Z)) :
  0 <= w -> 0 <= h ->
  Arr.nest (Arr.range h) (Arr.range w) = l1 ++ (x, y) :: l2 ->
  0 < x -> In (x - 1, y) l1.
Proof.
  intros Hw Hh E Hx.
  assert (Hc : forall c, In c (l1 ++ (x, y) :: l2) -> 0 <= fst c < w /\ 0 <= snd c < h).
  { intros [a b] Hin. rewrite <- E in Hin. apply ArrFacts.in_nest in Hin.
    destruct Hin as [Hb Ha]. apply ArrFacts.in_range in Ha, Hb. cbn. lia. }
  pose proof (Hc (x, y) ltac:(apply in_or_app; right; left; reflexivity)) as Hxy.
  cbn [fst snd] in Hxy.
  pose proof (GridFacts.row_major_indices w (Z.to_nat h) Hw) as Hi.
  rewrite Z2Nat.id in Hi by lia. rewrite E, map_app in Hi. cbn [map fst snd] in Hi.
  symmetry in Hi. apply range_split_at in Hi.
  assert (Hin : In (x - 1 + y * w) (map (fun c => fst c + snd c * w) l1)).
  { rewrite Hi. apply ArrFacts.in_range. nia. }
  apply in_map_iff in Hin. destruct Hin as ([a b] & Eab & Hab).
  pose proof (Hc (a, b) ltac:(apply in_or_app; left; exact Hab)) as Hv.
  cbn [fst snd] in *.
  destruct (GridFacts.index_inj w a b (x - 1) y ltac:(lia) ltac:(lia) Eab) as [-> ->].
  exact Hab.
Qed.

Lemma nonzero_offset (dx dy : Z) :
  (dx =? 0) && (dy =? 0) = false <-> dx <> 0 \/ dy <> 0.
Proof.
  destruct (Z.eqb_spec dx 0), (Z.eqb_spec dy 0); cbn; split; intros; try lia;
    try reflexivity; try discriminate.
Qed.

Lemma in_set_add (k n : Z) (t : list Z) : In k (set_add n t) -> k = n \/ In k t.
Proof.
  unfold set_add. destruct (existsb (Z.eqb n) t); [auto|].
  intros H. apply in_app_or in H. destruct H as [H | [<- | []]]; auto.
Qed.

Lemma combine_snoc {A B} (l1 : list A) (l2 : list B) (a : A) (b : B) :
  length l1 = length l2 ->
  combine (l1 ++ [a]) (l2 ++ [b]) = combine l1 l2 ++ [(a, b)].
Proof.
  revert l2. induction l1 as [|x l1 IH]; intros [|y l2] H; cbn in *; try lia.
  - reflexivity.
  - f_equal. apply IH. lia.
Qed.

Lemma in_combine_left {A B} (l1 : list A) (l2 : list B) (a : A) :
  length l1 = length l2 -> In a l1 -> exists b, In (a, b) (combine l1 l2).
Proof.
  revert l2. induction l1 as [|x l1 IH]; intros [|y l2] Hlen Hin; cbn in *;
    try contradiction; try lia.
  destruct Hin as [-> | Hin].
  - exists y. left; reflexivity.
  - destruct (IH l2 ltac:(lia) Hin) as [b Hb]. exists b. right; exact Hb.
Qed.

Lemma in_all_land_tiles (ls : list LandProfile) (L : LandProfile) (n : Z) :
  In L ls -> In n (land_tiles L) -> In n (all_land_tiles ls).
Proof.
  intros HL Hn. unfold all_land_tiles. apply in_concat.
  exists (land_tiles L). split; [apply in_map; exact HL | exact Hn].
Qed.

(** Two lands of a duplicate-free list that share a tile are one land. *)
Lemma shared_tile (ls : list LandProfile) (L1 L2 : LandProfile) (n : Z) :
  NoDup (all_land_tiles ls) -> In L1 ls -> In L2 ls ->
  In n (land_tiles L1) -> In n (land_tiles L2) -> L1 = L2.
Proof.
  unfold all_land_tiles. induction ls as [|L ls IH]; intros Hnd H1 H2 Hn1 Hn2;
    [destruct H1|].
  cbn [map concat] in Hnd.
  pose proof (NoDup_app_remove_l _ _ Hnd) as Hnd'.
  assert (Hdis : forall k, In k (land_tiles L) -> ~ In k (concat (map land_tiles ls))).
  { intros k Hk Hk'. revert Hnd Hk Hk'. clear.
    induction (land_tiles L) as [|a t IHt]; intros Hnd Hk Hk'; [destruct Hk|].
    cbn [app] in Hnd. inversion Hnd as [|? ? Hna Hnd2]; subst.
    destruct Hk as [-> | Hk]; [|auto].
    apply Hna. apply in_or_app. right; exact Hk'. }
  destruct H1 as [<- | H1], H2 as [<- | H2].
  - reflexivity.
  - exfalso. apply (Hdis n Hn1). apply (in_all_land_tiles ls L2); assumption.
  - exfalso. apply (Hdis n Hn2). apply (in_all_land_tiles ls L1); assumption.
  - apply IH; assumption.
Qed.

Section Cells.

Variables (w h : Z) (g : grid).

Lemma of_type_land (x y : Z) :
  of_type w h g LAND x y = true
  <-> (0 <= x < w /\ 0 <= y < h) /\ land g (x + y * w) = true.
Proof.
  unfold of_type, land. rewrite andb_true_iff, GridFacts.valid_iff. tauto.
Qed.

Lemma neighbour_at (x y dx dy : Z) :
  0 <= x < w -> 0 <= y ->
  neighbour w (x + y * w) dx dy = (x + dx) + (y + dy) * w.
Proof.
  intros Hx Hy. unfold neighbour.
  destruct (GridFacts.decode w x y Hx Hy) as [-> ->]. reflexivity.
Qed.

(** [closed] in coordinates. *)
Lemma closed_at (o : list bool) (x y dx dy : Z) :
  0 <= x < w -> 0 <= y ->
  closed w h g o (x + y * w) ->
  -1 <= dx <= 1 -> -1 <= dy <= 1 -> dx <> 0 \/ dy <> 0 ->
  of_type w h g LAND (x + dx) (y + dy) = true ->
  marked o ((x + dx) + (y + dy) * w).
Proof.
  intros Hx Hy Hc Hdx Hdy Hnz Ht.
  apply of_type_land in Ht. destruct Ht as [Hv Hl].
  rewrite <- (neighbour_at x y dx dy Hx Hy).
  apply (Hc (dx, dy)); cbn [fst snd].
  - apply in_deltas. lia.
  - apply nonzero_offset. exact Hnz.
  - destruct (GridFacts.decode w x y Hx Hy) as [-> ->].
    apply GridFacts.valid_iff. exact Hv.
  - rewrite neighbour_at by assumption. exact Hl.
Qed.

Lemma alone_or_not (type : Cell) (x y : Z) :
  alone w h g type x y
  \/ exists dx dy, -1 <= dx <= 1 /\ -1 <= dy <= 1 /\ (dx <> 0 \/ dy <> 0)
                   /\ of_type w h g type (x + dx) (y + dy) = true.
Proof.
  assert (Hdec : forall dx dy,
             of_type w h g type (x + dx) (y + dy) = true
             \/ of_type w h g type (x + dx) (y + dy) = false).
  { intros dx dy. destruct (of_type w h g type (x + dx) (y + dy)); auto. }
  destruct (Hdec (-1) (-1)) as [H1|H1]; [right; exists (-1), (-1); repeat split; auto; lia|].
  destruct (Hdec (-1) 0) as [H2|H2]; [right; exists (-1), 0; repeat split; auto; lia|].
  destruct (Hdec (-1) 1) as [H3|H3]; [right; exists (-1), 1; repeat split; auto; lia|].
  destruct (Hdec 0 (-1)) as [H4|H4]; [right; exists 0, (-1); repeat split; auto; lia|].
  destruct (Hdec 0 1) as [H5|H5]; [right; exists 0, 1; repeat split; auto; lia|].
  destruct (Hdec 1 (-1)) as [H6|H6]; [right; exists 1, (-1); repeat split; auto; lia|].
  destruct (Hdec 1 0) as [H7|H7]; [right; exists 1, 0; repeat split; auto; lia|].
  destruct (Hdec 1 1) as [H8|H8]; [right; exists 1, 1; repeat split; auto; lia|].
  left. intros dx dy Hdx Hdy Hnz.
  assert (Hc : (dx = -1 \/ dx = 0 \/ dx = 1) /\ (dy = -1 \/ dy = 0 \/ dy = 1)) by lia.
  destruct Hc as [[Ex | [Ex | Ex]] [Ey | [Ey | Ey]]]; subst dx dy; try assumption; lia.
Qed.

(** Cell [n] can be walked to from [(x, y)] over land cells. *)
Definition reachable (x y n : Z) : Prop :=
  exists p x' y', contour w h g LAND x y p x' y' /\ n = x' + y' * w.

Lemma contour_valid (x y : Z) (p : list Z) (x' y' : Z) :
  (0 <= x < w /\ 0 <= y < h) -> contour w h g LAND x y p x' y' ->
  0 <= x' < w /\ 0 <= y' < h.
Proof.
  intros Hv Hc. destruct Hc as [|p x' y' dx dy _ _ _ _ Ht]; [exact Hv|].
  apply (of_type_valid _ _ _ _ _ _ Ht).
Qed.

(** The tiles of a land contain every land neighbour of each of them. *)
Definition saturated (t : list Z) : Prop :=
  forall x y dx dy,
    0 <= x < w -> 0 <= y < h -> In (x + y * w) t ->
    -1 <= dx <= 1 -> -1 <= dy <= 1 -> dx <> 0 \/ dy <> 0 ->
    of_type w h g LAND (x + dx) (y + dy) = true ->
    In ((x + dx) + (y + dy) * w) t.

(** A walk over land cells that starts in a saturated set stays in it. *)
Lemma contour_inside (t : list Z) (x y : Z) (p : list Z) (x' y' : Z) :
  saturated t -> (0 <= x < w /\ 0 <= y < h) -> In (x + y * w) t ->
  contour w h g LAND x y p x' y' ->
  (forall k, In k p -> In k t) /\ In (x' + y' * w) t.
Proof.
  intros Hsat Hv Hin Hc. induction Hc as [|p x' y' dx dy Hc IH Hdx Hdy Hnz Ht].
  - split; [intros k []|exact Hin].
  - destruct IH as [IH1 IH2].
    pose proof (contour_valid x y p x' y' Hv Hc) as [Hx' Hy'].
    assert (Hn : In (x' + dx + (y' + dy) * w) t) by (apply Hsat; assumption).
    split; [|exact Hn].
    intros k Hk. apply in_app_or in Hk. destruct Hk as [Hk | [<- | []]]; auto.
Qed.

End Cells.

Section Scan.

Variables (w h : Z) (g : grid).
Hypothesis Hg : length g = Z.to_nat (w * h).
Hypothesis Hw : 0 <= w.
Hypothesis Hh : 0 <= h.

Definition idx (c : Z * Z) : Z := fst c + snd c * w.

Lemma coords (n : Z) :
  0 <= n < w * h -> exists x y, (0 <= x < w /\ 0 <= y < h) /\ n = x + y * w.
Proof.
  intros Hn. assert (0 < w) by nia.
  destruct (GridFacts.cell_of_index w h n Hn ltac:(lia)) as (H1 & H2 & H3).
  exists (n mod w), (n / w). auto.
Qed.

(** A cell beside a land cell is not alone. *)
Lemma beside_not_alone (x y : Z) :
  0 <= x < w -> 0 <= y < h ->
  beside w h (land g) (x + y * w) -> ~ alone w h g LAND x y.
Proof.
  intros Hx Hy (i & dx & dy & Hi & Hd & Hnz & Hv & E) Ha.
  apply in_deltas in Hd. apply nonzero_offset in Hnz.
  apply GridFacts.valid_iff in Hv.
  destruct (coords i (land_bound w h g Hg i Hi)) as (xi & yi & Hvi & Ei).
  subst i. destruct (GridFacts.decode w xi yi (proj1 Hvi) ltac:(lia)) as [Er Eq].
  rewrite Er, Eq in E, Hv.
  destruct (GridFacts.index_inj w x y (xi + dx) (yi + dy) Hx (proj1 Hv) E) as [Ex Ey].
  specialize (Ha (- dx) (- dy) ltac:(lia) ltac:(lia) ltac:(lia)).
  replace (x + - dx) with xi in Ha by lia. replace (y + - dy) with yi in Ha by lia.
  assert (Ht : of_type w h g LAND xi yi = true) by (apply of_type_land; auto).
  congruence.
Qed.

(** The fill started on a cell with no land neighbour marks nothing. *)
Lemma land_visits_alone (x y : Z) (o : list bool) (ds : list (Z * Z)) :
  alone w h g LAND x y -> length o = Z.to_nat (w * h) ->
  (forall d, In d ds -> In d DELTAS) ->
  fold_left (land_visit w h g x y) ds (o, [], []) = (o, [], []).
Proof.
  intros Ha Ho. induction ds as [|d ds IH]; intros Hds; cbn [fold_left]; [reflexivity|].
  destruct (land_visit_cases w h g Hg x y o [] [] d Ho)
    as [-> | (dx & dy & -> & E0 & Ev & El & _ & _)].
  - apply IH. intros d' Hd'. apply Hds. right; exact Hd'.
  - exfalso.
    pose proof (Hds (dx, dy) ltac:(left; reflexivity)) as Hd. apply in_deltas in Hd.
    apply nonzero_offset in E0. apply GridFacts.valid_iff in Ev.
    specialize (Ha dx dy ltac:(lia) ltac:(lia) E0).
    assert (Ht : of_type w h g LAND (x + dx) (y + dy) = true)
      by (apply of_type_land; auto).
    congruence.
Qed.

Lemma land_flood_alone (x y : Z) (o : list bool) :
  0 <= x < w -> 0 <= y ->
  alone w h g LAND x y -> length o = Z.to_nat (w * h) ->
  land_flood (fill_fuel o) w h g (o, [x + y * w], []) = Some (o, [], []).
Proof.
  intros Hx Hy Ha Ho. unfold fill_fuel. cbn [land_flood].
  destruct (GridFacts.decode w x y Hx Hy) as [-> ->].
  rewrite (land_visits_alone x y o DELTAS Ha Ho) by auto. reflexivity.
Qed.

(** Every cell the fill has recorded or has yet to expand can be walked to
    from the cell the fill started at. *)
Definition link_inv (x y : Z) (st : fill_state) : Prop :=
  let '(o, s, t) := st in
  length o = Z.to_nat (w * h)
  /\ (forall n, In n t -> reachable w h g x y n)
  /\ (forall i, In i s -> reachable w h g x y i).

Lemma link_visit (x y i : Z) (st : fill_state) (d : Z * Z) :
  (0 <= x < w /\ 0 <= y < h) -> In d DELTAS -> reachable w h g x y i ->
  link_inv x y st ->
  link_inv x y (land_visit w h g (Z.rem i w) (Z.quot i w) st d).
Proof.
  intros Hv Hd (p & x' & y' & Hc & ->). destruct st as [[o s] t].
  intros (Hl & Ht & Hs).
  pose proof (contour_valid w h g x y p x' y' Hv Hc) as [Hx' Hy'].
  destruct (GridFacts.decode w x' y' Hx' ltac:(lia)) as [-> ->].
  destruct (land_visit_cases w h g Hg x' y' o s t d Hl)
    as [-> | (dx & dy & -> & E0 & Ev & El & _ & ->)].
  - exact (conj Hl (conj Ht Hs)).
  - apply in_deltas in Hd. apply nonzero_offset in E0.
    apply GridFacts.valid_iff in Ev.
    assert (Hn : reachable w h g x y (x' + dx + (y' + dy) * w)).
    { exists (p ++ [x' + dx + (y' + dy) * w]), (x' + dx), (y' + dy).
      split; [|reflexivity].
      apply contour_move; try assumption; try lia.
      apply of_type_land. auto. }
    split; [rewrite ArrFacts.upd_length; exact Hl|]. split.
    + intros n Hin. apply in_set_add in Hin. destruct Hin as [-> | Hin]; auto.
    + intros k [<- | Hin]; auto.
Qed.

Lemma link_visits (x y i : Z) (ds : list (Z * Z)) :
  (0 <= x < w /\ 0 <= y < h) -> (forall d, In d ds -> In d DELTAS) ->
  reachable w h g x y i ->
  forall st, link_inv x y st ->
             link_inv x y (fold_left (land_visit w h g (Z.rem i w) (Z.quot i w)) ds st).
Proof.
  intros Hv Hds Hi. induction ds as [|d ds IH]; intros st Hst; cbn [fold_left];
    [exact Hst|].
  apply IH.
  - intros d' Hd'. apply Hds. right; exact Hd'.
  - apply link_visit; auto. apply Hds. left; reflexivity.
Qed.

Lemma link_flood (x y : Z) (fuel : nat) :
  (0 <= x < w /\ 0 <= y < h) ->
  forall st st', link_inv x y st -> land_flood fuel w h g st = Some st' ->
                 link_inv x y st'.
Proof.
  intros Hv. induction fuel as [|f IH]; intros [[o s] t] st' Hinv H;
    cbn [land_flood] in H.
  - destruct s as [|i s]; [|discriminate]. inversion H; subst. exact Hinv.
  - destruct s as [|i s]; [inversion H; subst; exact Hinv|].
    apply IH in H; [exact H|].
    destruct Hinv as (Hl & Ht & Hs).
    apply link_visits; auto.
    + apply Hs. left; reflexivity.
    + split; [exact Hl|]. split; [exact Ht|]. intros k Hk. apply Hs. right; exact Hk.
Qed.

(** What the scan records for a fill started at [seed]. *)
Definition region_ok (seed : Z) (L : LandProfile) : Prop :=
  exists x y,
    seed = x + y * w /\ of_type w h g LAND x y = true
    /\ (forall n, In n (land_tiles L) -> reachable w h g x y n)
    /\ ((alone w h g LAND x y /\ land_tiles L = [] /\ land_path L = [])
        \/ (~ alone w h g LAND x y /\ In seed (land_tiles L)
            /\ land_path L <> [] /\ contour w h g LAND x y (land_path L) x y)).

Record land_scan_inv (done : list (Z * Z)) (s : land_scan) : Prop := mk_land_scan_inv
  { seen_length : length (seen_of s) = Z.to_nat (w * h);
    seen_land : forall n, marked (seen_of s) n ->
                  land g n = true /\ closed w h g (seen_of s) n
                  /\ beside w h (land g) n;
    done_closed : forall c, In c done -> land g (idx c) = true ->
                    closed w h g (seen_of s) (idx c)
                    /\ (marked (seen_of s) (idx c) \/ In (idx c) (land_starts s));
    seen_tiles : forall n, marked (seen_of s) n <-> In n (all_land_tiles (lands_of s));
    tiles_nodup : NoDup (all_land_tiles (lands_of s));
    tiles_saturated : forall L, In L (lands_of s) -> saturated w h g (land_tiles L);
    ids_in_order : map land_id (lands_of s)
                   = Arr.range (Z.of_nat (length (lands_of s)));
    next_id : currentLandId s = Z.of_nat (length (lands_of s));
    starts_length : length (land_starts s) = length (lands_of s);
    regions_ok : forall seed L,
                   In (seed, L) (combine (land_starts s) (lands_of s)) ->
                   region_ok seed L }.

(** The cell west of a cell at which a fill starts is not land. *)
Lemma west_not_land (l1 l2 : list (Z * Z)) (s : land_scan) (x y : Z) :
  Arr.nest (Arr.range h) (Arr.range w) = l1 ++ (x, y) :: l2 ->
  land_scan_inv l1 s ->
  0 <= x < w -> 0 <= y < h ->
  land g (x + y * w) = true -> ~ marked (seen_of s) (x + y * w) ->
  of_type w h g LAND (x - 1) y = false.
Proof.
  intros E Hinv Hx Hy Hl Hm.
  destruct (of_type w h g LAND (x - 1) y) eqn:Et; [exfalso|reflexivity].
  apply of_type_land in Et. destruct Et as [Hv Hlw].
  pose proof (west_in_prefix w h x y l1 l2 Hw Hh E ltac:(lia)) as Hin.
  destruct (done_closed _ _ Hinv (x - 1, y) Hin Hlw) as [Hc _].
  unfold idx in Hc. cbn [fst snd] in Hc.
  apply Hm.
  pose proof (closed_at w h g (seen_of s) (x - 1) y 1 0 ltac:(lia) ltac:(lia) Hc
                ltac:(lia) ltac:(lia) ltac:(lia)) as H.
  replace (x - 1 + 1) with x in H by lia. replace (y + 0) with y in H by lia.
  apply H. apply of_type_land. auto.
Qed.

Lemma land_scan_cell_inv (l1 l2 : list (Z * Z)) (s : land_scan) (c : Z * Z) :
  Arr.nest (Arr.range h) (Arr.range w) = l1 ++ c :: l2 ->
  land_scan_inv l1 s ->
  exists s', land_scan_cell w h g (Some s) c = Some s' /\ land_scan_inv (l1 ++ [c]) s'.
Proof.
  intros E Hinv. destruct c as [x y].
  assert (Hxy : 0 <= x < w /\ 0 <= y < h).
  { assert (Hin : In (x, y) (Arr.nest (Arr.range h) (Arr.range w)))
      by (rewrite E; apply in_or_app; right; left; reflexivity).
    apply ArrFacts.in_nest in Hin. destruct Hin as [Hb Ha].
    apply ArrFacts.in_range in Ha, Hb. lia. }
  destruct Hxy as [Hx Hy].
  pose proof (GridFacts.index_bound w h x y Hx Hy) as Hb.
  unfold land_scan_cell.
  set (i := x + y * w) in *.
  destruct (is_cell g i WATER) eqn:Ew.
  { exists s. split; [reflexivity|]. destruct Hinv. constructor; auto.
    intros c Hc Hl. apply in_app_or in Hc. destruct Hc as [Hc | [<- | []]]; [auto|].
    unfold idx in Hl. cbn [fst snd] in Hl. fold i in Hl.
    apply (land_not_water g) in Hl. congruence. }
  assert (Hl : land g i = true) by (apply (not_water_land w h g Hg); assumption).
  destruct (ArrFacts.get_in_bound i (seen_of s)
              ltac:(rewrite (seen_length _ _ Hinv); lia)) as [b Eb].
  rewrite Eb. destruct b.
  { exists s. split; [reflexivity|]. destruct Hinv. constructor; auto.
    intros c Hc Hlc. apply in_app_or in Hc. destruct Hc as [Hc | [<- | []]]; [auto|].
    unfold idx. cbn [fst snd]. fold i. split; [|left; exact Eb].
    apply seen_land0. exact Eb. }
  assert (Hnm : ~ marked (seen_of s) i) by (unfold marked; congruence).
  pose proof (west_not_land l1 l2 s x y E Hinv Hx Hy Hl Hnm) as Hwest.
  assert (Htype : of_type w h g LAND x y = true) by (apply of_type_land; auto).
  destruct (land_flood_returns w h g Hg (fill_fuel (seen_of s)) (seen_of s, [i], []))
    as [[[o' s'] t'] Hf].
  { exact (seen_length _ _ Hinv). }
  { cbn [land_potential length]. pose proof (unmarked_count_le (seen_of s)).
    unfold fill_fuel. lia. }
  rewrite Hf.
  assert (J0 : land_fill_inv w h g (seen_of s) i None (seen_of s, [i], [])).
  { split; [exact (seen_length _ _ Hinv)|]. split; [intros n Hn; exact Hn|].
    split; [auto|]. split; [intros n []|]. split; [constructor|].
    split; [intros k [<-|[]]; exact Hl|].
    intros n [Hn | ->]; [|right; left; left; reflexivity].
    right; right. apply (seen_land _ _ Hinv). exact Hn. }
  destruct (land_flood_inv w h g Hg (seen_of s) i _ _ _ J0 Hf)
    as [(Jl & Jmono & Jsrc & Jt & Jnd & _ & Jcl) Jstack].
  cbn [fst snd] in Jstack. subst s'.
  assert (Jclosed : forall n, marked o' n \/ n = i -> closed w h g o' n).
  { intros n Hn. destruct (Jcl n Hn) as [Hk | [[] | Hk]]; [discriminate | exact Hk]. }
  assert (Jlink : forall n, In n t' -> reachable w h g x y n).
  { apply (link_flood x y _ (conj Hx Hy) _ _) in Hf; [apply Hf|].
    split; [exact (seen_length _ _ Hinv)|]. split; [intros n []|].
    intros k [<- | []]. exists [], x, y. split; [constructor | reflexivity]. }
  assert (Hregion : exists p,
             trace x y w h g LAND = Some p
             /\ region_ok i (mkLand (currentLandId s) t' p)).
  { destruct (alone_or_not w h g LAND x y) as [Ha | Hnb].
    - exists []. split; [apply trace_alone; exact Ha|].
      exists x, y. split; [reflexivity|]. split; [exact Htype|].
      split; [exact Jlink|]. left.
      pose proof (land_flood_alone x y (seen_of s) Hx ltac:(lia) Ha
                    (seen_length _ _ Hinv)) as Hf'.
      fold i in Hf'. rewrite Hf in Hf'. inversion Hf'; subst. auto.
    - destruct (trace_closes w h g LAND x y Htype Hwest Hnb) as (p & Ep & Hp & Hc).
      exists p. split; [exact Ep|].
      exists x, y. split; [reflexivity|]. split; [exact Htype|].
      split; [exact Jlink|]. right.
      cbn [land_tiles land_path].
      destruct Hnb as (dx & dy & Hdx & Hdy & Hnz & Hn).
      split.
      { intros Ha. rewrite (Ha dx dy Hdx Hdy Hnz) in Hn. discriminate. }
      split; [|auto].
      pose proof (closed_at w h g o' x y dx dy Hx ltac:(lia)
                    (Jclosed i (or_intror eq_refl)) Hdx Hdy Hnz Hn) as Hm.
      pose proof (of_type_valid _ _ _ _ _ _ Hn) as [Hvx Hvy].
      pose proof (closed_at w h g o' (x + dx) (y + dy) (- dx) (- dy) Hvx ltac:(lia)
                    (Jclosed _ (or_introl Hm)) ltac:(lia) ltac:(lia) ltac:(lia)) as Hm'.
      replace (x + dx + - dx) with x in Hm' by lia.
      replace (y + dy + - dy) with y in Hm' by lia.
      specialize (Hm' Htype). fold i in Hm'.
      destruct (Jsrc i Hm') as [H|H]; [contradiction | exact H]. }
  destruct Hregion as (p & -> & Hreg).
  eexists. split; [reflexivity|].
  destruct Hinv as [Il Iland Idone Itiles Ind Isat Iids Inext Istarts Iregs].
  constructor; cbn [seen_of lands_of land_starts currentLandId].
  - exact Jl.
  - intros n Hn. split; [|split; [apply Jclosed; left; exact Hn|]].
    + destruct (Jsrc n Hn) as [H|H]; [apply Iland; exact H | apply Jt; exact H].
    + destruct (Jsrc n Hn) as [H|H]; [apply Iland; exact H | apply Jt; exact H].
  - intros c Hc Hlc. apply in_app_or in Hc. destruct Hc as [Hc | [<- | []]].
    + destruct (Idone c Hc Hlc) as [H1 H2]. split.
      * apply (closed_grows w h g (seen_of s)); assumption.
      * destruct H2 as [H2|H2]; [left; apply Jmono; exact H2|].
        right. apply in_or_app. left; exact H2.
    + unfold idx. cbn [fst snd]. fold i. split; [apply Jclosed; right; reflexivity|].
      right. apply in_or_app. right; left; reflexivity.
  - intros n. rewrite all_land_tiles_app, in_app_iff, <- Itiles. cbn [land_tiles].
    split.
    + intros Hn. apply Jsrc in Hn. tauto.
    + intros [Hn|Hn]; [auto | apply Jt; exact Hn].
  - rewrite all_land_tiles_app. cbn [land_tiles].
    apply NoDup_app; [exact Ind | exact Jnd |].
    intros n Hn Hn'. apply Itiles in Hn. apply Jt in Hn'. tauto.
  - intros L HL. apply in_app_or in HL. destruct HL as [HL | [<- | []]]; [auto|].
    cbn [land_tiles]. intros a b dx dy Ha Hb' Hin Hdx Hdy Hnz Hn.
    destruct (Jt _ Hin) as (Hm & Hfresh & _).
    pose proof (closed_at w h g o' a b dx dy Ha ltac:(lia) (Jclosed _ (or_introl Hm))
                  Hdx Hdy Hnz Hn) as Hm'.
    destruct (Jsrc _ Hm') as [Hold | Hnew]; [exfalso | exact Hnew].
    apply Hfresh.
    pose proof (of_type_valid _ _ _ _ _ _ Hn) as [Hvx Hvy].
    destruct (Iland _ Hold) as (_ & Hc & _).
    pose proof (closed_at w h g (seen_of s) (a + dx) (b + dy) (- dx) (- dy) Hvx ltac:(lia)
                  Hc ltac:(lia) ltac:(lia) ltac:(lia)) as Hback.
    replace (a + dx + - dx) with a in Hback by lia.
    replace (b + dy + - dy) with b in Hback by lia.
    apply Hback. apply of_type_land. split; [auto|]. apply Jt. exact Hin.
  - rewrite length_app, map_app. cbn [length map land_id].
    replace (Z.of_nat (length (lands_of s) + 1))
      with (Z.of_nat (length (lands_of s)) + 1) by lia.
    rewrite ArrFacts.range_succ by lia. rewrite Iids, Inext. reflexivity.
  - rewrite length_app. cbn [length]. lia.
  - rewrite !length_app. cbn [length]. lia.
  - intros seed L. rewrite combine_snoc by exact Istarts.
    intros Hin. apply in_app_or in Hin. destruct Hin as [Hin | [Hin | []]]; [auto|].
    inversion Hin; subst. exact Hreg.
Qed.

Lemma land_scan_cells_inv (l2 : list (Z * Z)) :
  forall l1 s,
    Arr.nest (Arr.range h) (Arr.range w) = l1 ++ l2 ->
    land_scan_inv l1 s ->
    exists s',
      fold_left (land_scan_cell w h g) l2 (Some s) = Some s'
      /\ land_scan_inv (l1 ++ l2) s'.
Proof.
  induction l2 as [|c l2 IH]; intros l1 s E Hinv; cbn [fold_left].
  - exists s. rewrite app_nil_r. auto.
  - destruct (land_scan_cell_inv l1 l2 s c E Hinv) as (s1 & -> & H1).
    destruct (IH (l1 ++ [c]) s1) as (s2 & -> & H2).
    + rewrite <- app_assoc. exact E.
    + exact H1.
    + exists s2. rewrite <- app_assoc in H2. auto.
Qed.

Lemma land_scan_inv_init :
  land_scan_inv [] {| currentLandId := 0; seen_of := repeat false (Z.to_nat (w * h));
                 lands_of := []; land_starts := [] |}.
Proof.
  assert (Hnone : forall n, ~ marked (repeat false (Z.to_nat (w * h))) n).
  { intros n Hn. unfold marked in Hn.
    pose proof (ArrFacts.get_some_bound _ _ _ Hn) as Hb.
    rewrite repeat_length in Hb. rewrite ArrFacts.get_repeat in Hn by lia.
    discriminate. }
  constructor; cbn [seen_of lands_of land_starts currentLandId length map combine].
  - apply repeat_length.
  - intros n Hn. destruct (Hnone n Hn).
  - intros c [].
  - intros n. split; [intros Hn; destruct (Hnone n Hn) | intros []].
  - constructor.
  - intros L [].
  - reflexivity.
  - reflexivity.
  - reflexivity.
  - intros seed L [].
Qed.

(** The scan of [detectLands] completes on a grid that holds a cell for
    every position. *)
Lemma detectLands_scan_returns :
  exists s,
    detectLands_scan w h g = Some s
    /\ land_scan_inv (Arr.nest (Arr.range h) (Arr.range w)) s.
Proof.
  unfold detectLands_scan. rewrite ArrFacts.alloc_nonneg by nia.
  destruct (land_scan_cells_inv (Arr.nest (Arr.range h) (Arr.range w)) [] _ eq_refl
              land_scan_inv_init) as (s & -> & Hs).
  exists s. auto.
Qed.

End Scan.

End LandScanFacts.

Module LandResults.

Import Terrain FloodFacts LandFillFacts LandClosureFacts TraceFacts LandScanFacts.

Definition strip_2x1 : grid := [LAND; LAND].

Definition lone_land_3x3 : grid :=
  [WATER; WATER; WATER; WATER; LAND; WATER; WATER; WATER; WATER].

(** X15: On a grid that holds a cell for every position [detectLands] returns:
    neither a fill nor the tracing of an outline runs for ever.  The lands
    are numbered 0, 1, 2, ... in the order found. *)
Theorem detectLands_returns_numbered_lands (w h : Z) (g : grid) :
  length g = Z.to_nat (w * h) -> 0 <= w -> 0 <= h ->
  exists ls,
    detectLands w h g = Some ls
    /\ map land_id ls = Arr.range (Z.of_nat (length ls)).
Proof.
  intros Hg Hw Hh.
  destruct (detectLands_scan_returns w h g Hg Hw Hh) as (s & E & Hs).
  unfold detectLands. rewrite E. exists (lands_of s).
  split; [reflexivity | exact (ids_in_order _ _ _ _ _ Hs)].
Qed.

Lemma detectLands_returns_numbered_lands_witness :
  exists ls,
    detectLands 2 1 strip_2x1 = Some ls
    /\ map land_id ls = Arr.range (Z.of_nat (length ls)).
Proof.
  apply (detectLands_returns_numbered_lands 2 1 strip_2x1); [reflexivity | lia | lia].
Defined.

(** X16: The tiles of the lands together are exactly the LAND cells that have a
    LAND cell among their eight neighbours; no tile is listed twice, in one
    land or in two. *)
Theorem detectLands_tiles_are_grouped_land (w h : Z) (g : grid)
  (ls : list LandProfile) :
  length g = Z.to_nat (w * h) -> 0 <= w -> 0 <= h ->
  detectLands w h g = Some ls ->
  NoDup (all_land_tiles ls)
  /\ (forall n, In n (all_land_tiles ls) -> 0 <= n < w * h)
  /\ (forall x y,
        0 <= x < w -> 0 <= y < h ->
        (In (x + y * w) (all_land_tiles ls)
         <-> of_type w h g LAND x y = true /\ ~ alone w h g LAND x y)).
Proof.
  intros Hg Hw Hh H.
  destruct (detectLands_scan_returns w h g Hg Hw Hh) as (s & E & Hs).
  unfold detectLands in H. rewrite E in H. inversion H; subst ls. clear H.
  destruct Hs as [Il Iland Idone Itiles Ind Isat Iids Inext Istarts Iregs].
  split; [exact Ind|]. split.
  { intros n Hn. apply Itiles, Iland in Hn. apply (land_bound w h g Hg). tauto. }
  intros x y Hx Hy. split.
  - intros Hn. apply Itiles, Iland in Hn. destruct Hn as (Hl & _ & Hb).
    split; [apply of_type_land; auto|].
    apply beside_not_alone; assumption.
  - intros [Ht Hna]. apply of_type_land in Ht. destruct Ht as [_ Hl].
    assert (Hin : In (x, y) (Arr.nest (Arr.range h) (Arr.range w))).
    { apply ArrFacts.in_nest. split; apply ArrFacts.in_range; lia. }
    destruct (Idone (x, y) Hin Hl) as [_ [Hm | Hst]]; [apply Itiles; exact Hm|].
    unfold idx in Hst. cbn [fst snd] in Hst.
    destruct (in_combine_left _ (lands_of s) _ Istarts Hst) as [L HL].
    destruct (Iregs _ _ HL) as (x' & y' & Exy & Ht' & _ & Hcase).
    pose proof (of_type_valid _ _ _ _ _ _ Ht') as [Hx' Hy'].
    destruct (GridFacts.index_inj w x y x' y' Hx Hx' Exy) as [<- <-].
    destruct Hcase as [[Ha _] | (_ & Hseed & _)]; [contradiction|].
    apply (in_all_land_tiles _ L); [|exact Hseed].
    apply in_combine_r in HL. exact HL.
Qed.

Lemma detectLands_tiles_are_grouped_land_witness :
  NoDup (all_land_tiles [mkLand 0 [1; 0] [1; 0]])
  /\ (forall n, In n (all_land_tiles [mkLand 0 [1; 0] [1; 0]]) -> 0 <= n < 2 * 1)
  /\ (forall x y,
        0 <= x < 2 -> 0 <= y < 1 ->
        (In (x + y * 2) (all_land_tiles [mkLand 0 [1; 0] [1; 0]])
         <-> of_type 2 1 strip_2x1 LAND x y = true
             /\ ~ alone 2 1 strip_2x1 LAND x y)).
Proof.
  apply (detectLands_tiles_are_grouped_land 2 1 strip_2x1);
    [reflexivity | lia | lia | vm_compute; reflexivity].
Defined.

(** X17: Each land is a whole connected piece: its fill started at a LAND cell,
    and its tiles are exactly the cells that a walk over LAND cells, by
    steps to one of the eight neighbours, reaches from that cell; unless
    that cell has no LAND neighbour, when the land has no tile at all. *)
Theorem detectLands_land_is_component (w h : Z) (g : grid)
  (sl : list (Z * LandProfile)) (seed : Z) (L : LandProfile) :
  length g = Z.to_nat (w * h) -> 0 <= w -> 0 <= h ->
  detectLands_seeded w h g = Some sl -> In (seed, L) sl ->
  exists x y,
    seed = x + y * w /\ of_type w h g LAND x y = true
    /\ forall n, In n (land_tiles L)
                 <-> ~ alone w h g LAND x y /\ reachable w h g x y n.
Proof.
  intros Hg Hw Hh H Hin.
  destruct (detectLands_scan_returns w h g Hg Hw Hh) as (s & E & Hs).
  unfold detectLands_seeded in H. rewrite E in H. inversion H; subst sl. clear H.
  destruct (regions_ok _ _ _ _ _ Hs _ _ Hin) as (x & y & Exy & Ht & Hlink & Hcase).
  exists x, y. split; [exact Exy|]. split; [exact Ht|].
  pose proof (of_type_valid _ _ _ _ _ _ Ht) as Hv.
  intros n. split.
  - intros Hn. split; [|apply Hlink; exact Hn].
    destruct Hcase as [(_ & Hnil & _) | (Hna & _)]; [|exact Hna].
    rewrite Hnil in Hn. destruct Hn.
  - intros [Hna (p & x' & y' & Hc & ->)].
    destruct Hcase as [[Ha _] | (_ & Hseed & _)]; [contradiction|].
    apply in_combine_r in Hin.
    apply (contour_inside w h g (land_tiles L) x y p x' y'); auto.
    + apply (tiles_saturated _ _ _ _ _ Hs). exact Hin.
    + rewrite <- Exy. exact Hseed.
Qed.

Lemma detectLands_land_is_component_witness :
  exists x y,
    0 = x + y * 2 /\ of_type 2 1 strip_2x1 LAND x y = true
    /\ forall n, In n (land_tiles (mkLand 0 [1; 0] [1; 0]))
                 <-> ~ alone 2 1 strip_2x1 LAND x y
                     /\ reachable 2 1 strip_2x1 x y n.
Proof.
  apply (detectLands_land_is_component 2 1 strip_2x1 [(0, mkLand 0 [1; 0] [1; 0])]);
    [reflexivity | lia | lia | vm_compute; reflexivity | left; reflexivity].
Defined.

(** X18: The outline of a land that has tiles is a closed walk: it is not empty,
    it steps from the cell the fill started at through cells of the land,
    each one of the eight neighbours of the one before, and it ends on the
    cell it started from. *)
Theorem detectLands_outline_is_closed_walk (w h : Z) (g : grid)
  (sl : list (Z * LandProfile)) (seed : Z) (L : LandProfile) :
  length g = Z.to_nat (w * h) -> 0 <= w -> 0 <= h ->
  detectLands_seeded w h g = Some sl -> In (seed, L) sl ->
  land_tiles L <> [] ->
  exists x y,
    seed = x + y * w
    /\ contour w h g LAND x y (land_path L) x y
    /\ last (map Some (land_path L)) None = Some seed
    /\ forall k, In k (land_path L) -> In k (land_tiles L).
Proof.
  intros Hg Hw Hh H Hin Hne.
  destruct (detectLands_scan_returns w h g Hg Hw Hh) as (s & E & Hs).
  unfold detectLands_seeded in H. rewrite E in H. inversion H; subst sl. clear H.
  destruct (regions_ok _ _ _ _ _ Hs _ _ Hin) as (x & y & Exy & Ht & _ & Hcase).
  destruct Hcase as [(_ & Hnil & _) | (_ & Hseed & Hp & Hc)]; [contradiction|].
  exists x, y. split; [exact Exy|]. split; [exact Hc|].
  pose proof (of_type_valid _ _ _ _ _ _ Ht) as Hv.
  split.
  - destruct (exists_last Hp) as (p & k & Ep). rewrite Ep in Hc |- *.
    rewrite map_app. cbn [map]. rewrite last_last.
    f_equal. rewrite Exy. apply (contour_tip w h g LAND x y _ x y Hc).
    rewrite map_app. cbn [map]. rewrite last_last. reflexivity.
  - apply in_combine_r in Hin.
    apply (contour_inside w h g (land_tiles L) x y (land_path L) x y); auto.
    + apply (tiles_saturated _ _ _ _ _ Hs). exact Hin.
    + rewrite <- Exy. exact Hseed.
Qed.

Lemma detectLands_outline_is_closed_walk_witness :
  exists x y,
    0 = x + y * 2
    /\ contour 2 1 strip_2x1 LAND x y (land_path (mkLand 0 [1; 0] [1; 0])) x y
    /\ last (map Some (land_path (mkLand 0 [1; 0] [1; 0]))) None = Some 0
    /\ forall k, In k (land_path (mkLand 0 [1; 0] [1; 0]))
                 -> In k (land_tiles (mkLand 0 [1; 0] [1; 0])).
Proof.
  apply (detectLands_outline_is_closed_walk 2 1 strip_2x1
           [(0, mkLand 0 [1; 0] [1; 0])]);
    [reflexivity | lia | lia | vm_compute; reflexivity | left; reflexivity
    | discriminate].
Defined.

(** X19: A LAND cell with no LAND cell among its eight neighbours becomes a land
    of its own whose tile set and outline are both empty: the cell a fill
    starts at is recorded only when a neighbour leads back to it. *)
Theorem detectLands_lone_cell_has_no_tiles (w h : Z) (g : grid) (x y : Z) :
  length g = Z.to_nat (w * h) -> 0 <= w -> 0 <= h ->
  of_type w h g LAND x y = true -> alone w h g LAND x y ->
  exists sl L,
    detectLands_seeded w h g = Some sl
    /\ In (x + y * w, L) sl /\ land_tiles L = [] /\ land_path L = [].
Proof.
  intros Hg Hw Hh Ht Ha.
  destruct (detectLands_scan_returns w h g Hg Hw Hh) as (s & E & Hs).
  unfold detectLands_seeded. rewrite E. cbn [option_map].
  pose proof (of_type_valid _ _ _ _ _ _ Ht) as [Hx Hy].
  pose proof Ht as Ht0. apply of_type_land in Ht. destruct Ht as [_ Hl].
  assert (Hin : In (x, y) (Arr.nest (Arr.range h) (Arr.range w))).
  { apply ArrFacts.in_nest. split; apply ArrFacts.in_range; lia. }
  destruct (done_closed _ _ _ _ _ Hs (x, y) Hin Hl) as [_ [Hm | Hst]].
  { exfalso. unfold idx in Hm. cbn [fst snd] in Hm.
    apply (seen_land _ _ _ _ _ Hs) in Hm. destruct Hm as (_ & _ & Hb).
    exact (beside_not_alone w h g Hg Hh x y Hx Hy Hb Ha). }
  unfold idx in Hst. cbn [fst snd] in Hst.
  destruct (in_combine_left _ (lands_of s) _ (starts_length _ _ _ _ _ Hs) Hst)
    as [L HL].
  exists (combine (land_starts s) (lands_of s)), L.
  split; [reflexivity|]. split; [exact HL|].
  destruct (regions_ok _ _ _ _ _ Hs _ _ HL) as (x' & y' & Exy & Ht' & _ & Hcase).
  pose proof (of_type_valid _ _ _ _ _ _ Ht') as [Hx' Hy'].
  destruct (GridFacts.index_inj w x y x' y' Hx Hx' Exy) as [<- <-].
  destruct Hcase as [(_ & H1 & H2) | (Hna & _)]; [auto | contradiction].
Qed.

Lemma detectLands_lone_cell_has_no_tiles_witness :
  exists sl L,
    detectLands_seeded 3 3 lone_land_3x3 = Some sl
    /\ In (1 + 1 * 3, L) sl /\ land_tiles L = [] /\ land_path L = [].
Proof.
  apply (detectLands_lone_cell_has_no_tiles 3 3 lone_land_3x3 1 1);
    [reflexivity | lia | lia | reflexivity |].
  intros dx dy Hdx Hdy Hnz.
  assert (Hc : (dx = -1 \/ dx = 0 \/ dx = 1) /\ (dy = -1 \/ dy = 0 \/ dy = 1)) by lia.
  destruct Hc as [[Ex | [Ex | Ex]] [Ey | [Ey | Ey]]]; subst dx dy;
    try reflexivity; lia.
Defined.

(** X20: Two different lands never touch: no tile of one is among the eight
    neighbours of a tile of the other. *)
Theorem detectLands_lands_never_touch (w h : Z) (g : grid)
  (ls : list LandProfile) (L1 L2 : LandProfile) (x y dx dy : Z) :
  length g = Z.to_nat (w * h) -> 0 <= w -> 0 <= h ->
  detectLands w h g = Some ls ->
  In L1 ls -> In L2 ls ->
  0 <= x < w -> 0 <= y < h -> In (x + y * w) (land_tiles L1) ->
  -1 <= dx <= 1 -> -1 <= dy <= 1 ->
  0 <= x + dx < w -> 0 <= y + dy < h ->
  In ((x + dx) + (y + dy) * w) (land_tiles L2) ->
  L1 = L2.
Proof.
  intros Hg Hw Hh H H1 H2 Hx Hy Hn1 Hdx Hdy Hx' Hy' Hn2.
  destruct (detectLands_scan_returns w h g Hg Hw Hh) as (s & E & Hs).
  unfold detectLands in H. rewrite E in H. inversion H; subst ls. clear H.
  assert (Hn : In (x + dx + (y + dy) * w) (land_tiles L1)).
  { destruct (Z.eq_dec dx 0) as [Edx|Ndx], (Z.eq_dec dy 0) as [Edy|Ndy].
    1:{ subst dx dy. replace (x + 0) with x by lia. replace (y + 0) with y by lia.
        exact Hn1. }
    all: apply (tiles_saturated _ _ _ _ _ Hs L1 H1); try assumption; try lia;
      apply of_type_land; (split; [auto|]);
      apply (seen_land _ _ _ _ _ Hs), (seen_tiles _ _ _ _ _ Hs);
      apply (in_all_land_tiles _ L2); assumption. }
  exact (shared_tile _ _ _ _ (tiles_nodup _ _ _ _ _ Hs) H1 H2 Hn Hn2).
Qed.

Lemma detectLands_lands_never_touch_witness :
  mkLand 0 [1; 0] [1; 0] = mkLand 0 [1; 0] [1; 0].
Proof.
  apply (detectLands_lands_never_touch 2 1 strip_2x1 [mkLand 0 [1; 0] [1; 0]]
           (mkLand 0 [1; 0] [1; 0]) (mkLand 0 [1; 0] [1; 0]) 0 0 1 0);
    try reflexivity; try lia; cbn; auto.
Defined.

End LandResults.

Module TraceResults.

Import Terrain TraceFacts LandScanFacts.

(** X21: Started on a cell of the traced type whose western neighbour is not of
    that type, [trace] returns: the walk around the boundary comes back to
    the start.  The path lists the cells entered, each of the traced type
    and one of the eight neighbours of the one before, the last one being
    the start; it is empty exactly when no neighbour of the start is of the
    traced type. *)
Theorem trace_returns_to_start (w h : Z) (g : grid) (type : Cell) (x y : Z) :
  of_type w h g type x y = true -> of_type w h g type (x - 1) y = false ->
  exists p,
    trace x y w h g type = Some p
    /\ contour w h g type x y p x y
    /\ (p = [] <-> alone w h g type x y).
Proof.
  intros Ht Hwest. destruct (alone_or_not w h g type x y) as [Ha | Hnb].
  - exists []. split; [apply trace_alone; exact Ha|].
    split; [constructor|]. tauto.
  - destruct (trace_closes w h g type x y Ht Hwest Hnb) as (p & Ep & Hp & Hc).
    exists p. split; [exact Ep|]. split; [exact Hc|].
    split; [intros E; contradiction|].
    intros Ha. destruct Hnb as (dx & dy & Hdx & Hdy & Hnz & Hn).
    rewrite (Ha dx dy Hdx Hdy Hnz) in Hn. discriminate.
Qed.

Lemma trace_returns_to_start_witness :
  exists p,
    trace 0 0 2 1 [LAND; LAND] LAND = Some p
    /\ contour 2 1 [LAND; LAND] LAND 0 0 p 0 0
    /\ (p = [] <-> alone 2 1 [LAND; LAND] LAND 0 0).
Proof.
  apply (trace_returns_to_start 2 1 [LAND; LAND] LAND 0 0); reflexivity.
Defined.

End TraceResults.

(* ================================================================== *)
(** * The orchestrator: [generate] and [generateUnsafe] *)

Module GenerateFacts.

Import Num Terrain.

Lemma classify_cell_length (w : Z) (hm : list number) (level : number)
  (t : grid) (c : Z * Z) :
  length (classify_cell w hm level t c) = length t.
Proof. destruct c as [x y]. unfold classify_cell. apply ArrFacts.upd_length. Qed.

Lemma classified_length (w h : Z) (hm : list number) (level : number) (t : grid) :
  createFromHeightMap w h hm level = Some t -> length t = Z.to_nat (w * h).
Proof.
  unfold createFromHeightMap, Arr.alloc. destruct (w * h <? 0); [discriminate|].
  intros H. inversion H.
  rewrite (FieldFacts.fold_length _ (@length Cell) _ (classify_cell_length w hm level)).
  apply repeat_length.
Qed.

Lemma classified_returns (w h : Z) (hm : list number) (level : number) :
  0 <= w * h -> exists t, createFromHeightMap w h hm level = Some t.
Proof.
  intros H. unfold createFromHeightMap. rewrite ArrFacts.alloc_nonneg by assumption.
  eauto.
Qed.

Lemma smooth_length (w h : Z) (g : grid) (m it : Z) :
  length (smooth w h g m it) = length g.
Proof. unfold smooth. apply SmoothFacts.smooth_loop_length. reflexivity. Qed.

Lemma detectSeas_length (w h : Z) (g : grid) (ss : list SeaProfile) (g' : grid) :
  detectSeas w h g = Some (ss, g') -> length g' = length g.
Proof.
  unfold detectSeas. destruct (detectSeas_scan w h g) as [s|]; [|discriminate].
  intros H. inversion H. apply SeaScanFacts.reclassify_length.
Qed.



(** The sizes of the seas and lands kept, and their numbers, pass the tests
    of [generateUnsafe]. *)
Definition sea_size_ok (p : WorldGenerationParams) (sea : SeaProfile) : bool :=
  le (minSeaSize p) (of_Z (set_size (sea_tiles sea)))
  && le (of_Z (set_size (sea_tiles sea))) (maxSeaSize p).

Definition land_size_ok (p : WorldGenerationParams) (land : LandProfile) : bool :=
  le (minLandSize p) (of_Z (set_size (land_tiles land)))
  && le (of_Z (set_size (land_tiles land))) (maxLandSize p).

Definition within_limits (p : WorldGenerationParams) (w : World) : Prop :=
  Forall (fun sea => sea_size_ok p sea = true) (seas w)
  /\ lt (of_Z (Z.of_nat (length (seas w)))) (minSeas p) = false
  /\ gt (of_Z (Z.of_nat (length (seas w)))) (maxSeas p) = false
  /\ Forall (fun land => land_size_ok p land = true) (lands w)
  /\ lt (of_Z (Z.of_nat (length (lands w)))) (minLands p) = false
  /\ gt (of_Z (Z.of_nat (length (lands w)))) (maxLands p) = false.

Definition well_sized (p : WorldGenerationParams) (w : World) : Prop :=
  w_width w = width p /\ w_height w = height p
  /\ 0 <= width p * height p
  /\ length (heights w) = Z.to_nat (width p * height p)
  /\ length (moisture w) = Z.to_nat (width p * height p)
  /\ length (types w) = Z.to_nat (width p * height p).

Lemma filter_all {A} (f : A -> bool) (l : list A) :
  Forall (fun a => f a = true) (filter f l).
Proof. apply Forall_forall. intros a Ha. apply filter_In in Ha. tauto. Qed.

Lemma pipeline_generated_world (p : WorldGenerationParams) (hm mm : list number)
  (w : World) :
  pipeline p hm mm = Generated w ->
  within_limits p w
  /\ w_width w = width p /\ w_height w = height p
  /\ heights w = hm /\ moisture w = mm
  /\ length (types w) = Z.to_nat (width p * height p).
Proof.
  unfold pipeline. intros H.
  destruct (createFromHeightMap _ _ _ _) as [t|] eqn:Et; [|discriminate].
  destruct (lt (calculateLandPercent t) (minPercentLand p)); [discriminate|].
  destruct (gt (calculateLandPercent t) (maxPercentLand p)); [discriminate|].
  destruct (detectSeas _ _ _) as [[ss g]|] eqn:Es; [|discriminate].
  destruct (lt _ (minSeas p)) eqn:E1; [discriminate|].
  destruct (gt _ (maxSeas p)) eqn:E2; [discriminate|].
  destruct (detectLands _ _ _) as [ls|]; [|discriminate].
  destruct (lt _ (minLands p)) eqn:E3; [discriminate|].
  destruct (gt _ (maxLands p)) eqn:E4; [discriminate|].
  inversion H; subst w; cbn [seas lands w_width w_height heights moisture types].
  split.
  { unfold within_limits. cbn [seas lands].
    split; [apply (filter_all (sea_size_ok p))|]. split; [exact E1|].
    split; [exact E2|]. split; [apply (filter_all (land_size_ok p))|]. auto. }
  repeat split.
  apply detectSeas_length in Es. rewrite Es, smooth_length.
  apply classified_length in Et. exact Et.
Qed.

Lemma generateUnsafe_generated_world (p : WorldGenerationParams) (w : World) :
  generateUnsafe p = Generated w -> within_limits p w /\ well_sized p w.
Proof.
  unfold generateUnsafe. intros H.
  destruct (PRNG.int (PRNG.create (seed p))) as [s1 rng1].
  destruct (Noise.diamondSquare _ _ _ _ s1 _) as [hm|] eqn:E1; [|discriminate].
  destruct (PRNG.int rng1) as [s2 rng2].
  destruct (Noise.diamondSquare _ _ _ _ s2 _) as [mm|] eqn:E2; [|discriminate].
  apply pipeline_generated_world in H.
  destruct H as (Hl & Hw & Hh & Hhm & Hmm & Ht).
  split; [exact Hl|].
  destruct (FieldFacts.diamondSquare_shape (width p) (height p) (noiseRoughess p) zero
              s1 None) as (Hnone & Hlen & _).
  destruct (FieldFacts.diamondSquare_shape (width p) (height p) (of_Z 2) zero
              s2 None) as (_ & Hlen2 & _).
  unfold well_sized. rewrite Hhm, Hmm.
  split; [exact Hw|]. split; [exact Hh|].
  split.
  { destruct (Z.lt_ge_cases (width p * height p) 0) as [Hn|Hp]; [|lia].
    apply Hnone in Hn. congruence. }
  split; [apply Hlen; exact E1|]. split; [apply Hlen2; exact E2 | exact Ht].
Qed.


Lemma generateUnsafe_range_error (p : WorldGenerationParams) :
  width p * height p < 0 -> generateUnsafe p = RangeError.
Proof.
  intros H. unfold generateUnsafe.
  destruct (PRNG.int (PRNG.create (seed p))) as [s1 rng1].
  destruct (FieldFacts.diamondSquare_shape (width p) (height p) (noiseRoughess p) zero
              s1 None) as (Hnone & _ & _).
  rewrite (Hnone H). reflexivity.
Qed.

(** The seed of attempt [j]: the seed passed in for the first attempt, then
    the integers drawn one after the other from the stream that [generate]
    creates from the seed passed in. *)
Definition seed_of_attempt (p : WorldGenerationParams) (j : nat) : Z :=
  match j with
  | O => seed p
  | S k => fst (PRNG.int (StreamFacts.after k (PRNG.create (seed p))))
  end.

Definition attempts (p : WorldGenerationParams) (n : nat) : list (Z * Z) :=
  map (fun j => (Z.of_nat j, seed_of_attempt p j)) (seq 0 n).

Lemma int_advances (rng : PRNG.RNG) : snd (PRNG.int rng) = PRNG.advance rng.
Proof. reflexivity. Qed.

Lemma attempts_succ (p : WorldGenerationParams) (n : nat) :
  attempts p (S n) = attempts p n ++ [(Z.of_nat n, seed_of_attempt p n)].
Proof. unfold attempts. rewrite seq_S, map_app. reflexivity. Qed.

(** What the retry loop does from attempt [n] on. *)
Lemma generate_loop_run (p : WorldGenerationParams) (k : nat) :
  forall n,
    exists m,
      (n <= m <= n + k)%nat
      /\ snd (generate_loop k (Z.of_nat n) (StreamFacts.after n (PRNG.create (seed p)))
                (seed_of_attempt p n) p (attempts p n))
         = attempts p m
      /\ match fst (generate_loop k (Z.of_nat n)
                      (StreamFacts.after n (PRNG.create (seed p)))
                      (seed_of_attempt p n) p (attempts p n)) with
         | Success w =>
             (n < m)%nat
             /\ generateUnsafe (with_seed (seed_of_attempt p (m - 1)) p) = Generated w
         | Exhausted t =>
             t = maxRetries p /\ m = (n + k)%nat
         | Failed =>
             (n < m)%nat
             /\ generateUnsafe (with_seed (seed_of_attempt p (m - 1)) p) = RangeError
         | NoReturn =>
             (n < m)%nat
             /\ generateUnsafe (with_seed (seed_of_attempt p (m - 1)) p) = Hung
         end
      /\ forall j, (n <= j)%nat -> (S j < m)%nat ->
                   exists why,
                     generateUnsafe (with_seed (seed_of_attempt p j) p) = Rejected why.
Proof.
  induction k as [|k IH]; intros n; cbn [generate_loop].
  - exists n. cbn [fst snd]. repeat split; intros; lia.
  - rewrite <- attempts_succ.
    destruct (generateUnsafe (with_seed (seed_of_attempt p n) p)) as [w|why| |] eqn:E.
    + exists (S n). cbn [fst snd]. replace (S n - 1)%nat with n by lia.
      repeat split; intros; try assumption; lia.
    + destruct (PRNG.int (StreamFacts.after n (PRNG.create (seed p))))
        as [s2 rng2] eqn:Ei.
      assert (Es : s2 = seed_of_attempt p (S n)) by (unfold seed_of_attempt; rewrite Ei; reflexivity).
      assert (Er : rng2 = StreamFacts.after (S n) (PRNG.create (seed p))).
      { pose proof (int_advances (StreamFacts.after n (PRNG.create (seed p)))) as Ha.
        rewrite Ei in Ha. exact Ha. }
      subst s2 rng2.
      replace (Z.of_nat n + 1) with (Z.of_nat (S n)) by lia.
      destruct (IH (S n)) as (m & Hm & Hlog & Hout & Hrej).
      exists m. split; [lia|]. split; [exact Hlog|]. split.
      * destruct (fst (generate_loop _ _ _ _ _ _)); intuition lia.
      * intros j H1 H2. destruct (Nat.eq_dec j n) as [-> | Hne]; [eauto|].
        apply Hrej; lia.
    + exists (S n). cbn [fst snd]. replace (S n - 1)%nat with n by lia.
      repeat split; intros; try assumption; lia.
    + exists (S n). cbn [fst snd]. replace (S n - 1)%nat with n by lia.
      repeat split; intros; try assumption; lia.
Qed.

Lemma generate_run (p : WorldGenerationParams) :
  exists m,
    (m <= Z.to_nat (maxRetries p))%nat
    /\ snd (generate_logged p) = attempts p m
    /\ match generate p with
       | Success w =>
           (0 < m)%nat
           /\ generateUnsafe (with_seed (seed_of_attempt p (m - 1)) p) = Generated w
       | Exhausted t => t = maxRetries p /\ m = Z.to_nat (maxRetries p)
       | Failed =>
           (0 < m)%nat
           /\ generateUnsafe (with_seed (seed_of_attempt p (m - 1)) p) = RangeError
       | NoReturn =>
           (0 < m)%nat
           /\ generateUnsafe (with_seed (seed_of_attempt p (m - 1)) p) = Hung
       end
    /\ forall j, (S j < m)%nat ->
                 exists why,
                   generateUnsafe (with_seed (seed_of_attempt p j) p) = Rejected why.
Proof.
  destruct (generate_loop_run p (Z.to_nat (maxRetries p)) 0) as (m & Hm & Hlog & Hout & Hrej).
  exists m. unfold generate, generate_logged.
  split; [lia|]. split; [exact Hlog|]. split; [exact Hout|].
  intros j Hj. apply Hrej; lia.
Qed.

Lemma nest_empty (n m : Z) :
  n * m = 0 -> 0 <= n -> 0 <= m -> Arr.nest (Arr.range n) (Arr.range m) = [].
Proof.
  intros H Hn Hm. destruct (Arr.nest (Arr.range n) (Arr.range m)) as [|[a b] l] eqn:E;
    [reflexivity|].
  assert (Hin : In (a, b) (Arr.nest (Arr.range n) (Arr.range m)))
    by (rewrite E; left; reflexivity).
  apply ArrFacts.in_nest in Hin. destruct Hin as [Hb Ha].
  apply ArrFacts.in_range in Ha, Hb. nia.
Qed.

Lemma length_zero {A} (l : list A) (n : Z) : n = 0 -> length l = Z.to_nat n -> l = [].
Proof. intros -> H. destruct l; [reflexivity|discriminate]. Qed.

Lemma lt_nan (x : number) : lt nan x = false.
Proof. reflexivity. Qed.

Lemma gt_nan (x : number) : gt nan x = false.
Proof. destruct x; reflexivity. Qed.

Lemma detectSeas_empty (w h : Z) :
  w * h = 0 -> 0 <= w -> 0 <= h -> detectSeas w h [] = Some ([], []).
Proof.
  intros H Hw Hh. unfold detectSeas, detectSeas_scan, sea_scan_cells.
  rewrite ArrFacts.alloc_nonneg by lia. rewrite nest_empty by lia. reflexivity.
Qed.

Lemma detectLands_empty (w h : Z) (g : grid) :
  w * h = 0 -> 0 <= w -> 0 <= h -> detectLands w h g = Some [].
Proof.
  intros H Hw Hh. unfold detectLands, detectLands_scan.
  rewrite ArrFacts.alloc_nonneg by lia. rewrite nest_empty by lia. reflexivity.
Qed.

End GenerateFacts.

Module GenerateResults.

Import Num Terrain GenerateFacts.

(** A 1 x 1 world with no demand on seas or lands. *)
Definition tiny_params : WorldGenerationParams :=
  {| seed := 7; width := 1; height := 1; seaLevel := div (of_Z 1) (of_Z 2);
     noiseRoughess := div (of_Z 9) (of_Z 10);
     maxSmoothingIterations := 100;
     minLands := zero; maxLands := infinity;
     minSeas := zero; maxSeas := infinity;
     minPercentLand := zero; maxPercentLand := one;
     minLandSize := zero; maxLandSize := infinity;
     minSeaSize := zero; maxSeaSize := infinity;
     maxRetries := 2 |}.

Definition with_size (w h retries : Z) (p : WorldGenerationParams)
  : WorldGenerationParams :=
  {| seed := seed p; width := w; height := h; seaLevel := seaLevel p;
     noiseRoughess := noiseRoughess p;
     maxSmoothingIterations := maxSmoothingIterations p;
     minLands := minLands p; maxLands := maxLands p;
     minSeas := minSeas p; maxSeas := maxSeas p;
     minPercentLand := minPercentLand p; maxPercentLand := maxPercentLand p;
     minLandSize := minLandSize p; maxLandSize := maxLandSize p;
     minSeaSize := minSeaSize p; maxSeaSize := maxSeaSize p;
     maxRetries := retries |}.




(** X23: When [width * height] is negative and at least one attempt is allowed,
    the first attempt fails with the [RangeError] of a typed array of
    negative length; [generate] throws it again at once, without drawing a
    new seed or trying again. *)
Theorem generate_rethrows_range_error (p : WorldGenerationParams) :
  width p * height p < 0 -> 0 < maxRetries p ->
  generate_logged p = (Failed, [(0, seed p)]).
Proof.
  intros Hneg Hr. unfold generate_logged.
  destruct (Z.to_nat (maxRetries p)) as [|k] eqn:Ek; [lia|].
  cbn [generate_loop app].
  rewrite generateUnsafe_range_error by exact Hneg. reflexivity.
Qed.

Lemma generate_rethrows_range_error_witness :
  generate_logged (with_size (-1) 1 2 tiny_params) = (Failed, [(0, 7)]).
Proof.
  apply (generate_rethrows_range_error (with_size (-1) 1 2 tiny_params)); cbn; lia.
Defined.

(** X24: When [maxRetries] is zero or negative [generate] makes no attempt at
    all: it throws the error reporting [maxRetries] tries at once. *)
Theorem generate_without_retries (p : WorldGenerationParams) :
  maxRetries p <= 0 -> generate_logged p = (Exhausted (maxRetries p), []).
Proof.
  intros H. unfold generate_logged.
  replace (Z.to_nat (maxRetries p)) with 0%nat by lia. reflexivity.
Qed.

Lemma generate_without_retries_witness :
  generate_logged (with_size 1 1 0 tiny_params) = (Exhausted 0, []).
Proof.
  apply (generate_without_retries (with_size 1 1 0 tiny_params)). cbn. lia.
Defined.

(** X25: A world returned by [generate] meets the limits on seas and lands: every
    sea and land kept has a size the two size tests accept, and the numbers
    of seas and of lands kept are neither below the minimum nor above the
    maximum.  It has the dimensions asked for, which multiply to a length,
    and its height field, moisture field and terrain each hold
    [width * height] cells. *)
Theorem generate_result_within_limits (p : WorldGenerationParams) (w : World) :
  generate p = Success w -> within_limits p w /\ well_sized p w.
Proof.
  intros H. destruct (generate_run p) as (m & _ & _ & Hout & _).
  rewrite H in Hout. destruct Hout as [_ E].
  apply generateUnsafe_generated_world in E. exact E.
Qed.

Lemma generate_result_within_limits_witness :
  exists w, generate tiny_params = Success w
            /\ within_limits tiny_params w /\ well_sized tiny_params w.
Proof.
  eexists. split; [vm_compute; reflexivity|].
  apply (generate_result_within_limits tiny_params). vm_compute. reflexivity.
Defined.

(** X26: The attempts of [generate] are numbered 0, 1, 2, ...; the first runs
    with the seed passed in and attempt [j + 1] with the [j + 1]-th integer
    drawn from the one stream created from the seed passed in.  There are
    at most [maxRetries] of them, every attempt before the last one ended in
    a [TerrainGenerationError], and a world returned is the one the last
    attempt generated. *)
Theorem generate_attempts_follow_stream (p : WorldGenerationParams) :
  exists m,
    (m <= Z.to_nat (maxRetries p))%nat
    /\ snd (generate_logged p) = attempts p m
    /\ (forall j, (S j < m)%nat ->
                  exists why,
                    generateUnsafe (with_seed (seed_of_attempt p j) p) = Rejected why)
    /\ (forall w, generate p = Success w ->
                  (0 < m)%nat
                  /\ generateUnsafe (with_seed (seed_of_attempt p (m - 1)) p)
                     = Generated w).
Proof.
  destruct (generate_run p) as (m & Hm & Hlog & Hout & Hrej).
  exists m. split; [exact Hm|]. split; [exact Hlog|]. split; [exact Hrej|].
  intros w H. rewrite H in Hout. exact Hout.
Qed.

(** X27: On an empty grid (a width or a height of 0) the height field is
    empty and the land fraction is 0 / 0, which is NaN, so neither
    land-fraction test rejects; no sea and no land is found, and the stages
    of [generateUnsafe] that follow the noise are settled by the limits on
    the numbers of seas and lands alone. *)
Theorem pipeline_on_empty_grid (p : WorldGenerationParams) (mm : list number) :
  width p * height p = 0 -> 0 <= width p -> 0 <= height p ->
  pipeline p [] mm
  = if lt zero (minSeas p) then Rejected TooFewSeas
    else if gt zero (maxSeas p) then Rejected TooManySeas
    else if lt zero (minLands p) then Rejected TooFewLands
    else if gt zero (maxLands p) then Rejected TooManyLands
    else Generated {| w_width := width p; w_height := height p;
                      heights := []; moisture := mm; types := [];
                      seas := []; lands := [] |}.
Proof.
  intros H0 Hw Hh. unfold pipeline.
  destruct (classified_returns (width p) (height p) [] (seaLevel p) ltac:(lia))
    as [t Et].
  rewrite Et. rewrite (length_zero t _ H0 (classified_length _ _ _ _ _ Et)).
  change (calculateLandPercent []) with nan. rewrite lt_nan, gt_nan.
  rewrite (length_zero (smooth (width p) (height p) [] 4 (maxSmoothingIterations p)) 0
             eq_refl (smooth_length _ _ _ _ _)).
  rewrite detectSeas_empty by assumption.
  rewrite detectLands_empty by assumption.
  reflexivity.
Qed.

Lemma pipeline_on_empty_grid_witness :
  pipeline (with_size 0 3 2 tiny_params) [] []
  = Generated {| w_width := 0; w_height := 3;
                 heights := []; moisture := []; types := [];
                 seas := []; lands := [] |}.
Proof.
  apply (pipeline_on_empty_grid (with_size 0 3 2 tiny_params) []); cbn; lia.
Defined.

End GenerateResults.
